(** * wiki-gemini-rag-search: the synchronisation and retrieval pipeline

    A shallow embedding of the algorithmic core of the repository, one
    module per source file:

    - [JS]: the ECMAScript string primitives the sources call
      ([trim], [toLowerCase], [includes], [lastIndexOf], [slice], [join]);
    - [SlackController]: [splitIntoSlackChunks] (slackController.ts);
    - [ExtractSynonyms]: [splitDocIntoChunks], the batching loop and the
      merge step of [generateSynonyms] (optimizeExtractSynonyms.ts);
    - [Env]: the state of the process (the run-guard flag, the files under
      config/, the stores of the document-index service, the console), the
      remote services as an oracle, and the monad [IO] of code that changes
      that state and may throw;
    - [GenerateSynonyms]: [generateSynonyms] itself;
    - [RewriteQuery]: [rewriteUserQuestionForFileSearch]
      (rewriteQueryForFileSearch.ts);
    - [GeminiService]: [getSynonymsForContent], [chunkSynonyms],
      [processImagesToRag], [syncWikiToGeminiRag] and [searchWiki]
      (geminiService.ts);
    - [Scenario]: a small deployment, on which the model runs;
    - [RateLimiter]: the middleware [rateLimiter] of the Slack endpoint;
    - [SlackAnswer]: [sendSlackAnswer], [parseGeminiResponse] and
      [handleSlackQuestion] (slackController.ts, parseGeminiResponse.ts);
    - [WikiService]: the page traversal of [getAllWikiPagesWithContent]
      and [getLimitedWikiPages] (wikiService.ts);
    - [SyncSpec], [StoreSpec], [CacheSpec]: predicates on the world that
      the statements about whole runs use.

    The properties follow, from [Examples] on.

    Strings are sequences of UTF-16 code units.  We work in the Latin-1
    block (code units 0..255, the type [ascii]), on which [toLowerCase] and
    [trim] act unit by unit.  Lengths and size limits are natural numbers.
    A [while] loop takes fuel and returns [None] when the fuel runs out;
    its termination is a theorem. *)

From Stdlib Require Import ssreflect ZArith Ascii DecimalString.
From stdpp Require Import gmap strings list.

Set Warnings "-abstract-large-number,-rewrite-rw,-clear-no-such-hyp,-register-all".

Abbreviation jsstring := (list ascii).

(** String literals of the sources, as sequences of code units. *)
Definition str (s : string) : jsstring := String.list_ascii_of_string s.

(** [String(n)] for a natural number, as in a template literal. *)
Definition decimal (n : nat) : jsstring :=
  str (NilEmpty.string_of_uint (Nat.to_uint n)).

(* ===================================================================== *)
(** ** ECMAScript string primitives *)
(* ===================================================================== *)

Module JS.

(** WhiteSpace and LineTerminator code units below 256:
    TAB, LF, VT, FF, CR, SP and NBSP. *)
Definition isWhiteSpace (c : ascii) : bool :=
  let n := N_of_ascii c in
  ((9 <=? n) && (n <=? 13) || (n =? 32) || (n =? 160))%N.

(** [toLowerCase] on one code unit: A-Z, and the Latin-1 capitals
    U+00C0..U+00DE except the multiplication sign U+00D7. *)
Definition lowerUnit (c : ascii) : ascii :=
  let n := N_of_ascii c in
  if ((65 <=? n) && (n <=? 90)
      || (192 <=? n) && (n <=? 222) && negb (n =? 215))%N
  then ascii_of_N (n + 32) else c.

Definition toLowerCase (s : jsstring) : jsstring := lowerUnit <$> s.

Fixpoint trimStart (s : jsstring) : jsstring :=
  match s with
  | c :: s' => if isWhiteSpace c then trimStart s' else s
  | [] => []
  end.

Definition trimEnd (s : jsstring) : jsstring :=
  reverse (trimStart (reverse s)).

Definition trim (s : jsstring) : jsstring := trimEnd (trimStart s).

(** [s.slice(from, to)] and [s.slice(from)] for indices that are not
    negative. *)
Definition slice (s : jsstring) (from to : nat) : jsstring :=
  take (to - from) (drop from s).

Definition sliceFrom (s : jsstring) (from : nat) : jsstring := drop from s.

Fixpoint startsWith (s sub : jsstring) : bool :=
  match sub, s with
  | [], _ => true
  | _ :: _, [] => false
  | a :: sub', b :: s' => bool_decide (a = b) && startsWith s' sub'
  end.

Fixpoint includes (s sub : jsstring) : bool :=
  startsWith s sub ||
  match s with
  | [] => false
  | _ :: s' => includes s' sub
  end.

Definition endsWith (s sub : jsstring) : bool :=
  startsWith (reverse s) (reverse sub).

(** [a || b] on strings: the first one if it is truthy. *)
Definition orElse (a b : jsstring) : jsstring :=
  match a with [] => b | _ :: _ => a end.

(** [s.lastIndexOf(sub)]: the greatest position where [sub] occurs,
    or [-1]. *)
Fixpoint lastIndexOfFrom (s sub : jsstring) (i : Z) (found : Z) : Z :=
  let found' := if startsWith s sub then i else found in
  match s with
  | [] => found'
  | _ :: s' => lastIndexOfFrom s' sub (i + 1) found'
  end.

Definition lastIndexOf (s sub : jsstring) : Z :=
  lastIndexOfFrom s sub 0 (-1).

(** [arr.join(sep)] *)
Fixpoint join (sep : jsstring) (arr : list jsstring) : jsstring :=
  match arr with
  | [] => []
  | [x] => x
  | x :: rest => x ++ sep ++ join sep rest
  end.

Definition whitespaceOnly (s : jsstring) : Prop :=
  Forall (λ c, isWhiteSpace c = true) s.

(** A string is truthy when it is not empty. *)
Definition truthy (s : jsstring) : bool :=
  match s with [] => false | _ :: _ => true end.

End JS.

(* ===================================================================== *)
(** ** slackController.ts *)
(* ===================================================================== *)

Module SlackController.

Definition SLACK_MAX_MESSAGE_SIZE : nat := 2800.

(** One test of the [while] condition and, when it holds, one run of the
    loop body.  [fuel] bounds the number of tests; [None] means the bound
    was reached with the loop still running. *)
Fixpoint splitLoop (fuel : nat) (maxSize : nat)
    (parts : list jsstring) (remaining : jsstring)
    : option (list jsstring * jsstring) :=
  match fuel with
  | O => None
  | S fuel' =>
      if bool_decide (maxSize < length remaining) then
        let slice := JS.slice remaining 0 maxSize in
        let lastPeriod := JS.lastIndexOf slice (str ".") in
        let slice :=
          if negb (bool_decide (lastPeriod = -1)%Z)
             && bool_decide (2000 < lastPeriod)%Z
          then JS.slice slice 0 (Z.to_nat (lastPeriod + 1))
          else slice in
        splitLoop fuel' maxSize (parts ++ [slice])
          (JS.trim (JS.sliceFrom remaining (length slice)))
      else Some (parts, remaining)
  end.

Definition splitIntoSlackChunks (fuel : nat) (text : jsstring) (maxSize : nat)
    : option (list jsstring) :=
  match splitLoop fuel maxSize [] text with
  | Some (parts, remaining) =>
      Some (if bool_decide (0 < length remaining)
            then parts ++ [remaining] else parts)
  | None => None
  end.

(** Re-inserting a gap after each chunk. *)
Fixpoint weave (chunks gaps : list jsstring) : jsstring :=
  match chunks, gaps with
  | c :: cs, g :: gs => c ++ g ++ weave cs gs
  | _, _ => []
  end.


(** The slice pushed by one round of the loop. *)
Definition cut (maxSize : nat) (remaining : jsstring) : jsstring :=
  let slice := JS.slice remaining 0 maxSize in
  let lastPeriod := JS.lastIndexOf slice (str ".") in
  if negb (bool_decide (lastPeriod = -1)%Z)
     && bool_decide (2000 < lastPeriod)%Z
  then JS.slice slice 0 (Z.to_nat (lastPeriod + 1))
  else slice.

(** What the loop has established after some rounds: the text is the
    chunks so far, each followed by the whitespace that [trim] removed
    after it, then the remaining text, then the whitespace that the first
    [trim] removed at the very end. *)
Definition SplitInv (text : jsstring) (parts : list jsstring)
    (remaining : jsstring) : Prop :=
  ∃ gaps tail,
    length gaps = length parts ∧ Forall JS.whitespaceOnly gaps ∧
    JS.whitespaceOnly tail ∧ (parts = [] → tail = []) ∧
    text = weave parts gaps ++ remaining ++ tail.

End SlackController.

(* ===================================================================== *)
(** ** optimizeExtractSynonyms.ts *)
(* ===================================================================== *)

Module ExtractSynonyms.

(** token usage (beware of costs and limits) *)
Definition MAX_CHARS_PER_BATCH : nat := 20000.

(** [{ name: string; text: string }] *)
Record Doc := mkDoc { name : jsstring; text : jsstring }.

(** One element of a parsed model answer.  The merge step guards against
    a missing entry, a missing term and a [synonyms] field that is not an
    array, so each of them is optional here. *)
Record RawEntry := mkRaw {
  rawTerm : option jsstring;
  rawSynonyms : option (list jsstring)
}.

(** An element of [finalOutput], as written to synonyms.json. *)
Record SynonymEntry := mkEntry { term : jsstring; synonyms : list jsstring }.

(** *** splitDocIntoChunks *)

Fixpoint splitDocLoop (fuel : nat) (doc : Doc) (chunks : list Doc)
    (start index : nat) : option (list Doc) :=
  match fuel with
  | O => None
  | S fuel' =>
      if bool_decide (start < length (text doc)) then
        let chunkText :=
          JS.slice (text doc) start (start + MAX_CHARS_PER_BATCH) in
        splitDocLoop fuel' doc
          (chunks ++ [ {| name := name doc ++ str "#" ++ decimal index;
                          text := chunkText |} ])
          (start + MAX_CHARS_PER_BATCH) (index + 1)
      else Some chunks
  end.

(** The loop advances by [MAX_CHARS_PER_BATCH] characters per round, so
    one test per character and a last one are enough. *)
Definition splitDocIntoChunks (doc : Doc) : option (list Doc) :=
  splitDocLoop (S (length (text doc))) doc [] 0 1.

(** *** The batching loop of generateSynonyms *)

Section Batching.
(** [extractBatch batch]: the entries the extraction call returned for
    the batch (empty after two failures). *)
Variable extractBatch : list Doc → list (option RawEntry).

Record BatchState := mkBatchState {
  results : list (option RawEntry);
  calls : list (list Doc);      (* the batches passed to extractBatch *)
  batch : list Doc;
  size : nat
}.

Definition flush (st : BatchState) : BatchState :=
  {| results := results st ++ extractBatch (batch st);
     calls := calls st ++ [batch st];
     batch := [];
     size := 0 |}.

(** Body of [for (const sub of docsToInsert)]. *)
Definition insertUnit (st : BatchState) (sub : Doc) : BatchState :=
  let st :=
    if bool_decide (MAX_CHARS_PER_BATCH < size st + length (text sub))
    then flush st else st in
  {| results := results st;
     calls := calls st;
     batch := batch st ++ [sub];
     size := size st + length (text sub) |}.

Definition docsToInsert (doc : Doc) : option (list Doc) :=
  if bool_decide (MAX_CHARS_PER_BATCH < length (text doc))
  then splitDocIntoChunks doc
  else Some [doc].

(** Body of [for (const doc of wikiDocs)]. *)
Definition insertDoc (st : option BatchState) (doc : Doc)
    : option BatchState :=
  st ← st; subs ← docsToInsert doc; Some (foldl insertUnit st subs).

Definition finalBatch (st : BatchState) : BatchState :=
  if bool_decide (0 < length (batch st)) then flush st else st.

Definition runBatches (wikiDocs : list Doc) : option BatchState :=
  finalBatch <$> foldl insertDoc (Some (mkBatchState [] [] [] 0)) wikiDocs.
End Batching.

(** The units of a run, in the order they are inserted. *)
Definition unitsOf (wikiDocs : list Doc) : option (list Doc) :=
  @concat Doc <$> mapM docsToInsert wikiDocs.

(** Accumulated unit text of a batch, in characters. *)
Definition batchChars (b : list Doc) : nat :=
  sum_list_with (λ u, length (text u)) b.

(** A batch within the budget, or one unit that alone exceeds it. *)
Definition batchOk (b : list Doc) : Prop :=
  batchChars b ≤ MAX_CHARS_PER_BATCH
  ∨ ∃ u, b = [u] ∧ MAX_CHARS_PER_BATCH < length (text u).

(** Invariant of the batching loop after the units [us]. *)
Definition BatchInv (st : BatchState) (us : list Doc) : Prop :=
  concat (calls st) ++ batch st = us ∧
  size st = batchChars (batch st) ∧
  Forall batchOk (calls st) ∧
  batchOk (batch st).

(** *** The merge step of generateSynonyms *)

(** [Map<string, Set<string>>]: both keep insertion order, which is the
    order of [finalOutput]; an association list with one pair per key. *)
Abbreviation TermMap := (list (jsstring * list jsstring)).

Definition mapHas (m : TermMap) (k : jsstring) : bool :=
  bool_decide (k ∈ m.*1).

(** [set.add(x)] *)
Definition setAdd (set : list jsstring) (x : jsstring) : list jsstring :=
  if bool_decide (x ∈ set) then set else set ++ [x].

(** [map.get(term)!.add(s)] *)
Definition mapAdd (k : jsstring) (m : TermMap) (s : jsstring) : TermMap :=
  (λ p, if bool_decide (p.1 = k) then (p.1, setAdd p.2 s) else p) <$> m.

(** Body of [for (const entry of results)]. *)
Definition mergeEntry (m : TermMap) (entry : option RawEntry) : TermMap :=
  match entry with
  | None => m
  | Some e =>
      match rawTerm e with
      | None => m
      | Some t =>
          if negb (JS.truthy t) then m else
          let term := JS.toLowerCase (JS.trim t) in
          if negb (JS.truthy term) then m else
          let m := if mapHas m term then m else m ++ [(term, [])] in
          match rawSynonyms e with
          | Some syns =>
              foldl (mapAdd term) m
                (filter (λ s, 0 < length s ∧ s ≠ term)
                   ((λ s, JS.toLowerCase (JS.trim s)) <$> syns))
          | None => m
          end
      end
  end.

Definition finalOutput (m : TermMap) : list SynonymEntry :=
  filter (λ x, 0 < length (synonyms x))
    ((λ p, {| term := p.1; synonyms := p.2 |}) <$> m).

Definition mergeResults (results : list (option RawEntry))
    : list SynonymEntry :=
  finalOutput (foldl mergeEntry [] results).

(** Entries of a persisted index read back as extraction results. *)
Definition asRaw (x : SynonymEntry) : option RawEntry :=
  Some {| rawTerm := Some (term x); rawSynonyms := Some (synonyms x) |}.

(** Lowercased and trimmed. *)
Definition Normal (s : jsstring) : Prop :=
  JS.toLowerCase s = s ∧ JS.trim s = s.

(** A synonym set fit for the term [t]: no duplicates, every member
    lowercased, trimmed, not empty and different from [t]. *)
Definition SynonymsOk (t : jsstring) (syns : list jsstring) : Prop :=
  NoDup syns ∧ Forall (λ s, Normal s ∧ s ≠ [] ∧ s ≠ t) syns.

Definition MapOk (m : TermMap) : Prop :=
  NoDup m.*1
  ∧ Forall (λ p, (Normal p.1 ∧ p.1 ≠ []) ∧ SynonymsOk p.1 p.2) m.

(** The invariant of the persisted Synonym Index. *)
Definition IndexOk (out : list SynonymEntry) : Prop :=
  NoDup (term <$> out)
  ∧ Forall (λ x, (Normal (term x) ∧ term x ≠ [])
                 ∧ synonyms x ≠ [] ∧ SynonymsOk (term x) (synonyms x)) out.

End ExtractSynonyms.

(* ===================================================================== *)
(** ** The process, its files and the remote services *)
(* ===================================================================== *)

Module Env.

(** A thrown [Error] and its message. *)
Inductive Thrown := Error (message : jsstring).

Inductive Result (A : Type) :=
| Ok (a : A)
| Throw (e : Thrown).

Arguments Ok {A} a.
Arguments Throw {A} e.

(** An exported page, config/wiki-files/<file>.json.  A field is [None]
    when the object does not have it. *)
Record WikiJson := mkWikiJson {
  title : option jsstring;
  path : option jsstring;
  source : option jsstring;
  content : option jsstring
}.

(** An element of [customMetadata]. *)
Record Metadata := mkMetadata {
  key : jsstring;
  stringValue : option jsstring
}.

(** A document of a File Search store. *)
Record Document := mkDocument {
  displayName : jsstring;
  body : jsstring;
  customMetadata : list Metadata
}.

(** A File Search store of the document-index service. *)
Record Store := mkStore {
  name : jsstring;
  storeDisplayName : jsstring;
  documents : list Document
}.

(** The files under config/.  [None] is a file or directory that does not
    exist; a page that is [None] is a file that [JSON.parse] rejects. *)
Record FileSystem := mkFileSystem {
  wikiFiles : option (list (jsstring * option WikiJson));
  wikiImages : option (list (jsstring * list ascii));
  imageHashCache : option (gmap jsstring jsstring);
  synonymsJson : option (list ExtractSynonyms.SynonymEntry)
}.

(** What a run leaves on the console, and the calls it makes to the
    generation services. *)
Inductive Event :=
| SyncAlreadyRunning
| SyncError (e : Thrown)
| SyncComplete
| HashCacheCleared
| StoreDeleted (store : jsstring)
| StoreCreated (store : jsstring)
| RuntimeDuplicateSkipped (image : jsstring)
| HashMatchSkipped (image : jsstring)
| Analysing (image : jsstring)
| Uploading (file : jsstring)
| UploadSuccessful (file : jsstring)
| UploadFailed (file : jsstring)
| ImageFailed (image : jsstring) (e : Thrown)
| RewriteCall (prompt : jsstring)
| SearchCall (text : jsstring).

(** The module variables [syncRunning] and [ai], the files, the stores of
    the document-index service, and the events so far. *)
Record World := mkWorld {
  syncRunning : bool;
  ai : bool;
  fs : FileSystem;
  stores : list Store;
  trace : list Event
}.

(** The environment variables, the library functions that are not modelled
    (MD5, UUIDs, regular expressions) and the answers of the remote
    services. *)
Record Services := mkServices {
  DATASET_NAME : jsstring;
  md5 : list ascii → jsstring;
  randomUUID : jsstring → jsstring;
  (* the image names that buildImagePageMap's regular expression finds *)
  imageRefs : jsstring → list jsstring;
  cleanWikiText : jsstring → jsstring;
  (* ai.fileSearchStores.create: the name of the new store *)
  createStore : list Store → Result jsstring;
  (* ai.fileSearchStores.uploadToFileSearchStore: the error, if any *)
  uploadToFileSearchStore : jsstring → Document → option Thrown;
  (* analyzeImageWithGemini, which catches every error of the call *)
  analyzeImage : jsstring → list ascii → jsstring;
  (* one extraction call with its parse, by attempt; [None] is a failure *)
  extractOnce :
    list ExtractSynonyms.Doc → nat → option (list (option ExtractSynonyms.RawEntry));
  (* rewriteModel.generateContent(prompt), then response.text() *)
  rewriteGenerate : jsstring → Result jsstring;
  (* the system instruction of searchWiki when no custom prompt is given *)
  defaultSystemInstruction : jsstring;
  (* ai.models.generateContent of searchWiki: the text parts of the first
     candidate, by question, system instruction, store and round *)
  searchGenerate :
    jsstring → jsstring → jsstring → nat → Result (list (option jsstring))
}.

(** *** Code that changes the world and may throw *)

Definition IO (A : Type) : Type := World → Result A * World.

#[global] Instance IO_ret : MRet IO := λ A a w, (Ok a, w).

#[global] Instance IO_bind : MBind IO := λ A B f m w,
  match m w with
  | (Ok a, w') => f a w'
  | (Throw e, w') => (Throw e, w')
  end.

Definition throw {A} (e : Thrown) : IO A := λ w, (Throw e, w).

Definition liftResult {A} (r : Result A) : IO A := λ w, (r, w).

(** [try { body } catch (e) { handler e }] *)
Definition tryCatch {A} (body : IO A) (handler : Thrown → IO A) : IO A :=
  λ w, match body w with
       | (Ok a, w') => (Ok a, w')
       | (Throw e, w') => handler e w'
       end.

(** [try { body } finally { fin }], for a [fin] that does not throw. *)
Definition finally {A} (body : IO A) (fin : World → World) : IO A :=
  λ w, let '(r, w') := body w in (r, fin w').

Definition getWorld : IO World := λ w, (Ok w, w).

Definition modify (f : World → World) : IO unit := λ w, (Ok tt, f w).

Definition setSyncRunning (b : bool) (w : World) : World :=
  mkWorld b (ai w) (fs w) (stores w) (trace w).

Definition setAi (b : bool) (w : World) : World :=
  mkWorld (syncRunning w) b (fs w) (stores w) (trace w).

Definition setFs (f : FileSystem) (w : World) : World :=
  mkWorld (syncRunning w) (ai w) f (stores w) (trace w).

Definition setStores (ss : list Store) (w : World) : World :=
  mkWorld (syncRunning w) (ai w) (fs w) ss (trace w).

Definition log (ev : Event) : IO unit :=
  modify (λ w, mkWorld (syncRunning w) (ai w) (fs w) (stores w) (trace w ++ [ev])).

Definition setImageHashCache (c : option (gmap jsstring jsstring))
      (f : FileSystem) : FileSystem :=
  mkFileSystem (wikiFiles f) (wikiImages f) c (synonymsJson f).

Definition setSynonymsJson (j : option (list ExtractSynonyms.SynonymEntry))
      (f : FileSystem) : FileSystem :=
  mkFileSystem (wikiFiles f) (wikiImages f) (imageHashCache f) j.

(** A [for ... of] loop that carries the local variables in [s]. *)
Fixpoint forOf {A S} (l : list A) (body : S → A → IO S) (s : S) : IO S :=
  match l with
  | [] => mret s
  | x :: l' => s' ← body s x; forOf l' body s'
  end.

(** [fs.readdirSync(dir)] *)
Definition readdirSync {A} (dir : option (list (jsstring * A)))
      : IO (list jsstring) :=
  match dir with
  | Some entries => mret entries.*1
  | None => throw (Error (str "ENOENT: no such file or directory"))
  end.

(** The file [file] of a directory. *)
Definition readFileSync {A} (dir : option (list (jsstring * A)))
      (file : jsstring) : IO A :=
  match dir ≫= (λ entries, (list_to_map entries : gmap jsstring A) !! file) with
  | Some x => mret x
  | None => throw (Error (str "ENOENT: no such file or directory"))
  end.

(** [m] keeps the property [P] of the world, however it ends. *)
Definition preserves {A} (P : World → Prop) (m : IO A) : Prop :=
  ∀ w, P w → P (m w).2.

(** [${x}] in a template literal. *)
Definition interpolate (x : option jsstring) : jsstring :=
  default (str "undefined") x.

Definition newline : jsstring := ["010"%char].

End Env.

(* ===================================================================== *)
(** ** optimizeExtractSynonyms.ts: generateSynonyms *)
(* ===================================================================== *)

Module GenerateSynonyms.
Import Env ExtractSynonyms.

Section WithServices.
Variable svc : Services.

(** [extractBatch(batch)], called with [attempt = 1] only: a failed first
    attempt is retried once, a failed second attempt gives []. *)
Definition extractBatch (batch : list Doc) : list (option RawEntry) :=
  match extractOnce svc batch 1 with
  | Some entries => entries
  | None =>
      match extractOnce svc batch 2 with
      | Some entries => entries
      | None => []
      end
  end.

(** The loop that fills [wikiDocs]; a page that cannot be processed is
    logged and left out. *)
Definition loadWikiDocs (entries : list (jsstring * option WikiJson))
      : list Doc :=
  entries ≫= λ '(file, json),
    if JS.endsWith file (str ".json") then
      match json with
      | Some j =>
          let content := cleanWikiText svc (default [] (Env.content j)) in
          if bool_decide (20 < length content)
          then [ {| ExtractSynonyms.name := file; text := content |} ]
          else []
      | None => []
      end
    else [].

Definition generateSynonyms : IO (option (list SynonymEntry)) :=
  tryCatch
    (modify (λ w, setFs (setSynonymsJson None (fs w)) w);;
     w ← getWorld;
     _ ← readdirSync (wikiFiles (fs w));
     let wikiDocs := loadWikiDocs (default [] (wikiFiles (fs w))) in
     match runBatches extractBatch wikiDocs with
     | Some st =>
         let finalOutput := mergeResults (results st) in
         modify (λ w, setFs (setSynonymsJson (Some finalOutput) (fs w)) w);;
         mret (Some finalOutput)
     | None =>
         (* out of fuel in splitDocIntoChunks: never the case *)
         throw (Error (str "unreachable"))
     end)
    (λ _, mret None).

End WithServices.

End GenerateSynonyms.

(* ===================================================================== *)
(** ** rewriteQueryForFileSearch.ts *)
(* ===================================================================== *)

Module RewriteQuery.
Import Env.

(** [interface SynonymEntry]; [None] is a [synonyms] that is not an
    array. *)
Record SynonymEntry := mkEntry {
  term : jsstring;
  synonyms : option (list jsstring)
}.

Section WithServices.
Variable svc : Services.
(** Load synonyms once *)
Variable synonymEntries : list SynonymEntry.

Definition findRelevantSynonyms (question : jsstring) : list SynonymEntry :=
  let lowerQ := JS.toLowerCase question in
  foldl (λ matches entry,
           let term := JS.toLowerCase (term entry) in
           let termHit := JS.includes lowerQ term in
           let synonymHit :=
             match synonyms entry with
             | Some syns =>
                 existsb (λ s, JS.includes lowerQ (JS.toLowerCase s)) syns
             | None => false
             end in
           if termHit || synonymHit then matches ++ [entry] else matches)
        [] synonymEntries.

(** [e.synonyms.join] throws a TypeError when [synonyms] is not an
    array. *)
Definition buildSynonymContext (entries : list SynonymEntry)
      : Result jsstring :=
  if bool_decide (length entries = 0)
  then Ok (str "None found for this question.")
  else
    match mapM (λ e, (λ syns, str "- " ++ term e ++ str ": "
                              ++ JS.join (str ", ") syns) <$> synonyms e)
               entries with
    | Some lines => Ok (JS.join newline lines)
    | None => Throw (Error (str "TypeError: e.synonyms.join is not a function"))
    end.

Definition quote : jsstring := ["034"%char].

Definition promptFor (synonymContext originalQuestion : jsstring)
    : jsstring :=
str "
You are a query rewriting assistant for an internal IT documentation search.

Rules:
- You MUST rewrite the user question into a FileSearch-friendly search instruction.
- ALWAYS start with the phrase: Search document title, content, metadata that contains term
- Extract the 3 to 5 most important search terms from the question.
- Include matching synonyms from provided synonym list.
- For every extracted search term or synonym, wrap the term in double quotes.
- Terms must be separated by commas.
- After the list of quoted terms, add a short phrase describing the user's intent
  such as: and summarize how to <user intent>.
- Output MUST be plain text, one sentence only.
- NO markdown. NO JSON. NO bullet points.

Relevant domain terms and synonyms for expansion:
" ++ synonymContext ++ str "

User question:
" ++ quote ++ originalQuestion ++ quote ++ str "

Rewrite the instruction now.
".

Definition rewriteUserQuestionForFileSearch (originalQuestion : jsstring)
      : IO jsstring :=
  let relevant := findRelevantSynonyms originalQuestion in
  synonymContext ← liftResult (buildSynonymContext relevant);
  let prompt := promptFor synonymContext originalQuestion in
  log (RewriteCall prompt);;
  res ← liftResult (rewriteGenerate svc prompt);
  mret (JS.trim res).

End WithServices.

End RewriteQuery.

(* ===================================================================== *)
(** ** geminiService.ts *)
(* ===================================================================== *)

(** The file holds the service twice; the first, current version is the
    one modelled here (the second lacks the synonym metadata and the query
    rewrite, and has the same sync run and image pass). *)

Module GeminiService.

(** [interface SynonymConfig]; the code checks [Array.isArray] on
    [synonyms], [None] stands for a value that is not an array. *)
Record SynonymConfig := mkConfig {
  term : jsstring;
  synonyms : option (list jsstring)
}.

(** [found.add(x)] on a [Set<string>], which keeps insertion order. *)
Definition setAdd (found : list jsstring) (x : jsstring) : list jsstring :=
  if bool_decide (x ∈ found) then found else found ++ [x].

Definition termInText (lower : jsstring) (entry : SynonymConfig) : bool :=
  JS.includes lower (JS.toLowerCase (term entry)).

Definition synonymInText (lower : jsstring) (entry : SynonymConfig) : bool :=
  match synonyms entry with
  | Some syns => existsb (λ s, JS.includes lower (JS.toLowerCase s)) syns
  | None => false
  end.

(** Body of [for (const entry of synonymConfigs)]. *)
Definition lookupStep (lower : jsstring) (found : list jsstring)
    (entry : SynonymConfig) : list jsstring :=
  let termLower := JS.toLowerCase (term entry) in
  if termInText lower entry || synonymInText lower entry then
    let found := setAdd found termLower in
    match synonyms entry with
    | Some syns => foldl (λ f s, setAdd f (JS.toLowerCase s)) found syns
    | None => found
    end
  else found.

Definition getSynonymsForContent (synonymConfigs : list SynonymConfig)
    (content : jsstring) : list jsstring :=
  let lower := JS.toLowerCase content in
  foldl (lookupStep lower) [] synonymConfigs.

(** The cluster of an entry: its lowercased term and synonyms. *)
Definition cluster (entry : SynonymConfig) : list jsstring :=
  JS.toLowerCase (term entry)
  :: (JS.toLowerCase <$> default [] (synonyms entry)).

(** The lowercased content contains the lowercased term of the entry or
    one of its lowercased synonyms. *)
Definition mentions (content : jsstring) (entry : SynonymConfig) : Prop :=
  let lower := JS.toLowerCase content in
  JS.includes lower (JS.toLowerCase (term entry)) = true
  ∨ ∃ syns s, synonyms entry = Some syns ∧ s ∈ syns
              ∧ JS.includes lower (JS.toLowerCase s) = true.

(** Body of [for (const syn of synonyms)] in chunkSynonyms. *)
Definition chunkStep (maxLen : nat) (st : list jsstring * jsstring)
    (syn : jsstring) : list jsstring * jsstring :=
  let '(chunks, current) := st in
  let trimmed := JS.trim syn in
  if negb (JS.truthy trimmed) then st else
  let addition := (if JS.truthy current then str ", " else []) ++ trimmed in
  if bool_decide (maxLen < length current + length addition) then
    let chunks := if JS.truthy current then chunks ++ [current] else chunks in
    if bool_decide (maxLen < length trimmed)
    then (chunks ++ [JS.slice trimmed 0 maxLen], [])
    else (chunks, trimmed)
  else (chunks, current ++ addition).

Definition chunkSynonyms (synonyms : list jsstring) (maxLen : nat)
    : list jsstring :=
  let '(chunks, current) := foldl (chunkStep maxLen) ([], []) synonyms in
  if JS.truthy current then chunks ++ [current] else chunks.

(** What the chunker does to one term: trim it, cut it at [maxLen]. *)
Definition truncated (maxLen : nat) (t : jsstring) : jsstring :=
  if bool_decide (maxLen < length t) then JS.slice t 0 maxLen else t.


(** *** Hash cache, stores and uploads *)

Section WithServices.
Import Env.
Variable svc : Services.
(** Load once at startup *)
Variable synonymConfigs : list SynonymConfig.
Variable synonymEntries : list RewriteQuery.SynonymEntry.

Definition getImageHash (image : jsstring) : IO jsstring :=
  w ← getWorld;
  buffer ← readFileSync (wikiImages (fs w)) image;
  mret (md5 svc buffer).

Definition loadHashCache : IO (gmap jsstring jsstring) :=
  w ← getWorld;
  mret (default ∅ (imageHashCache (fs w))).

Definition saveHashCache (cache : gmap jsstring jsstring) : IO unit :=
  modify (λ w, setFs (setImageHashCache (Some cache) (fs w)) w).

Definition clearImageHashCache : IO unit :=
  w ← getWorld;
  match imageHashCache (fs w) with
  | Some _ =>
      modify (λ w, setFs (setImageHashCache None (fs w)) w);;
      log HashCacheCleared
  | None => mret tt
  end.

Definition generateGuid (image : jsstring) : jsstring := randomUUID svc image.

Definition initializeGemini : IO unit := modify (setAi true).

Definition findRagStoreByDisplayName (displayName : jsstring)
      : IO (option Store) :=
  w ← getWorld;
  mret (head (filter (λ store, storeDisplayName store = displayName) (stores w))).

(** The first page of the directory that is a .json file lists first;
    a later page that names the same image overwrites the entry. *)
Definition buildImagePageMap : IO (gmap jsstring jsstring) :=
  w ← getWorld;
  match wikiFiles (fs w) with
  | None => mret ∅
  | Some entries =>
      let textFiles := filter (λ f, JS.endsWith f (str ".json") = true) entries.*1 in
      forOf textFiles
        (λ map file,
           parsed ← readFileSync (wikiFiles (fs w)) file;
           match parsed with
           | None => throw (Error (str "SyntaxError: Unexpected token in JSON"))
           | Some json =>
               let pagePath :=
                 JS.orElse (default [] (title json))
                   (JS.orElse (default [] (path json))
                      (JS.orElse (default [] (source json)) file)) in
               let content := default [] (content json) in
               mret (foldl (λ map imageName,
                              if JS.truthy imageName
                              then <[imageName := pagePath]> map else map)
                           map (imageRefs svc content))
           end)
        ∅
  end.

Definition uploadTextToRag (storeName content filename : jsstring)
      (metadata : list Metadata) : IO unit :=
  let safeFilename := filename in
  log (Uploading safeFilename);;
  let document := mkDocument safeFilename content metadata in
  match uploadToFileSearchStore svc storeName document with
  | None =>
      modify (λ w,
        setStores
          ((λ store, if bool_decide (name store = storeName)
                     then mkStore (name store) (storeDisplayName store)
                            (documents store ++ [document])
                     else store) <$> stores w) w);;
      log (UploadSuccessful safeFilename)
  | Some error =>
      log (UploadFailed safeFilename);;
      throw error
  end.

(** *** Image processor *)

(** [/\.(png|jpg|jpeg|gif)$/i] *)
Definition hasImageExtension (f : jsstring) : bool :=
  let lower := JS.toLowerCase f in
  JS.endsWith lower (str ".png") || JS.endsWith lower (str ".jpg")
  || JS.endsWith lower (str ".jpeg") || JS.endsWith lower (str ".gif").

(** [image.replace(/\.(png|jpg|jpeg|gif)$/i, ".txt")] *)
Definition replaceImageExtension (image : jsstring) : jsstring :=
  let lower := JS.toLowerCase image in
  if JS.endsWith lower (str ".jpeg")
  then JS.slice image 0 (length image - 5) ++ str ".txt"
  else if hasImageExtension image
  then JS.slice image 0 (length image - 4) ++ str ".txt"
  else image.

(** The local variables of the loop of processImagesToRag. *)
Record ImageLoop := mkImageLoop {
  uploadedImages : nat;
  hashCache : gmap jsstring jsstring;
  processedInThisRun : gset jsstring
}.

(** Body of [for (const image of images)]. *)
Definition processImage (storeName : jsstring)
      (imagePageMap : gmap jsstring jsstring) (st : ImageLoop)
      (image : jsstring) : IO ImageLoop :=
  if bool_decide (image ∈ processedInThisRun st) then
    log (RuntimeDuplicateSkipped image);;
    mret st
  else
    let st := mkImageLoop (uploadedImages st) (hashCache st)
                ({[image]} ∪ processedInThisRun st) in
    hash ← getImageHash image;
    if bool_decide (hashCache st !! image = Some hash) then
      log (HashMatchSkipped image);;
      mret st
    else
      log (Analysing image);;
      tryCatch
        (w ← getWorld;
         buffer ← readFileSync (wikiImages (fs w)) image;
         let description := analyzeImage svc image buffer in
         let sourcePage :=
           JS.orElse (default [] (imagePageMap !! image)) (str "Unknown") in
         let content :=
           str "SOURCE PAGE: " ++ sourcePage ++ newline
           ++ str "IMAGE: " ++ image ++ newline ++ newline
           ++ str "DESCRIPTION:" ++ newline ++ description in
         let outputName := replaceImageExtension image in
         let guid := generateGuid image in
         uploadTextToRag storeName content outputName
           [ mkMetadata (str "type") (Some (str "wiki-image"));
             mkMetadata (str "source_page") (Some sourcePage);
             mkMetadata (str "image_name") (Some (image ++ str "-" ++ guid));
             mkMetadata (str "image_guid") (Some guid) ];;
         let hashCache := <[image := hash]> (hashCache st) in
         saveHashCache hashCache;;
         mret (mkImageLoop (uploadedImages st + 1) hashCache
                 (processedInThisRun st)))
        (λ err, log (ImageFailed image err);; mret st).

Definition processImagesToRag (storeName : jsstring) : IO (nat * jsstring) :=
  imagePageMap ← buildImagePageMap;
  w ← getWorld;
  listing ← readdirSync (wikiImages (fs w));
  let images := filter (λ f, hasImageExtension f = true) listing in
  hashCache ← loadHashCache;
  st ← forOf images (processImage storeName imagePageMap)
         (mkImageLoop 0 hashCache ∅);
  mret (uploadedImages st, storeName).

(** *** Master sync *)

Definition SetUpFileSearchStore : IO jsstring :=
  existingStore ← findRagStoreByDisplayName (DATASET_NAME svc);
  match existingStore with
  | Some store =>
      if JS.truthy (name store) then
        log (StoreDeleted (DATASET_NAME svc));;
        modify (λ w,
          setStores (filter (λ s, name s ≠ name store) (stores w)) w)
      else mret tt
  | None => mret tt
  end;;
  w ← getWorld;
  newName ← liftResult (createStore svc (stores w));
  modify (λ w, setStores (stores w ++ [mkStore newName (DATASET_NAME svc) []]) w);;
  if negb (JS.truthy newName)
  then throw (Error (str "Failed to create new RAG store"))
  else log (StoreCreated newName);; mret newName.

Definition MAX_SYNONYM_GROUPS : nat := 15.

(** The return value of a sync run that completes. *)
Record SyncResult := mkSyncResult {
  message : jsstring;
  textFilesUploaded : nat;
  imageFilesUploaded : nat;
  store : jsstring
}.

(** Body of [for (const file of textFiles)]. *)
Definition uploadTextFile (storeName : jsstring) (textFilesUploaded : nat)
      (file : jsstring) : IO nat :=
  w ← getWorld;
  parsed ← readFileSync (wikiFiles (fs w)) file;
  match parsed with
  | None => throw (Error (str "SyntaxError: Unexpected token in JSON"))
  | Some json =>
      let content :=
        str "TITLE: " ++ interpolate (title json) ++ str " " ++ newline
        ++ str "SOURCE: " ++ interpolate (source json) ++ str " " ++ newline
        ++ newline ++ interpolate (Env.content json) ++ str " " in
      let synonyms := getSynonymsForContent synonymConfigs content in
      let metadata :=
        [ mkMetadata (str "type") (Some (str "wiki-text"));
          mkMetadata (str "wiki_title") (title json);
          mkMetadata (str "wiki_file") (Some file) ] in
      let metadata :=
        if bool_decide (0 < length synonyms) then
          let synonymChunks :=
            take MAX_SYNONYM_GROUPS (chunkSynonyms synonyms 255) in
          metadata ++
          imap (λ index chunk,
                  mkMetadata
                    (if bool_decide (index = 0) then str "synonyms"
                     else str "synonyms_" ++ decimal (index + 1))
                    (Some chunk))
               synonymChunks
        else metadata in
      uploadTextToRag storeName content file metadata;;
      mret (textFilesUploaded + 1)
  end.

Definition syncWikiToGeminiRag : IO (option SyncResult) :=
  w ← getWorld;
  if syncRunning w then
    log SyncAlreadyRunning;;
    mret None
  else
    modify (setSyncRunning true);;
    initializeGemini;;
    finally
      (tryCatch
         (w ← getWorld;
          match wikiFiles (fs w) with
          | None => throw (Error (str "Wiki export folder not found"))
          | Some entries =>
              let textFiles :=
                filter (λ f, JS.endsWith f (str ".json") = true) entries.*1 in
              if bool_decide (length textFiles = 0) then
                throw (Error (str "No wiki text files found. Aborting Gemini sync to protect store."))
              else
                clearImageHashCache;;
                storeName ← SetUpFileSearchStore;
                _ ← GenerateSynonyms.generateSynonyms svc;
                textFilesUploaded ← forOf textFiles (uploadTextFile storeName) 0;
                imagesProcessed ← processImagesToRag storeName;
                log SyncComplete;;
                mret (Some (mkSyncResult (str "IT_Wiki RAG store updated")
                              textFilesUploaded imagesProcessed.1 storeName))
          end)
         (λ err, log (SyncError err);; mret None))
      (setSyncRunning false).

(** *** Search *)

Definition extractText (parts : list (option jsstring)) : jsstring :=
  JS.join newline (default [] <$> parts).

(** The rounds of [while (retryCounter >= 0)], [retryCounter + 1] of them
    being left. *)
Fixpoint searchRounds (rounds : nat) (round : nat)
      (rewriteQuestion systemInstructionPrompt storeName : jsstring)
      : IO jsstring :=
  match rounds with
  | O => mret (str "No answer found.")
  | S rounds' =>
      log (SearchCall rewriteQuestion);;
      parts ← liftResult
        (searchGenerate svc rewriteQuestion systemInstructionPrompt storeName round);
      let answerText := extractText parts in
      if JS.truthy answerText && bool_decide (0 < length (JS.trim answerText))
      then mret (JS.orElse answerText (str "No answer found."))
      else searchRounds rounds' (round + 1)
             rewriteQuestion systemInstructionPrompt storeName
  end.

Definition searchWiki (query customPrompt : jsstring) : IO jsstring :=
  initializeGemini;;
  store ← findRagStoreByDisplayName (DATASET_NAME svc);
  match store with
  | Some store =>
      if JS.truthy (name store) then
        rewriteQuestion ←
          RewriteQuery.rewriteUserQuestionForFileSearch svc synonymEntries query;
        let systemInstructionPrompt :=
          if JS.truthy customPrompt then customPrompt
          else defaultSystemInstruction svc in
        searchRounds 2 0 rewriteQuestion systemInstructionPrompt (name store)
      else throw (Error (str "RAG store " ++ DATASET_NAME svc ++ str " not found"))
  | None => throw (Error (str "RAG store " ++ DATASET_NAME svc ++ str " not found"))
  end.

End WithServices.

(** The pages of the export folder, as the validation counts them. *)
Definition textFilesOf (w : Env.World) : option (list jsstring) :=
  (λ entries, filter (λ f, JS.endsWith f (str ".json") = true) entries.*1)
    <$> Env.wikiFiles (Env.fs w).

(** What holds of the world during an image pass that started with the
    trace [before], also when the pass stops on an error: the images are
    the directory [dir], the hash cache file holds the digest of [bytes]
    for [image], and [image] has not been analysed. *)
Definition Kept (svc : Env.Services) (image : jsstring) (bytes : list ascii)
    (dir : list (jsstring * list ascii)) (before : list Env.Event)
    (w : Env.World) : Prop :=
  Env.wikiImages (Env.fs w) = Some dir
  ∧ (∃ cache, Env.imageHashCache (Env.fs w) = Some cache
              ∧ cache !! image = Some (Env.md5 svc bytes))
  ∧ ∃ new, Env.trace w = before ++ new ∧ Env.Analysing image ∉ new.

(** What holds between two rounds of the loop of processImagesToRag,
    after the images [visited]. *)
Definition PassInv (svc : Env.Services) (image : jsstring)
    (bytes : list ascii) (dir : list (jsstring * list ascii))
    (before : list Env.Event) (visited : list jsstring) (st : ImageLoop)
    (w : Env.World) : Prop :=
  Kept svc image bytes dir before w
  ∧ hashCache st !! image = Some (Env.md5 svc bytes)
  ∧ (∀ x, x ∈ processedInThisRun st → x ∈ visited)
  ∧ (image ∈ visited →
     ∃ new, Env.trace w = before ++ new ∧ Env.HashMatchSkipped image ∈ new).

(** The hash cache file records the digest of [bytes] for [image]. *)
Definition Recorded (svc : Env.Services) (image : jsstring)
    (bytes : list ascii) (w : Env.World) : Prop :=
  ∃ cache, Env.imageHashCache (Env.fs w) = Some cache
           ∧ cache !! image = Some (Env.md5 svc bytes).

(** The digest that the hash cache file holds for [image], if any. *)
Definition recordOf (w : Env.World) (image : jsstring) : option jsstring :=
  Env.imageHashCache (Env.fs w) ≫= (.!! image).

(** The events of a run that took the world from [w] to [w']. *)
Definition eventsOf (w w' : Env.World) : list Env.Event :=
  drop (length (Env.trace w)) (Env.trace w').

(** What an image pass that started with the trace [before] has done for
    [image] so far: if it analysed the image, then the upload failed or
    the digest of its bytes is on record. *)
Definition Uploaded (svc : Env.Services) (image : jsstring)
    (bytes : list ascii) (dir : list (jsstring * list ascii))
    (before : list Env.Event) (w : Env.World) : Prop :=
  Env.wikiImages (Env.fs w) = Some dir
  ∧ ∃ new, Env.trace w = before ++ new
           ∧ (Env.Analysing image ∈ new →
              (∃ e, Env.ImageFailed image e ∈ new) ∨ Recorded svc image bytes w).

(** The same between two rounds of the loop. *)
Definition UploadInv (svc : Env.Services) (image : jsstring)
    (bytes : list ascii) (dir : list (jsstring * list ascii))
    (before : list Env.Event) (st : ImageLoop) (w : Env.World) : Prop :=
  Env.wikiImages (Env.fs w) = Some dir
  ∧ ∃ new, Env.trace w = before ++ new
           ∧ (Env.Analysing image ∈ new →
              image ∈ processedInThisRun st
              ∧ ((∃ e, Env.ImageFailed image e ∈ new)
                 ∨ (hashCache st !! image = Some (Env.md5 svc bytes)
                    ∧ Recorded svc image bytes w))).

(** Since the trace [before], no hash-match skip has been reported. *)
Definition NoSkip (before : list Env.Event) (w : Env.World) : Prop :=
  ∃ new, Env.trace w = before ++ new ∧ ∀ x, Env.HashMatchSkipped x ∉ new.

(** The same, and there is no hash cache file. *)
Definition Cleared (before : list Env.Event) (w : Env.World) : Prop :=
  Env.imageHashCache (Env.fs w) = None ∧ NoSkip before w.

(** Between two rounds of the loop of an image pass that started without
    a hash cache file: every image with a digest in [hashCache] has been
    processed in this run. *)
Definition FreshInv (before : list Env.Event) (st : ImageLoop)
    (w : Env.World) : Prop :=
  (∀ x, is_Some (hashCache st !! x) → x ∈ processedInThisRun st)
  ∧ NoSkip before w.

(** The buffer, as the chunk it will become. *)
Definition pending (current : jsstring) : list jsstring :=
  if JS.truthy current then [current] else [].

(** Invariant of the loop of chunkSynonyms after the terms [done]. *)
Definition ChunkInv (maxLen : nat) (st : list jsstring * jsstring)
    (done : list jsstring) : Prop :=
  let all := st.1 ++ pending st.2 in
  JS.join (str ", ") all = JS.join (str ", ") done ∧
  (all = [] ↔ done = []) ∧
  Forall (λ c, length c ≤ maxLen) st.1 ∧
  length st.2 ≤ maxLen.

End GeminiService.

(* ===================================================================== *)
(** ** A small deployment, for concrete runs *)
(* ===================================================================== *)

Module Scenario.
Import Env.

(** Services that all answer: the extraction call returns one entry, the
    search returns one text part, and the rewrite call fails. *)
Definition services : Services :=
  {| DATASET_NAME := str "IT_Wiki";
     md5 := λ bytes, str "md5:" ++ bytes;
     randomUUID := λ image, str "uuid-of-" ++ image;
     imageRefs := λ _, [];
     cleanWikiText := λ text, text;
     createStore := λ _, Ok (str "fileSearchStores/it-wiki");
     uploadToFileSearchStore := λ _ _, None;
     analyzeImage := λ _ _, str "{}";
     extractOnce := λ _ _,
       Some [Some (ExtractSynonyms.mkRaw (Some (str " VPN "))
                     (Some [str "Tunnel"; str "vpn"; str "IPsec "]))];
     rewriteGenerate := λ _, Throw (Error (str "503 Service Unavailable"));
     defaultSystemInstruction := str "You are an expert IT knowledge assistant";
     searchGenerate := λ _ _ _ _, Ok [Some (str "Use the tunnel.")] |}.

Definition vpnPage : WikiJson :=
  {| title := Some (str "VPN");
     path := None;
     source := Some (str "https://wiki/vpn");
     content := Some (str "How to open the VPN tunnel from home.") |}.

Definition files : FileSystem :=
  {| wikiFiles := Some [(str "vpn.json", Some vpnPage)];
     wikiImages := Some [(str "login.png", str "89504e47")];
     imageHashCache := None;
     synonymsJson := None |}.

(** Nothing has run yet and no store exists. *)
Definition fresh : World :=
  {| syncRunning := false; ai := false; fs := files; stores := []; trace := [] |}.

(** The same process while a sync run is in progress. *)
Definition busy : World :=
  {| syncRunning := true; ai := true; fs := files; stores := []; trace := [] |}.

(** A process whose export folder holds no page. *)
Definition emptyExport : World :=
  {| syncRunning := false;
     ai := false;
     fs := {| wikiFiles := Some [(str "README.md", None)];
              wikiImages := Some [(str "login.png", str "89504e47")];
              imageHashCache := Some {[ str "login.png" := str "md5:89504e47" ]};
              synonymsJson := None |};
     stores := [mkStore (str "fileSearchStores/old") (str "IT_Wiki") []];
     trace := [] |}.

Definition afterFirstSync : World :=
  (GeminiService.syncWikiToGeminiRag services [] fresh).2.

Definition afterSecondSync : World :=
  (GeminiService.syncWikiToGeminiRag services [] afterFirstSync).2.

End Scenario.

(* ===================================================================== *)
(** ** The rate limiter of the Slack endpoint *)
(* ===================================================================== *)

Module RateLimiter.

(** max 10 requests *)
Definition LIMIT : nat := 10.
(** per minute *)
Definition WINDOW_MS : Z := 60 * 1000.

(** [{ count: number; lastReset: number }] *)
Record Entry := mkEntry { count : nat; lastReset : Z }.

(** The fields of [req.body] that the middleware reads; [None] is a field
    that the body does not have. *)
Record Body := mkBody {
  user_id : option jsstring;
  response_url : option jsstring
}.

(** [next()], or the empty 200 response, sent after the message to
    [response_url] when the body has one. *)
Inductive Outcome :=
| Next
| TooManyRequests (notified : bool).

(** [userRateLimit] is a plain object: a lookup that finds no entry of
    the table itself finds what every object inherits under the names
    below, and that is a function or an object, not [undefined]. *)
Definition objectPrototypeKeys : list jsstring :=
  [ str "constructor"; str "hasOwnProperty"; str "isPrototypeOf";
    str "propertyIsEnumerable"; str "toLocaleString"; str "toString";
    str "valueOf"; str "__proto__"; str "__defineGetter__";
    str "__defineSetter__"; str "__lookupGetter__"; str "__lookupSetter__" ].

Definition inherited (userId : jsstring) : bool :=
  bool_decide (userId ∈ objectPrototypeKeys).

(** [req.body.user_id || "unknown"] *)
Definition userIdOf (body : Body) : jsstring :=
  JS.orElse (default [] (user_id body)) (str "unknown").

Definition rateLimiter (userRateLimit : gmap jsstring Entry) (body : Body)
    (now : Z) : Outcome * gmap jsstring Entry :=
  let userId := userIdOf body in
  match userRateLimit !! userId with
  | None =>
      if inherited userId then
        (* [entry] is the inherited value: its [lastReset] and [count] are
           [undefined], both comparisons are false, and [entry.count++]
           writes to the inherited value, not to the table *)
        (Next, userRateLimit)
      else
        (Next, <[userId := mkEntry 1 now]> userRateLimit)
  | Some entry =>
      (* Reset window *)
      if bool_decide (WINDOW_MS < now - lastReset entry)%Z then
        (Next, <[userId := mkEntry 1 now]> userRateLimit)
      (* Check limit *)
      else if bool_decide (LIMIT ≤ count entry) then
        (TooManyRequests (JS.truthy (default [] (response_url body))),
         userRateLimit)
      else
        (Next,
         <[userId := mkEntry (count entry + 1) (lastReset entry)]>
           userRateLimit)
  end.

(** The middleware on the requests of a process, in the order of their
    arrival, each with the time of its arrival. *)
Fixpoint serve (userRateLimit : gmap jsstring Entry)
    (requests : list (Body * Z)) : list Outcome :=
  match requests with
  | [] => []
  | (body, now) :: rest =>
      let '(outcome, userRateLimit) := rateLimiter userRateLimit body now in
      outcome :: serve userRateLimit rest
  end.

Definition passed (outcome : Outcome) : bool :=
  match outcome with Next => true | TooManyRequests _ => false end.

(** The requests of a user, and those of them that were passed on. *)
Definition requestsOf (userId : jsstring) (requests : list (Body * Z))
    : list (Body * Z) :=
  filter (λ r, userIdOf r.1 = userId) requests.

Definition passedOf (userId : jsstring) (requests : list (Body * Z))
    (outcomes : list Outcome) : list (Body * Z * Outcome) :=
  filter (λ p, userIdOf p.1.1 = userId ∧ passed p.2 = true)
    (zip requests outcomes).

End RateLimiter.

(* ===================================================================== *)
(** ** slackController.ts: the handler of the Slack command *)
(* ===================================================================== *)

Module SlackAnswer.
Import Env.

(** What the handler sends: the acknowledgement on the HTTP response,
    and the posts to [response_url]. *)
Inductive Message :=
| Acknowledge                  (* res.status(200).send, "Processing your question..." *)
| InChannel (text : jsstring)  (* response_type "in_channel", one mrkdwn section *)
| BotFailed.                   (* ephemeral, "Bot failed to answer the question." *)

Section WithServices.
Variable svc : Services.
Variable synonymEntries : list RewriteQuery.SynonymEntry.
(** The chain of regular-expression replacements of
    normalizeAzureDevOpsFormatting (parseGeminiResponse.ts). *)
Variable normalizeAzureDevOpsFormatting : jsstring → jsstring.
(** [axios.post(url, message)]: the error, if the post fails. *)
Variable axiosPost : jsstring → Message → option Thrown.

(** [`*Part ${num} of ${total}*\n\n${chunk}`] *)
Definition part (num total : nat) (chunk : jsstring) : jsstring :=
  str "*Part " ++ decimal num ++ str " of " ++ decimal total ++ str "*"
  ++ newline ++ newline ++ chunk.

(** The rounds of [for (let i = 0; i < chunks.length; i++)] from [i] on,
    [rest] being the chunks from [i] on: the outcome, and the messages
    posted. *)
Fixpoint postParts (responseUrl : jsstring) (total : nat) (i : nat)
    (rest : list jsstring) : Result unit * list Message :=
  match rest with
  | [] => (Ok tt, [])
  | chunk :: rest' =>
      let num := i + 1 in
      let message := InChannel (part num total chunk) in
      match axiosPost responseUrl message with
      | Some error => (Throw error, [])
      | None =>
          let '(r, sent) := postParts responseUrl total (i + 1) rest' in
          (r, message :: sent)
      end
  end.

Definition sendSlackAnswer (responseUrl answer : jsstring)
    : Result unit * list Message :=
  if bool_decide (length answer ≤ SlackController.SLACK_MAX_MESSAGE_SIZE) then
    (* Short answer: send normally *)
    match axiosPost responseUrl (InChannel answer) with
    | Some error => (Throw error, [])
    | None => (Ok tt, [InChannel answer])
    end
  else
    (* Long answer: split into chunks *)
    match SlackController.splitIntoSlackChunks (S (length answer)) answer
            SlackController.SLACK_MAX_MESSAGE_SIZE with
    | Some chunks => postParts responseUrl (length chunks) 0 chunks
    | None =>
        (* out of fuel in splitIntoSlackChunks: never the case *)
        (Throw (Error (str "unreachable")), [])
    end.

(** [parseGeminiResponse(raw).answer], for the [raw] of searchWiki. *)
Definition parseGeminiResponse (answer : jsstring) : jsstring :=
  normalizeAzureDevOpsFormatting
    (JS.orElse (JS.trim answer) (str "No answer found.")).

(** [handleSlackQuestion(req, res)] for a body with [text] and
    [response_url]: the outcome, the messages sent, and the world after
    the search.  What it writes to the console is left out. *)
Definition handleSlackQuestion (text responseUrl : jsstring) (w : World)
    : Result unit * list Message * World :=
  let '(searched, w') := GeminiService.searchWiki svc synonymEntries text [] w in
  let '(outcome, sent) :=
    match searched with
    | Ok raw => sendSlackAnswer responseUrl (parseGeminiResponse raw)
    | Throw error => (Throw error, [])
    end in
  match outcome with
  | Ok _ => (Ok tt, Acknowledge :: sent, w')
  | Throw _ =>
      match axiosPost responseUrl BotFailed with
      | None => (Ok tt, Acknowledge :: sent ++ [BotFailed], w')
      | Some error => (Throw error, Acknowledge :: sent, w')
      end
  end.

End WithServices.

End SlackAnswer.

(* ===================================================================== *)
(** ** wikiService.ts: the pages of the wiki *)
(* ===================================================================== *)

Module WikiService.
Import Env.

(** A node of the page tree that the wiki answers with.  A field is
    [None] when the node does not have it; [subPages] is [None] when it
    is not an array. *)
Inductive Node :=
| mkNode (path gitItemPath remoteUrl : option jsstring)
         (subPages : option (list Node)).

Definition path (node : Node) : option jsstring :=
  match node with mkNode path _ _ _ => path end.

Definition subPages (node : Node) : option (list Node) :=
  match node with mkNode _ _ _ subPages => subPages end.

(** An element of [pages]. *)
Record Page := mkPage {
  pagePath : jsstring;
  pageGitItemPath : option jsstring;
  pageContent : jsstring;
  pageRemoteUrl : option jsstring
}.

(** [res.data] of the request for the page tree: its [value] when that
    is an array, and the data read as a node. *)
Record PagesData := mkPagesData {
  value : option (list Node);
  self : Node
}.

Section WithWiki.
(** [azureWikiClient.get] for the tree of pages: [res.data], if any. *)
Variable getPages : Result (option PagesData).
(** [azureWikiClient.get] for one page: [res.data?.content], if any. *)
Variable getPage : jsstring → Result (option jsstring).

Definition getContentByPath (pagePath : jsstring) : Result jsstring :=
  match getPage pagePath with
  | Ok content => Ok (default [] content)   (* [content || ""] *)
  | Throw e => Throw e
  end.

(** [node.path && node.path !== "/"] *)
Definition hasPage (node : Node) : bool :=
  match path node with
  | Some p => JS.truthy p && negb (bool_decide (p = str "/"))
  | None => false
  end.

(** [traverse(node)], with the array [pages] passed along. *)
Fixpoint traverse (node : Node) (pages : list Page) : Result (list Page) :=
  match node with
  | mkNode path gitItemPath remoteUrl subPages =>
      let visited :=
        if hasPage node then
          match getContentByPath (default [] path) with
          | Ok content =>
              Ok (pages ++ [mkPage (default [] path) gitItemPath content
                              remoteUrl])
          | Throw e => Throw e
          end
        else Ok pages in
      match visited, subPages with
      | Ok pages, Some children =>
          (fix each (children : list Node) (pages : list Page) :=
             match children with
             | [] => Ok pages
             | child :: rest =>
                 match traverse child pages with
                 | Ok pages => each rest pages
                 | Throw e => Throw e
                 end
             end) children pages
      | Ok pages, None => Ok pages
      | Throw e, _ => Throw e
      end
  end.

(** [for (const root of roots) await traverse(root)] *)
Fixpoint traverseAll (roots : list Node) (pages : list Page)
    : Result (list Page) :=
  match roots with
  | [] => Ok pages
  | root :: rest =>
      match traverse root pages with
      | Ok pages => traverseAll rest pages
      | Throw e => Throw e
      end
  end.

Definition getAllWikiPagesWithContent : Result (list Page) :=
  match getPages with
  | Throw e => Throw e
  | Ok data =>
      match data ≫= value with
      | Some roots => traverseAll roots []
      | None =>
          match data with
          | Some d =>
              if JS.truthy (default [] (path (self d)))
              then traverseAll [self d] []
              else Throw (Error (str "Azure DevOps returned unknown page structure"))
          | None =>
              Throw (Error (str "Azure DevOps returned unknown page structure"))
          end
      end
  end.

(** [all.slice(0, limit)] for an integer [limit]: a negative one counts
    from the end. *)
Definition getLimitedWikiPages (limit : Z) : Result (list Page) :=
  match getAllWikiPagesWithContent with
  | Ok all =>
      Ok (if bool_decide (0 ≤ limit)%Z then take (Z.to_nat limit) all
          else take (length all - Z.to_nat (- limit)) all)
  | Throw e => Throw e
  end.

(** The nodes of a tree, a node before its sub-pages, these in their
    order. *)
Fixpoint preorder (node : Node) : list Node :=
  node ::
  match subPages node with
  | Some children =>
      (fix each (children : list Node) : list Node :=
         match children with
         | [] => []
         | child :: rest => preorder child ++ each rest
         end) children
  | None => []
  end.

(** The pages of the nodes [nodes], fetched one after the other, up to
    the first fetch that fails. *)
Fixpoint fetchEach (nodes : list Node) (pages : list Page)
    : Result (list Page) :=
  match nodes with
  | [] => Ok pages
  | mkNode path gitItemPath remoteUrl _ :: rest =>
      match getContentByPath (default [] path) with
      | Ok content =>
          fetchEach rest
            (pages ++ [mkPage (default [] path) gitItemPath content remoteUrl])
      | Throw e => Throw e
      end
  end.

End WithWiki.

(** Induction on a tree of pages, the sub-pages of a node included. *)
Section Induction.
Variable P : Node → Prop.
Hypothesis Hnode :
  ∀ path gitItemPath remoteUrl subPages,
    match subPages with
    | Some children => Forall P children
    | None => True
    end →
    P (mkNode path gitItemPath remoteUrl subPages).

Fixpoint Node_nested_ind (node : Node) : P node :=
  match node with
  | mkNode path gitItemPath remoteUrl subPages =>
      Hnode path gitItemPath remoteUrl subPages
        match subPages
              return match subPages with
                     | Some children => Forall P children
                     | None => True
                     end
        with
        | Some children =>
            (fix each (l : list Node) : Forall P l :=
               match l with
               | [] => Forall_nil_2 P
               | child :: rest =>
                   Forall_cons_2 P child rest (Node_nested_ind child) (each rest)
               end) children
        | None => I
        end
  end.
End Induction.

End WikiService.

(* ===================================================================== *)
(** ** Predicates on runs *)
(* ===================================================================== *)

Module SyncSpec.
Import Env.

(** Since the trace [before], the events that satisfy [Q] have all
    happened. *)
Definition Grown (before : list Event) (Q : Event → Prop) (w : World)
    : Prop :=
  ∃ new, trace w = before ++ new ∧ ∀ ev, Q ev → ev ∈ new.

End SyncSpec.

Module StoreSpec.
Import Env.

(** The store that a lookup by the display name of the dataset finds is
    the store [storeName], with the documents [docs]. *)
Definition Holds (svc : Services) (storeName : jsstring)
    (docs : list Document) (w : World) : Prop :=
  head (filter (λ s, storeDisplayName s = DATASET_NAME svc) (stores w))
  = Some (mkStore storeName (DATASET_NAME svc) docs).

(** At most one store carries the display name of the dataset, and that
    store has a name. *)
Definition SingleStore (svc : Services) (w : World) : Prop :=
  let found :=
    filter (λ s, storeDisplayName s = DATASET_NAME svc) (stores w) in
  length found ≤ 1 ∧ Forall (λ s, name s ≠ []) found.

End StoreSpec.

Module CacheSpec.
Import Env.

(** During an image pass that started with the trace [before] and with
    the digest [h] on file for [image]: the hash cache file is [cache],
    and it still has a digest for [image], which is [h] unless the pass
    has analysed the image. *)
Definition Remembers (image h : jsstring) (before : list Event)
    (cache : gmap jsstring jsstring) (w : World) : Prop :=
  imageHashCache (fs w) = Some cache
  ∧ ∃ new h', trace w = before ++ new ∧ cache !! image = Some h'
              ∧ (h' = h ∨ Analysing image ∈ new).

End CacheSpec.

(* ===================================================================== *)
(** * Properties *)
(* ===================================================================== *)

(** ** The model on concrete inputs *)

Module Examples.
Import Env.

Example lastIndexOf_period :
  JS.lastIndexOf (str "a.b.c") (str ".") = 3%Z
  ∧ JS.lastIndexOf (str "abc") (str ".") = (-1)%Z.
Proof. by vm_compute. Qed.

Example trim_then_lower :
  JS.toLowerCase (JS.trim (str "  Virtual Private Network
")) = str "virtual private network".
Proof. reflexivity. Qed.

(** An answer of 6,000 characters with the limit of 2800: three chunks,
    none above the limit, 6,000 characters in all. *)
Example split_6000 :
  (λ parts : list jsstring, length <$> parts)
    <$> SlackController.splitIntoSlackChunks 6001 (replicate 6000 "a"%char)
          SlackController.SLACK_MAX_MESSAGE_SIZE
  = Some [2800; 2800; 400].
Proof. by vm_compute. Qed.

(** A period beyond position 2000 of the slice moves the cut to the end
    of the sentence. *)
Example split_at_sentence_end :
  (λ parts : list jsstring, length <$> parts)
    <$> SlackController.splitIntoSlackChunks 3502
          (replicate 2500 "a"%char ++ str "." ++ replicate 1000 "b"%char) 2800
  = Some [2501; 1000].
Proof. by vm_compute. Qed.

Example chunk_terms :
  GeminiService.chunkSynonyms
    [str " vpn "; str "tunnel"; str ""; str "virtual private network"] 12
  = [str "vpn, tunnel"; str "virtual priv"].
Proof. reflexivity. Qed.

Example synonyms_for_content :
  GeminiService.getSynonymsForContent
    [GeminiService.mkConfig (str "VPN") (Some [str "Tunnel"; str "vpn"]);
     GeminiService.mkConfig (str "dns") None]
    (str "Open the tunnel") = [str "vpn"; str "tunnel"].
Proof. reflexivity. Qed.

Example merge_entries :
  ExtractSynonyms.mergeResults
    [Some (ExtractSynonyms.mkRaw (Some (str " VPN "))
             (Some [str "Tunnel"; str "vpn"; str " "]));
     None;
     Some (ExtractSynonyms.mkRaw (Some (str "dns")) None);
     Some (ExtractSynonyms.mkRaw (Some (str "vpn"))
             (Some [str "tunnel"; str "ipsec"]))]
  = [ExtractSynonyms.mkEntry (str "vpn") [str "tunnel"; str "ipsec"]].
Proof. reflexivity. Qed.

(** One document of 50,000 characters: three units, doc#1 to doc#3, and
    three extraction calls. *)
Example split_doc_50000 :
  let doc := ExtractSynonyms.mkDoc (str "doc") (replicate 50000 "a"%char) in
  (λ units : list ExtractSynonyms.Doc,
     (λ u, (ExtractSynonyms.name u, N.of_nat (length (ExtractSynonyms.text u))))
       <$> units)
    <$> ExtractSynonyms.splitDocIntoChunks doc
  = Some [(str "doc#1", 20000%N); (str "doc#2", 20000%N); (str "doc#3", 10000%N)]
  ∧ (λ st : ExtractSynonyms.BatchState, length <$> ExtractSynonyms.calls st)
      <$> ExtractSynonyms.runBatches (λ _, []) [doc]
    = Some [1; 1; 1].
Proof. vm_compute. by split. Qed.

(** A question that mentions a synonym selects the entry of the term. *)
Example relevant_by_synonym :
  let vpn := RewriteQuery.mkEntry (str "vpn")
               (Some [str "virtual private network"; str "tunnel"]) in
  RewriteQuery.findRelevantSynonyms [vpn; RewriteQuery.mkEntry (str "dns") None]
    (str "how do I set up a virtual private network") = [vpn]
  ∧ RewriteQuery.buildSynonymContext [vpn]
    = Ok (str "- vpn: virtual private network, tunnel").
Proof. by vm_compute. Qed.

(** A search in the small deployment, with a rewrite call that answers. *)
Example search_answers :
  let svc :=
    mkServices (DATASET_NAME Scenario.services) (md5 Scenario.services)
      (randomUUID Scenario.services) (imageRefs Scenario.services)
      (cleanWikiText Scenario.services) (createStore Scenario.services)
      (uploadToFileSearchStore Scenario.services)
      (analyzeImage Scenario.services) (extractOnce Scenario.services)
      (λ _, Ok (str " Search document title that contains term vpn "))
      (defaultSystemInstruction Scenario.services)
      (searchGenerate Scenario.services) in
  fst (GeminiService.searchWiki svc [] (str "vpn?") [] Scenario.afterFirstSync)
  = Ok (str "Use the tunnel.").
Proof. by vm_compute. Qed.

End Examples.

(** ** Facts about the string primitives *)

Module JSFacts.
Import JS.

Lemma trimStart_split s :
  ∃ ws, whitespaceOnly ws ∧ s = ws ++ trimStart s.
Proof.
  induction s as [|c s [ws [Hws Heq]]]; simpl.
  - exists []. split; [constructor | done].
  - destruct (isWhiteSpace c) eqn:Hc.
    + exists (c :: ws). split; [by constructor | by rewrite /= -Heq].
    + exists []. split; [constructor | done].
Qed.

Lemma trimEnd_split s :
  ∃ ws, whitespaceOnly ws ∧ s = trimEnd s ++ ws.
Proof.
  destruct (trimStart_split (reverse s)) as [ws [Hws Heq]].
  exists (reverse ws). split.
  - rewrite /whitespaceOnly Forall_reverse //.
  - rewrite /trimEnd -reverse_app -Heq reverse_involutive //.
Qed.

Lemma trim_split s :
  ∃ lw tw, whitespaceOnly lw ∧ whitespaceOnly tw ∧ s = lw ++ trim s ++ tw.
Proof.
  destruct (trimStart_split s) as [lw [Hlw Hs]].
  destruct (trimEnd_split (trimStart s)) as [tw [Htw Ht]].
  exists lw, tw. split_and!; [done..|].
  rewrite /trim -Ht //.
Qed.

Lemma trim_length s : length (trim s) ≤ length s.
Proof.
  destruct (trim_split s) as (lw & tw & _ & _ & Heq).
  rewrite {2}Heq !length_app. lia.
Qed.

Lemma slice_0 s n : slice s 0 n = take n s.
Proof. rewrite /slice Nat.sub_0_r //. Qed.

End JSFacts.

(** ** Response Chunker *)

Module SlackControllerFacts.
Import JS JSFacts SlackController.

Lemma splitLoop_unfold fuel maxSize parts remaining :
  splitLoop (S fuel) maxSize parts remaining =
  if bool_decide (maxSize < length remaining) then
    splitLoop fuel maxSize (parts ++ [cut maxSize remaining])
      (trim (sliceFrom remaining (length (cut maxSize remaining))))
  else Some (parts, remaining).
Proof. reflexivity. Qed.

Lemma cut_prefix maxSize remaining :
  remaining = cut maxSize remaining
              ++ sliceFrom remaining (length (cut maxSize remaining)).
Proof.
  have Hpre: ∀ k, remaining
      = take k remaining ++ drop (k `min` length remaining) remaining.
  { move=> k. destruct (decide (k ≤ length remaining)) as [Hk | Hk].
    - rewrite Nat.min_l // take_drop //.
    - rewrite Nat.min_r; first lia.
      rewrite take_ge; first lia. rewrite drop_all app_nil_r //. }
  rewrite /cut /sliceFrom !slice_0.
  case: (_ && _).
  - rewrite take_take length_take. apply Hpre.
  - rewrite length_take. apply Hpre.
Qed.

Lemma cut_length maxSize remaining :
  0 < maxSize → maxSize < length remaining →
  0 < length (cut maxSize remaining).
Proof.
  move=> Hpos Hlen. rewrite /cut !slice_0.
  case Hc: (_ && _).
  - move: Hc => /andb_prop [_ /bool_decide_eq_true Hp].
    rewrite take_take length_take. lia.
  - rewrite length_take. lia.
Qed.

Lemma weave_snoc parts gaps c g :
  length gaps = length parts →
  weave (parts ++ [c]) (gaps ++ [g]) = weave parts gaps ++ c ++ g.
Proof.
  elim: parts gaps => [|p parts IH] [|g0 gaps] //= Hlen.
  - by rewrite app_nil_r.
  - rewrite IH; first lia. by rewrite -!app_assoc.
Qed.

Lemma SplitInv_step text maxSize parts remaining :
  SplitInv text parts remaining →
  SplitInv text (parts ++ [cut maxSize remaining])
    (trim (sliceFrom remaining (length (cut maxSize remaining)))).
Proof.
  intros (gaps & tail & Hlen & Hgaps & Htail & _ & Htext).
  set c := cut maxSize remaining.
  destruct (trim_split (sliceFrom remaining (length c)))
    as (lw & tw & Hlw & Htw & Hrest).
  exists (gaps ++ [lw]), (tw ++ tail). split_and!.
  - rewrite !length_app /=. lia.
  - apply Forall_app. split; [done | by constructor].
  - by apply Forall_app.
  - by move=> /app_eq_nil [_ ?].
  - rewrite weave_snoc // Htext {1}(cut_prefix maxSize remaining) -/c.
    rewrite {1}Hrest -!app_assoc //.
Qed.

Lemma splitLoop_total text maxSize :
  0 < maxSize →
  ∀ fuel parts remaining,
    length remaining < fuel →
    SplitInv text parts remaining →
    ∃ parts' remaining',
      splitLoop fuel maxSize parts remaining = Some (parts', remaining') ∧
      SplitInv text parts' remaining'.
Proof.
  move=> Hpos. elim=> [|fuel IH] parts remaining Hfuel Hinv; first lia.
  rewrite splitLoop_unfold. case_bool_decide as Hlen; last by eauto.
  apply IH; last by apply SplitInv_step.
  have Hc := cut_length maxSize remaining Hpos Hlen.
  have Ht := trim_length (sliceFrom remaining (length (cut maxSize remaining))).
  rewrite /sliceFrom in Ht |- *. rewrite length_drop in Ht. lia.
Qed.

(** More fuel does not change a result. *)
Lemma splitLoop_mono maxSize fuel fuel' parts remaining r :
  splitLoop fuel maxSize parts remaining = Some r → fuel ≤ fuel' →
  splitLoop fuel' maxSize parts remaining = Some r.
Proof.
  elim: fuel fuel' parts remaining => [|fuel IH] [|fuel'] parts remaining //=;
    first lia.
  case_bool_decide; last done.
  move=> Hres Hle. apply IH; [done | lia].
Qed.

Lemma SplitInv_finish text parts remaining :
  SplitInv text parts remaining →
  let out := if bool_decide (0 < length remaining)
             then parts ++ [remaining] else parts in
  ∃ gaps, length gaps = length out ∧ Forall whitespaceOnly gaps ∧
          weave out gaps = text.
Proof.
  intros (gaps & tail & Hlen & Hgaps & Htail & Hnil & Htext); simpl.
  case_bool_decide as Hrem.
  - exists (gaps ++ [tail]). split_and!.
    + rewrite !length_app /=. lia.
    + apply Forall_app. split; [done | by constructor].
    + rewrite weave_snoc // Htext //.
  - have Hempty: remaining = [] by destruct remaining; [done | simpl in Hrem; lia].
    rewrite Hempty /= in Htext.
    destruct parts as [|p ps _] using rev_ind.
    + exists []. rewrite (Hnil eq_refl) in Htext.
      by destruct gaps.
    + rewrite length_app /= in Hlen.
      destruct gaps as [|g gs _] using rev_ind; first (simpl in Hlen; lia).
      rewrite length_app /= in Hlen.
      apply Forall_app in Hgaps as [Hgs Hg1]. inversion_clear Hg1 as [|?? Hg2 _].
      exists (gs ++ [g ++ tail]). split_and!.
      * rewrite !length_app /=. lia.
      * apply Forall_app. split; [done|]. constructor; [by apply Forall_app | done].
      * rewrite Htext !weave_snoc; [lia..|]. by rewrite -!app_assoc.
Qed.

(** C1, as stated (joining the chunks gives back the text, for every text
    and every maxSize), does not hold: the remainder is trimmed after each
    cut, so the blank between "abc" and "def" is lost. *)
Lemma splitIntoSlackChunks_drops_whitespace :
  splitIntoSlackChunks 8 (str "abc def") 3 = Some [str "abc"; str "def"]
  ∧ concat [str "abc"; str "def"] ≠ str "abc def".
Proof. split; [reflexivity | discriminate]. Qed.

(** With [maxSize = 0] the loop never ends on a text that does not trim
    to nothing: no amount of fuel gives a result. *)
Lemma splitIntoSlackChunks_zero_diverges fuel :
  splitIntoSlackChunks fuel (str "a") 0 = None.
Proof.
  rewrite /splitIntoSlackChunks.
  have ->: ∀ parts, splitLoop fuel 0 parts (str "a") = None; last done.
  elim: fuel => [|fuel IH] parts //.
  rewrite splitLoop_unfold /=. apply IH.
Qed.

(** C1, amended: for every text and every maxSize of at least 1,
    splitIntoSlackChunks returns (any fuel above the length of the text
    is enough), and the text is recovered from the chunks, in order, by
    putting back after each chunk a run of whitespace (possibly empty):
    the whitespace that [trim] removed at that cut. *)
Theorem splitIntoSlackChunks_reassembles text maxSize :
  0 < maxSize →
  ∃ parts gaps,
    (∀ fuel, length text < fuel →
             splitIntoSlackChunks fuel text maxSize = Some parts) ∧
    length gaps = length parts ∧
    Forall whitespaceOnly gaps ∧
    weave parts gaps = text.
Proof.
  move=> Hpos.
  have Hinit: SplitInv text [] text.
  { exists [], []. split_and!; [done | constructor | constructor | done |].
    by rewrite /= app_nil_r. }
  destruct (splitLoop_total text maxSize Hpos (S (length text)) [] text)
    as (parts & remaining & Hrun & Hinv); [lia | done |].
  destruct (SplitInv_finish _ _ _ Hinv) as (gaps & Hlen & Hws & Hweave).
  eexists _, gaps. split_and!; [| exact Hlen | exact Hws | exact Hweave].
  move=> fuel Hfuel. rewrite /splitIntoSlackChunks.
  by rewrite (splitLoop_mono _ _ fuel _ _ _ Hrun); first lia.
Qed.

Lemma splitIntoSlackChunks_reassembles_witness :
  0 < 3 ∧
  ∃ parts gaps,
    (∀ fuel, length (str "abc def") < fuel →
             splitIntoSlackChunks fuel (str "abc def") 3 = Some parts) ∧
    length gaps = length parts ∧
    Forall whitespaceOnly gaps ∧
    weave parts gaps = str "abc def".
Proof.
  split; [lia | apply (splitIntoSlackChunks_reassembles (str "abc def") 3); lia].
Defined.

End SlackControllerFacts.

(** ** Metadata Chunker *)

Module ChunkSynonymsFacts.
Import JS JSFacts GeminiService.

Lemma truthy_spec s : truthy s = true ↔ s ≠ [].
Proof. by destruct s. Qed.

Lemma join_snoc sep xs a :
  join sep (xs ++ [a]) = if xs is [] then a else join sep xs ++ sep ++ a.
Proof.
  elim: xs => [|x xs IH] //.
  rewrite /= -/(join sep (xs ++ [a])) IH.
  destruct xs as [|y xs]; first done.
  by rewrite /= -!app_assoc.
Qed.

Lemma join_snoc_app sep xs a b :
  join sep (xs ++ [a ++ b]) = join sep (xs ++ [a]) ++ b.
Proof. rewrite !join_snoc. destruct xs; by rewrite -?app_assoc. Qed.

Lemma join_snoc_congr sep all done x :
  join sep all = join sep done → (all = [] ↔ done = []) →
  join sep (all ++ [x]) = join sep (done ++ [x]).
Proof.
  move=> Hj [Hn1 Hn2]. rewrite !join_snoc.
  destruct all as [|a all], done as [|d done].
  - done.
  - discriminate (Hn1 eq_refl).
  - discriminate (Hn2 eq_refl).
  - by rewrite Hj.
Qed.

Lemma ChunkInv_step maxLen st done syn :
  ChunkInv maxLen st done →
  ChunkInv maxLen (chunkStep maxLen st syn)
    (done ++ (if truthy (trim syn) then [truncated maxLen (trim syn)] else [])).
Proof.
  destruct st as [chunks current].
  intros (Hjoin & Hnil & Hchunks & Hcur). rewrite /chunkStep.
  set trimmed := trim syn.
  destruct (truthy trimmed) eqn:Ht; last by rewrite /= app_nil_r.
  have Hlt: 0 < length trimmed by destruct trimmed; [done | simpl; lia].
  rewrite /= /truncated. simpl in Hjoin, Hnil, Hchunks, Hcur.
  have Hne: ∀ (all : list jsstring) x y, all ++ [x] = [] ↔ done ++ [y] = [].
  { move=> all x y. split; by move=> /app_eq_nil [_ ?]. }
  have Hsl: length (slice trimmed 0 maxLen) ≤ maxLen.
  { rewrite slice_0 length_take. lia. }
  destruct (truthy current) eqn:Hc; rewrite /pending Hc in Hjoin Hnil.
  - (* a buffer in progress *)
    case_bool_decide as Hover; [case_bool_decide as Hlong|].
    + rewrite /ChunkInv /pending /= app_nil_r.
      split_and!; [by apply join_snoc_congr | apply Hne | | lia].
      rewrite !Forall_app. split_and!; [done | by constructor | by constructor].
    + rewrite /ChunkInv /pending Ht /=.
      split_and!; [by apply join_snoc_congr | apply Hne | | lia].
      apply Forall_app. split; [done | by constructor].
    + rewrite !length_app /= in Hover.
      rewrite bool_decide_false; first lia.
      have Hc': truthy (current ++ [","%char; " "%char] ++ trimmed) = true
        by destruct current.
      rewrite /ChunkInv /pending Hc' /=.
      split_and!; [| apply Hne | done | rewrite !length_app /=; lia].
      rewrite (join_snoc_app _ chunks current) (join_snoc _ done) Hjoin.
      destruct done as [|d done']; last done.
      destruct Hnil as [_ Hnil]. by move: (Hnil eq_refl) => /app_eq_nil [_ ?].
  - (* an empty buffer *)
    have Hcur0: current = [] by destruct current.
    rewrite Hcur0 /= app_nil_r in Hjoin, Hnil |- *.
    case_bool_decide as Hover.
    + rewrite /ChunkInv /pending /= app_nil_r.
      split_and!; [by apply join_snoc_congr | apply Hne | | lia].
      apply Forall_app. split; [done | by constructor].
    + rewrite /ChunkInv /pending Ht /=.
      split_and!; [by apply join_snoc_congr | apply Hne | done | lia].
Qed.

Lemma ChunkInv_foldl maxLen terms st done :
  ChunkInv maxLen st done →
  ChunkInv maxLen (foldl (chunkStep maxLen) st terms)
    (done ++ (truncated maxLen <$> filter (λ t, t ≠ []) (trim <$> terms))).
Proof.
  elim: terms st done => [|syn terms IH] st done Hinv.
  - by rewrite /= app_nil_r.
  - move: (IH _ _ (ChunkInv_step _ _ _ syn Hinv)).
    rewrite fmap_cons filter_cons.
    destruct (trim syn) as [|c t] eqn:Htrim; case_decide; try done.
    + by rewrite /= app_nil_r.
    + by rewrite fmap_cons -app_assoc.
Qed.

Lemma chunkSynonyms_spec terms maxLen :
  join (str ", ") (chunkSynonyms terms maxLen)
  = join (str ", ")
      (truncated maxLen <$> filter (λ t, t ≠ []) (trim <$> terms))
  ∧ Forall (λ c, length c ≤ maxLen) (chunkSynonyms terms maxLen).
Proof.
  have Hinit: ChunkInv maxLen ([], []) [].
  { rewrite /ChunkInv /=. split_and!; [done.. | constructor | lia]. }
  move: (ChunkInv_foldl maxLen terms _ _ Hinit).
  rewrite /chunkSynonyms /ChunkInv /=.
  destruct (foldl _ _ _) as [chunks current].
  rewrite /pending /=. intros (Hjoin & _ & Hchunks & Hcur).
  destruct (truthy current); rewrite ?app_nil_r in Hjoin.
  - split; [done|]. apply Forall_app. split; [done | by constructor].
  - done.
Qed.

(** C6: for every sequence of terms whose trimmed forms are not empty,
    the chunks of chunkSynonyms joined with ", " are the trimmed terms
    joined with ", ", where a term longer than maxLen appears cut to its
    first maxLen characters; and no chunk is longer than maxLen. *)
Theorem chunkSynonyms_roundtrip_bound terms maxLen :
  Forall (λ t, trim t ≠ []) terms →
  join (str ", ") (chunkSynonyms terms maxLen)
  = join (str ", ") ((λ t, truncated maxLen (trim t)) <$> terms)
  ∧ Forall (λ c, length c ≤ maxLen) (chunkSynonyms terms maxLen).
Proof.
  move=> Hne. destruct (chunkSynonyms_spec terms maxLen) as [Hjoin Hlen].
  split; last done. rewrite Hjoin. f_equal.
  elim: terms Hne {Hjoin Hlen} => [|t terms IH] Hne //=.
  inversion_clear Hne as [|?? Ht Hrest].
  rewrite filter_cons decide_True // fmap_cons IH //.
Qed.

Lemma chunkSynonyms_roundtrip_bound_witness :
  let terms := [str " vpn "; str "tunnel"; str "virtual private network"] in
  Forall (λ t, trim t ≠ []) terms ∧
  join (str ", ") (chunkSynonyms terms 12)
  = join (str ", ") ((λ t, truncated 12 (trim t)) <$> terms)
  ∧ Forall (λ c, length c ≤ 12) (chunkSynonyms terms 12).
Proof.
  have Hne: Forall (λ t, trim t ≠ [])
              [str " vpn "; str "tunnel"; str "virtual private network"]
    by repeat constructor.
  split; [exact Hne | exact (chunkSynonyms_roundtrip_bound _ 12 Hne)].
Defined.

End ChunkSynonymsFacts.

(** ** Synonym lookup for a document *)

Module SynonymLookupFacts.
Import JS JSFacts GeminiService.

Lemma startsWith_spec s sub :
  startsWith s sub = true ↔ ∃ post, s = sub ++ post.
Proof.
  elim: sub s => [|a sub IH] [|b s] /=.
  - split; [by exists [] | done].
  - split; [by exists (b :: s) | done].
  - split; [done | by move=> [post ?]].
  - rewrite andb_true_iff bool_decide_eq_true IH. split.
    + move=> [-> [post ->]]. by exists post.
    + move=> [post [-> ->]]. split; [done | by exists post].
Qed.

Lemma includes_nil sub : includes [] sub = startsWith [] sub || false.
Proof. reflexivity. Qed.

Lemma includes_cons b s sub :
  includes (b :: s) sub = startsWith (b :: s) sub || includes s sub.
Proof. reflexivity. Qed.

(** [includes] is the substring test. *)
Lemma includes_spec s sub :
  includes s sub = true ↔ ∃ pre post, s = pre ++ sub ++ post.
Proof.
  elim: s => [|b s IH].
  - rewrite includes_nil orb_false_r startsWith_spec. split.
    + move=> [post ->]. by exists [], post.
    + move=> [pre [post Heq]]. symmetry in Heq.
      apply app_eq_nil in Heq as [-> Heq]. by exists post.
  - rewrite includes_cons orb_true_iff startsWith_spec IH. split.
    + move=> [[post ->] | [pre [post ->]]].
      * by exists [], post.
      * by exists (b :: pre), post.
    + move=> [[|c pre] [post Heq]].
      * left. by exists post.
      * right. move: Heq => [_ ->]. by exists pre, post.
Qed.

Lemma elem_of_setAdd found x y :
  x ∈ setAdd found y ↔ x ∈ found ∨ x = y.
Proof.
  rewrite /setAdd. case_bool_decide.
  - split; [by left | by move=> [? | ->]].
  - rewrite elem_of_app list_elem_of_singleton //.
Qed.

Lemma NoDup_setAdd found y : NoDup found → NoDup (setAdd found y).
Proof.
  rewrite /setAdd => Hnd. case_bool_decide as Hin; first done.
  apply NoDup_app. split_and!; [done | | apply NoDup_singleton].
  move=> x Hx /list_elem_of_singleton Heq. by subst.
Qed.

Lemma elem_of_addAll (f : jsstring → jsstring) found xs x :
  x ∈ foldl (λ acc s, setAdd acc (f s)) found xs
  ↔ x ∈ found ∨ x ∈ f <$> xs.
Proof.
  elim: xs found => [|y xs IH] found /=.
  - rewrite elem_of_nil. tauto.
  - rewrite IH elem_of_setAdd elem_of_cons. tauto.
Qed.

Lemma NoDup_addAll (f : jsstring → jsstring) found xs :
  NoDup found → NoDup (foldl (λ acc s, setAdd acc (f s)) found xs).
Proof.
  elim: xs found => [|y xs IH] found Hnd //=.
  by apply IH, NoDup_setAdd.
Qed.

Local Abbreviation hit lower entry :=
  (termInText lower entry || synonymInText lower entry).

Lemma hit_mentions content entry :
  hit (toLowerCase content) entry = true ↔ mentions content entry.
Proof.
  rewrite /mentions /termInText /synonymInText orb_true_iff.
  apply or_iff_compat_l. destruct (synonyms entry) as [syns|]; last first.
  { split; [done | by move=> [? [? [? _]]]]. }
  split.
  - elim: syns => [|s syns IH] //=. rewrite orb_true_iff. move=> [Hs | Hrest].
    + exists (s :: syns), s. split_and!; [done | left | done].
    + destruct (IH Hrest) as (syns' & s' & [= <-] & Hin & Hinc).
      exists (s :: syns), s'. split_and!; [done | by right | done].
  - move=> [syns' [s [[= <-] [Hin Hinc]]]].
    elim: syns Hin => [|s0 syns IH] Hin /=; first by inversion Hin.
    rewrite orb_true_iff. apply elem_of_cons in Hin as [<- | Hin]; [by left|].
    right. by apply IH.
Qed.

Lemma elem_of_lookupStep lower found entry x :
  x ∈ lookupStep lower found entry
  ↔ x ∈ found ∨ (hit lower entry = true ∧ x ∈ cluster entry).
Proof.
  rewrite /lookupStep /cluster. destruct (hit lower entry); last first.
  { split; [by left | by move=> [? | [? _]]]. }
  destruct (synonyms entry) as [syns|] => /=.
  - rewrite elem_of_addAll elem_of_setAdd elem_of_cons. tauto.
  - rewrite elem_of_setAdd elem_of_cons elem_of_nil. tauto.
Qed.

Lemma NoDup_lookupStep lower found entry :
  NoDup found → NoDup (lookupStep lower found entry).
Proof.
  rewrite /lookupStep => Hnd. destruct (hit lower entry); last done.
  destruct (synonyms entry); [apply NoDup_addAll|]; by apply NoDup_setAdd.
Qed.

Lemma elem_of_lookup lower configs found x :
  x ∈ foldl (lookupStep lower) found configs
  ↔ x ∈ found
    ∨ ∃ entry, entry ∈ configs ∧ hit lower entry = true ∧ x ∈ cluster entry.
Proof.
  elim: configs found => [|e configs IH] found /=.
  - split; [by left | move=> [? | [? [Hin _]]]; [done | by inversion Hin]].
  - rewrite IH elem_of_lookupStep. split.
    + move=> [[Hx | [Hh Hx]] | [entry [Hin [Hh Hx]]]].
      * by left.
      * right. exists e. split_and!; [left | done..].
      * right. exists entry. split_and!; [by right | done..].
    + move=> [Hx | [entry [Hin [Hh Hx]]]]; first by left; left.
      apply elem_of_cons in Hin as [-> | Hin].
      * left. right. done.
      * right. by exists entry.
Qed.

Lemma NoDup_lookup lower configs found :
  NoDup found → NoDup (foldl (lookupStep lower) found configs).
Proof.
  elim: configs found => [|e configs IH] found Hnd //=.
  by apply IH, NoDup_lookupStep.
Qed.

(** C10: if the lowercased content contains the lowercased term of an
    entry or one of its lowercased synonyms, the result of
    getSynonymsForContent holds the lowercased term and every lowercased
    synonym of that entry; every element of the result comes from the
    cluster of such an entry; and the result has no duplicates. *)
Theorem getSynonymsForContent_cluster synonymConfigs content :
  let result := getSynonymsForContent synonymConfigs content in
  (∀ entry, entry ∈ synonymConfigs → mentions content entry →
     toLowerCase (term entry) ∈ result
     ∧ ∀ syns s, synonyms entry = Some syns → s ∈ syns →
                 toLowerCase s ∈ result)
  ∧ (∀ x, x ∈ result →
       ∃ entry, entry ∈ synonymConfigs ∧ mentions content entry
                ∧ x ∈ cluster entry)
  ∧ NoDup result.
Proof.
  have Hmem: ∀ x, x ∈ getSynonymsForContent synonymConfigs content
    ↔ ∃ entry, entry ∈ synonymConfigs ∧ mentions content entry
               ∧ x ∈ cluster entry.
  { move=> x. rewrite /getSynonymsForContent.
    rewrite elem_of_lookup elem_of_nil. setoid_rewrite hit_mentions. tauto. }
  split_and!.
  - move=> entry Hin Hm. split.
    + apply Hmem. exists entry. split_and!; [done.. | left].
    + move=> syns s Hsyn Hs. apply Hmem. exists entry. split_and!; [done..|].
      rewrite /cluster Hsyn /=. right. by apply list_elem_of_fmap_2.
  - move=> x. by apply Hmem.
  - apply (NoDup_lookup (toLowerCase content) synonymConfigs []), NoDup_nil_2.
Qed.

Lemma getSynonymsForContent_cluster_witness :
  let entry := mkConfig (str "VPN") (Some [str "Tunnel"; str "IPsec"]) in
  let result :=
    getSynonymsForContent [entry; mkConfig (str "dns") None]
      (str "Open the tunnel") in
  entry ∈ [entry; mkConfig (str "dns") None]
  ∧ mentions (str "Open the tunnel") entry
  ∧ str "vpn" ∈ result ∧ str "ipsec" ∈ result.
Proof.
  set entry := mkConfig (str "VPN") (Some [str "Tunnel"; str "IPsec"]).
  have Hin: entry ∈ [entry; mkConfig (str "dns") None] by left.
  have Hm: mentions (str "Open the tunnel") entry.
  { right. exists [str "Tunnel"; str "IPsec"], (str "Tunnel").
    split_and!; [done | left | done]. }
  destruct (getSynonymsForContent_cluster
              [entry; mkConfig (str "dns") None] (str "Open the tunnel"))
    as [Hcluster _].
  destruct (Hcluster entry Hin Hm) as [Hterm Hsyns].
  split_and!; [exact Hin | exact Hm | exact Hterm |].
  apply (Hsyns [str "Tunnel"; str "IPsec"] (str "IPsec")); [done|].
  right. left.
Defined.

End SynonymLookupFacts.

(** ** Batch Extraction Engine: the batches *)

Module BatchFacts.
Import JS JSFacts ExtractSynonyms.

Lemma MAX_CHARS_PER_BATCH_pos : 0 < MAX_CHARS_PER_BATCH.
Proof. apply Nat.ltb_lt. by vm_compute. Qed.

Local Opaque MAX_CHARS_PER_BATCH.

(** *** splitDocIntoChunks returns, with chunks within the budget *)

Lemma splitDocLoop_total doc fuel chunks start index :
  length (text doc) - start < fuel →
  Forall (λ u, length (text u) ≤ MAX_CHARS_PER_BATCH) chunks →
  ∃ out, splitDocLoop fuel doc chunks start index = Some out
         ∧ Forall (λ u, length (text u) ≤ MAX_CHARS_PER_BATCH) out.
Proof.
  have Hpos := MAX_CHARS_PER_BATCH_pos.
  elim: fuel chunks start index => [|fuel IH] chunks start index Hfuel Hchunks;
    first lia.
  rewrite /=. case_bool_decide as Hstart; last by eauto.
  apply IH; first lia.
  apply Forall_app. split; [done|]. constructor; [|done].
  rewrite /= /slice length_take. lia.
Qed.

Lemma docsToInsert_total doc :
  ∃ subs, docsToInsert doc = Some subs
          ∧ Forall (λ u, length (text u) ≤ MAX_CHARS_PER_BATCH) subs.
Proof.
  rewrite /docsToInsert. case_bool_decide as Hbig.
  - apply splitDocLoop_total; [lia | constructor].
  - exists [doc]. split; [done|]. constructor; [lia | done].
Qed.

(** *** The batching loop *)

Section Loop.
Variable extractBatch : list Doc → list (option RawEntry).

Lemma batchChars_snoc b u :
  batchChars (b ++ [u]) = batchChars b + length (text u).
Proof. rewrite /batchChars sum_list_with_app /=. lia. Qed.

Lemma BatchInv_insertUnit st us sub :
  BatchInv st us →
  BatchInv (insertUnit extractBatch st sub) (us ++ [sub]).
Proof.
  intros (Hcat & Hsize & Hcalls & Hbatch). rewrite /insertUnit.
  case_bool_decide as Hover; rewrite /BatchInv /=.
  - split_and!.
    + by rewrite concat_app /= app_nil_r -Hcat.
    + rewrite /batchChars /=. lia.
    + apply Forall_app. split; [done | by constructor].
    + destruct (decide (length (text sub) ≤ MAX_CHARS_PER_BATCH)).
      * left. rewrite /batchChars /=. lia.
      * right. exists sub. split; [done | lia].
  - split_and!.
    + by rewrite app_assoc Hcat.
    + rewrite batchChars_snoc. lia.
    + done.
    + left. rewrite batchChars_snoc. lia.
Qed.

Lemma BatchInv_insertUnits subs st us :
  BatchInv st us →
  BatchInv (foldl (insertUnit extractBatch) st subs) (us ++ subs).
Proof.
  elim: subs st us => [|sub subs IH] st us Hinv /=.
  - by rewrite app_nil_r.
  - rewrite (assoc_L (++) us [sub] subs).
    by apply IH, BatchInv_insertUnit.
Qed.

Lemma BatchInv_insertDocs docs st us :
  BatchInv st us →
  ∃ st' subss,
    foldl (insertDoc extractBatch) (Some st) docs = Some st'
    ∧ mapM docsToInsert docs = Some subss
    ∧ BatchInv st' (us ++ concat subss).
Proof.
  elim: docs st us => [|doc docs IH] st us Hinv /=.
  - exists st, []. by rewrite /= app_nil_r.
  - destruct (docsToInsert_total doc) as (subs & Hsubs & _).
    rewrite Hsubs /=.
    destruct (IH _ _ (BatchInv_insertUnits subs _ _ Hinv))
      as (st' & subss & Hrun & Hmap & Hinv').
    exists st', (subs :: subss). rewrite Hrun Hmap /=.
    by rewrite app_assoc.
Qed.

(** C3: generateSynonyms submits its batches without splitting or
    dropping a unit (the batches, joined in the order of submission,
    are the units in the order of insertion), and every batch passed to
    an extraction call has accumulated unit text of at most
    MAX_CHARS_PER_BATCH characters, unless it consists of a single unit
    that alone exceeds MAX_CHARS_PER_BATCH. *)
Theorem generateSynonyms_batch_bound wikiDocs :
  ∃ st units,
    runBatches extractBatch wikiDocs = Some st
    ∧ unitsOf wikiDocs = Some units
    ∧ concat (calls st) = units
    ∧ Forall batchOk (calls st).
Proof.
  have Hinit: BatchInv (mkBatchState [] [] [] 0) [].
  { rewrite /BatchInv /=. split_and!; [done.. | by left; rewrite /batchChars /=; lia]. }
  destruct (BatchInv_insertDocs wikiDocs _ _ Hinit)
    as (st & subss & Hrun & Hmap & (Hcat & Hsize & Hcalls & Hbatch)).
  rewrite /runBatches /unitsOf Hrun Hmap /=.
  eexists _, _. split_and!; [done.. | |]; rewrite /finalBatch;
    case_bool_decide as Hne; rewrite /=.
  - by rewrite concat_app /= app_nil_r.
  - destruct (batch st); [by rewrite app_nil_r in Hcat | simpl in Hne; lia].
  - apply Forall_app. split; [done | by constructor].
  - done.
Qed.

(** In fact no unit exceeds the budget, since longer documents are cut
    into chunks of at most MAX_CHARS_PER_BATCH characters first; so
    every batch is within the budget. *)
Lemma units_within_budget wikiDocs units :
  unitsOf wikiDocs = Some units →
  Forall (λ u, length (text u) ≤ MAX_CHARS_PER_BATCH) units.
Proof.
  rewrite /unitsOf.
  elim: wikiDocs units => [|doc docs IH] units /=.
  - move=> [<-]. constructor.
  - destruct (docsToInsert_total doc) as (subs & Hsubs & Hle).
    rewrite Hsubs /=. destruct (mapM docsToInsert docs) as [subss|] eqn:Hm;
      last done.
    move=> [<-] /=. apply Forall_app. split; [done|]. by apply IH.
Qed.

End Loop.

End BatchFacts.

(** ** Batch Extraction Engine: the merge step *)

Module MergeFacts.
Import JS JSFacts ExtractSynonyms.

(** *** Lowercasing and trimming *)

Lemma lowerUnit_idem c : lowerUnit (lowerUnit c) = lowerUnit c.
Proof. by destruct c as [[] [] [] [] [] [] [] []]. Qed.

Lemma isWhiteSpace_lowerUnit c : isWhiteSpace (lowerUnit c) = isWhiteSpace c.
Proof. by destruct c as [[] [] [] [] [] [] [] []]. Qed.

Lemma toLowerCase_idem s : toLowerCase (toLowerCase s) = toLowerCase s.
Proof.
  rewrite /toLowerCase -list_fmap_compose.
  apply list_fmap_ext => i c _ /=. apply lowerUnit_idem.
Qed.

Lemma trimStart_toLowerCase s :
  trimStart (toLowerCase s) = toLowerCase (trimStart s).
Proof.
  elim: s => [|c s IH] //=. rewrite isWhiteSpace_lowerUnit.
  by destruct (isWhiteSpace c).
Qed.

Lemma trimEnd_toLowerCase s :
  trimEnd (toLowerCase s) = toLowerCase (trimEnd s).
Proof.
  rewrite /trimEnd /toLowerCase -fmap_reverse.
  rewrite -/(toLowerCase (reverse s)) trimStart_toLowerCase.
  by rewrite /toLowerCase fmap_reverse.
Qed.

Lemma trim_toLowerCase s : trim (toLowerCase s) = toLowerCase (trim s).
Proof. by rewrite /trim trimStart_toLowerCase trimEnd_toLowerCase. Qed.

Lemma trimStart_app l r :
  trimStart (l ++ r)
  = if trimStart l is [] then trimStart r else trimStart l ++ r.
Proof.
  elim: l => [|c l IH] //=. by destruct (isWhiteSpace c).
Qed.

Lemma trimEnd_cons c s :
  trimEnd (c :: s)
  = if trimEnd s is [] then (if isWhiteSpace c then [] else [c])
    else c :: trimEnd s.
Proof.
  rewrite /trimEnd reverse_cons trimStart_app.
  destruct (trimStart (reverse s)) as [|d t] eqn:Ht.
  - rewrite /=. by destruct (isWhiteSpace c).
  - rewrite reverse_app /=.
    by destruct (reverse (d :: t)) eqn:Hr; first by apply (f_equal length) in Hr;
      rewrite length_reverse in Hr.
Qed.

Lemma trimStart_idem s : trimStart (trimStart s) = trimStart s.
Proof.
  elim: s => [|c s IH] //=. destruct (isWhiteSpace c) eqn:Hc; first done.
  by rewrite /= Hc.
Qed.

Lemma trimEnd_idem s : trimEnd (trimEnd s) = trimEnd s.
Proof. by rewrite /trimEnd reverse_involutive trimStart_idem. Qed.

Lemma trimStart_trimEnd s : trimStart (trimEnd s) = trimEnd (trimStart s).
Proof.
  elim: s => [|c s IH] //. rewrite trimEnd_cons /=.
  destruct (isWhiteSpace c) eqn:Hc.
  - rewrite -IH. destruct (trimEnd s) as [|d t]; first done.
    by rewrite /= Hc.
  - rewrite trimEnd_cons Hc. by destruct (trimEnd s); rewrite /= Hc.
Qed.

Lemma trim_idem s : trim (trim s) = trim s.
Proof.
  by rewrite /trim trimStart_trimEnd trimStart_idem trimEnd_idem.
Qed.

(** What the merge step does to a term or a synonym. *)
Lemma Normal_normalize s : Normal (toLowerCase (trim s)).
Proof.
  split; first apply toLowerCase_idem.
  by rewrite trim_toLowerCase trim_idem.
Qed.

Lemma truthy_ne s : truthy s = true ↔ s ≠ [].
Proof. by destruct s. Qed.

Lemma length_pos_ne {A} (s : list A) : 0 < length s ↔ s ≠ [].
Proof. destruct s; simpl; split; (done || lia). Qed.

(** *** The term map *)

Lemma SynonymsOk_setAdd t syns s :
  SynonymsOk t syns → Normal s → s ≠ [] → s ≠ t →
  SynonymsOk t (setAdd syns s).
Proof.
  move=> [Hnd Hall] Hn Hne Hnt. rewrite /setAdd.
  case_bool_decide as Hin; first done. split.
  - apply NoDup_app. split_and!; [done | | apply NoDup_singleton].
    move=> x Hx /list_elem_of_singleton Heq. by subst.
  - apply Forall_app. split; [done | by constructor].
Qed.

Lemma mapAdd_keys k m s : (mapAdd k m s).*1 = m.*1.
Proof.
  rewrite /mapAdd -list_fmap_compose. apply list_fmap_ext => i p _ /=.
  by case_bool_decide.
Qed.

Lemma MapOk_mapAdd k m s :
  MapOk m → Normal s → s ≠ [] → s ≠ k → MapOk (mapAdd k m s).
Proof.
  move=> [Hnd Hall] Hn Hne Hnk. split; first by rewrite mapAdd_keys.
  rewrite /mapAdd. apply Forall_fmap. eapply Forall_impl; first exact Hall.
  move=> [t syns] /= [Ht Hsyns]. case_bool_decide as Hk; last done.
  subst k. split; [done|]. by apply SynonymsOk_setAdd.
Qed.

Lemma MapOk_mapAdds k xs m :
  MapOk m → Forall (λ s, Normal s ∧ s ≠ [] ∧ s ≠ k) xs →
  MapOk (foldl (mapAdd k) m xs).
Proof.
  elim: xs m => [|s xs IH] m Hm Hxs //=.
  inversion_clear Hxs as [|?? [Hn [Hne Hnk]] Hrest].
  by apply IH; first apply MapOk_mapAdd.
Qed.

(** The synonyms that survive the filter of the merge step. *)
Lemma filtered_synonyms_ok term syns :
  Forall (λ s, Normal s ∧ s ≠ [] ∧ s ≠ term)
    (filter (λ s, 0 < length s ∧ s ≠ term)
       ((λ s, toLowerCase (trim s)) <$> syns)).
Proof.
  apply Forall_forall => s /list_elem_of_filter [[Hlen Hnt] Hin].
  apply list_elem_of_fmap in Hin as [s0 [-> _]].
  split_and!; [apply Normal_normalize | by apply length_pos_ne | done].
Qed.

Lemma MapOk_mergeEntry m entry : MapOk m → MapOk (mergeEntry m entry).
Proof.
  move=> Hm. destruct entry as [[[t|] syns]|] => //=.
  destruct (truthy t) => //=.
  set term := toLowerCase (trim t).
  destruct (truthy term) eqn:Hterm => //=.
  have Hm1: MapOk (if mapHas m term then m else m ++ [(term, [])]).
  { rewrite /mapHas. case_bool_decide as Hhas; first done.
    destruct Hm as [Hnd Hall]. split.
    - rewrite fmap_app /=. apply NoDup_app.
      split_and!; [done | | apply NoDup_singleton].
      move=> x Hx /list_elem_of_singleton Heq. by subst.
    - apply Forall_app. split; [done|]. constructor; [|done].
      split; [split; [apply Normal_normalize | by apply truthy_ne] |].
      split; [apply NoDup_nil_2 | constructor]. }
  destruct syns as [syns|]; last done.
  by apply MapOk_mapAdds, filtered_synonyms_ok.
Qed.

Lemma MapOk_merge results m :
  MapOk m → MapOk (foldl mergeEntry m results).
Proof.
  elim: results m => [|e results IH] m Hm //=.
  by apply IH, MapOk_mergeEntry.
Qed.

Lemma finalOutput_terms m x : x ∈ finalOutput m → term x ∈ m.*1.
Proof.
  rewrite /finalOutput => /list_elem_of_filter [_ Hin].
  apply list_elem_of_fmap in Hin as [p [-> Hp]].
  by apply (list_elem_of_fmap_2 fst) in Hp.
Qed.

Lemma finalOutput_cons p m :
  finalOutput (p :: m)
  = match decide (0 < length p.2) with
    | left _ => {| term := p.1; synonyms := p.2 |} :: finalOutput m
    | right _ => finalOutput m
    end.
Proof. by rewrite /finalOutput fmap_cons filter_cons. Qed.

Lemma IndexOk_finalOutput m : MapOk m → IndexOk (finalOutput m).
Proof.
  move=> [Hnd Hall]. split.
  - elim: m Hnd {Hall} => [|p m IH] Hnd; first by constructor.
    rewrite fmap_cons in Hnd. apply NoDup_cons in Hnd as [Hp Hnd].
    rewrite finalOutput_cons. case_decide; last by apply IH.
    rewrite fmap_cons. apply NoDup_cons. split; last by apply IH.
    move=> /list_elem_of_fmap [x [Hx Hin]]. apply Hp.
    rewrite /= in Hx. rewrite Hx. by apply finalOutput_terms.
  - apply Forall_forall => x /list_elem_of_filter [Hlen Hin].
    apply list_elem_of_fmap in Hin as [p [-> Hp]].
    move: Hall => /Forall_forall Hall. destruct (Hall p Hp) as [Ht Hs].
    split; [done|]. split; [by apply length_pos_ne | done].
Qed.

Lemma mergeResults_IndexOk results : IndexOk (mergeResults results).
Proof.
  apply IndexOk_finalOutput, MapOk_merge.
  split; [apply NoDup_nil_2 | constructor].
Qed.

(** *** Merging an index that is already merged *)

Lemma mapAdd_last k acc cur s :
  k ∉ acc.*1 →
  mapAdd k (acc ++ [(k, cur)]) s = acc ++ [(k, setAdd cur s)].
Proof.
  move=> Hk. rewrite /mapAdd fmap_app /= bool_decide_true //. f_equal.
  elim: acc Hk => [|p acc IH] Hk //.
  rewrite fmap_cons in Hk. apply not_elem_of_cons in Hk as [Hp Hk].
  rewrite fmap_cons IH // bool_decide_false //.
Qed.

Lemma mapAdds_last k acc xs cur :
  k ∉ acc.*1 →
  foldl (mapAdd k) (acc ++ [(k, cur)]) xs
  = acc ++ [(k, foldl setAdd cur xs)].
Proof.
  move=> Hk. elim: xs cur => [|s xs IH] cur //=.
  by rewrite mapAdd_last // IH.
Qed.

Lemma setAdd_fresh xs cur :
  NoDup (cur ++ xs) → foldl setAdd cur xs = cur ++ xs.
Proof.
  elim: xs cur => [|s xs IH] cur Hnd /=; first by rewrite app_nil_r.
  rewrite (assoc_L (++) cur [s] xs) in Hnd |- *.
  rewrite -IH // /setAdd bool_decide_false //.
  apply NoDup_app in Hnd as [Hnd _]. apply NoDup_app in Hnd as (_ & Hnd & _).
  move=> Hin. apply (Hnd s Hin). by left.
Qed.

Lemma normalize_filter_id t syns :
  Forall (λ s, Normal s ∧ s ≠ [] ∧ s ≠ t) syns →
  filter (λ s, 0 < length s ∧ s ≠ t)
    ((λ s, toLowerCase (trim s)) <$> syns) = syns.
Proof.
  elim: syns => [|s syns IH] Hall //.
  apply Forall_cons in Hall as [[[Hlow Htrim] [Hne Hnt]] Hrest].
  rewrite fmap_cons Htrim Hlow filter_cons_True; last by rewrite IH.
  split; [by apply length_pos_ne | done].
Qed.

Lemma mergeEntry_asRaw acc x :
  Normal (term x) ∧ term x ≠ [] →
  SynonymsOk (term x) (synonyms x) →
  term x ∉ acc.*1 →
  mergeEntry acc (asRaw x) = acc ++ [(term x, synonyms x)].
Proof.
  move=> [[Hlow Htrim] Hne] [Hnd Hall] Hfresh.
  have Ht: truthy (term x) = true by apply truthy_ne.
  rewrite /mergeEntry /= Ht /= Htrim Hlow Ht /=.
  rewrite /mapHas bool_decide_false // normalize_filter_id //.
  by rewrite mapAdds_last // setAdd_fresh.
Qed.

Local Arguments mergeEntry : simpl never.

Lemma merge_asRaw out acc :
  NoDup (acc.*1 ++ (term <$> out)) →
  Forall (λ x, (Normal (term x) ∧ term x ≠ [])
               ∧ synonyms x ≠ [] ∧ SynonymsOk (term x) (synonyms x)) out →
  foldl mergeEntry acc (asRaw <$> out)
  = acc ++ ((λ x, (term x, synonyms x)) <$> out).
Proof.
  elim: out acc => [|x out IH] acc Hnd Hall /=; first by rewrite app_nil_r.
  apply Forall_cons in Hall as [[Ht [_ Hs]] Hrest].
  have Hfresh: term x ∉ acc.*1.
  { apply NoDup_app in Hnd as (_ & Hnd & _). move=> Hin.
    apply (Hnd _ Hin). by left. }
  rewrite mergeEntry_asRaw // IH //; last by rewrite -app_assoc.
  by rewrite fmap_app /= -app_assoc.
Qed.

Lemma mergeResults_fixpoint out :
  IndexOk out → mergeResults (asRaw <$> out) = out.
Proof.
  move=> [Hnd Hall]. rewrite /mergeResults merge_asRaw //= /finalOutput.
  rewrite -list_fmap_compose.
  elim: out Hall {Hnd} => [|x out IH] Hall //.
  apply Forall_cons in Hall as [[_ [Hne _]] Hrest].
  rewrite fmap_cons filter_cons_True /=; first by apply length_pos_ne.
  rewrite IH //. by destruct x.
Qed.

(** C4: the merge step (lowercase and trim the terms, union the synonym
    sets per term, leave out synonyms equal to their term, drop the
    entries left without synonyms) applied to its own output gives that
    output again, for every list of raw extraction entries. *)
Theorem mergeResults_idempotent results :
  mergeResults (asRaw <$> mergeResults results) = mergeResults results.
Proof. apply mergeResults_fixpoint, mergeResults_IndexOk. Qed.

End MergeFacts.


(** ** Sync Orchestrator *)

Module SyncFacts.
Import Env GeminiService.

(** The first statement of syncWikiToGeminiRag, when the flag is set. *)
Lemma sync_when_running svc synonymConfigs w :
  syncRunning w = true →
  syncWikiToGeminiRag svc synonymConfigs w
  = (Ok None, mkWorld (syncRunning w) (ai w) (fs w) (stores w)
                (trace w ++ [SyncAlreadyRunning])).
Proof.
  move=> Hrun.
  by rewrite /syncWikiToGeminiRag /mbind /IO_bind /getWorld [in LHS]Hrun.
Qed.

(** C8: when syncWikiToGeminiRag is called while the run-guard flag is
    set, it returns at once with no result; the files (hash cache and
    Synonym Index included), the stores of the remote index and the flag
    itself are as before, and the only trace of the call is the warning on
    the console. *)
Theorem syncWikiToGeminiRag_single_flight svc synonymConfigs w :
  syncRunning w = true →
  ∃ w', syncWikiToGeminiRag svc synonymConfigs w = (Ok None, w')
        ∧ fs w' = fs w ∧ stores w' = stores w
        ∧ syncRunning w' = true ∧ ai w' = ai w
        ∧ trace w' = trace w ++ [SyncAlreadyRunning].
Proof.
  move=> Hrun. eexists. by rewrite sync_when_running.
Qed.

Lemma syncWikiToGeminiRag_single_flight_witness :
  syncRunning Scenario.busy = true
  ∧ ∃ w', syncWikiToGeminiRag Scenario.services [] Scenario.busy = (Ok None, w')
          ∧ fs w' = fs Scenario.busy ∧ stores w' = stores Scenario.busy
          ∧ syncRunning w' = true ∧ ai w' = ai Scenario.busy
          ∧ trace w' = trace Scenario.busy ++ [SyncAlreadyRunning].
Proof.
  split; [reflexivity |].
  apply (syncWikiToGeminiRag_single_flight Scenario.services [] Scenario.busy).
  reflexivity.
Defined.

(** C7: when the export folder is missing or holds no .json file, a call
    of syncWikiToGeminiRag gives no result and leaves the files and the
    stores as they were: the hash cache is not cleared, no store is
    deleted or created, nothing is uploaded.  The only trace of the call is
    one message on the console (the error of the validation, or the warning
    that a run is in progress). *)
Theorem syncWikiToGeminiRag_validation svc synonymConfigs w :
  textFilesOf w = None ∨ textFilesOf w = Some [] →
  ∃ w' ev, syncWikiToGeminiRag svc synonymConfigs w = (Ok None, w')
           ∧ fs w' = fs w ∧ stores w' = stores w
           ∧ trace w' = trace w ++ [ev]
           ∧ (ev = SyncAlreadyRunning ∨ ∃ e, ev = SyncError e).
Proof.
  move=> Hfiles.
  destruct (syncRunning w) eqn:Hrun.
  { eexists _, SyncAlreadyRunning. rewrite sync_when_running //=.
    split_and!; [done.. | by left]. }
  rewrite /textFilesOf in Hfiles.
  rewrite /syncWikiToGeminiRag /mbind /IO_bind /getWorld Hrun /=.
  rewrite /finally /tryCatch /=.
  destruct (wikiFiles (fs w)) as [entries|] eqn:Hdir; simpl in Hfiles.
  - destruct Hfiles as [? | [= Hnil]]; first done.
    rewrite Hnil /=. eexists _, _. split_and!; [done.. | right; by eexists].
  - eexists _, _. split_and!; [done.. | right; by eexists].
Qed.

Lemma syncWikiToGeminiRag_validation_witness :
  (textFilesOf Scenario.emptyExport = None
   ∨ textFilesOf Scenario.emptyExport = Some [])
  ∧ ∃ w' ev,
      syncWikiToGeminiRag Scenario.services [] Scenario.emptyExport = (Ok None, w')
      ∧ fs w' = fs Scenario.emptyExport ∧ stores w' = stores Scenario.emptyExport
      ∧ trace w' = trace Scenario.emptyExport ++ [ev]
      ∧ (ev = SyncAlreadyRunning ∨ ∃ e, ev = SyncError e).
Proof.
  have Hfiles: textFilesOf Scenario.emptyExport = None
               ∨ textFilesOf Scenario.emptyExport = Some []
    by right.
  split; [exact Hfiles |].
  exact (syncWikiToGeminiRag_validation Scenario.services [] _ Hfiles).
Defined.

End SyncFacts.

(** ** Query Rewriter and search *)

Module SearchFacts.
Import Env RewriteQuery GeminiService.

(** C9: when the generation call of rewriteUserQuestionForFileSearch
    throws, the rewrite step throws the same error, and so does searchWiki
    (which has found its store and reached the rewrite step); the failed
    rewrite call is the last thing that happens: no search call is made,
    with the raw question or otherwise. *)
Theorem rewrite_failure_propagates
    svc synonymEntries question customPrompt w context store e :
  buildSynonymContext (findRelevantSynonyms synonymEntries question)
    = Ok context →
  rewriteGenerate svc (promptFor context question) = Throw e →
  head (filter (λ s, storeDisplayName s = DATASET_NAME svc) (stores w))
    = Some store →
  JS.truthy (name store) = true →
  (∃ w', rewriteUserQuestionForFileSearch svc synonymEntries question w
           = (Throw e, w')
         ∧ trace w' = trace w ++ [RewriteCall (promptFor context question)])
  ∧ (∃ w', searchWiki svc synonymEntries question customPrompt w
             = (Throw e, w')
           ∧ trace w' = trace w ++ [RewriteCall (promptFor context question)]).
Proof.
  move=> Hctx Hgen Hstore Hname. split.
  - eexists. rewrite /rewriteUserQuestionForFileSearch /mbind /IO_bind.
    rewrite /liftResult Hctx /= Hgen /=. by split.
  - eexists. rewrite /searchWiki /findRagStoreByDisplayName /mbind /IO_bind /=.
    rewrite Hstore Hname /rewriteUserQuestionForFileSearch /mbind /IO_bind.
    rewrite /liftResult Hctx /= Hgen /=. by split.
Qed.

Lemma rewrite_failure_propagates_witness :
  let w := Scenario.afterFirstSync in
  let question := str "how do I set up the vpn" in
  let context := str "None found for this question." in
  let e := Error (str "503 Service Unavailable") in
  (∃ w', rewriteUserQuestionForFileSearch Scenario.services [] question w
           = (Throw e, w')
         ∧ trace w' = trace w ++ [RewriteCall (promptFor context question)])
  ∧ (∃ w', searchWiki Scenario.services [] question [] w = (Throw e, w')
           ∧ trace w' = trace w ++ [RewriteCall (promptFor context question)]).
Proof.
  apply (rewrite_failure_propagates Scenario.services [] _ [] Scenario.afterFirstSync _
           (mkStore (str "fileSearchStores/it-wiki") (str "IT_Wiki")
              (concat (documents <$> stores Scenario.afterFirstSync))));
    by vm_compute.
Defined.

End SearchFacts.

(** ** Hash cache across runs *)

Module HashCacheFacts.
Import Env GeminiService.


End HashCacheFacts.

Module ImagePassFacts.
Import Env GeminiService.

Section Pass.
Variable svc : Services.
Variable storeName : jsstring.
Variable imagePageMap : gmap jsstring jsstring.
(** The asset, its bytes, and the directory that holds it. *)
Variable image : jsstring.
Variable bytes : list ascii.
Variable dir : list (jsstring * list ascii).
Hypothesis Hbytes : (list_to_map dir : gmap jsstring (list ascii)) !! image = Some bytes.
(** The trace at the start of the pass. *)
Variable before : list Event.

Local Abbreviation Kept := (Kept svc image bytes dir before).
Local Abbreviation PassInv := (PassInv svc image bytes dir before).

(** A step that leaves the images alone, keeps the record of the asset
    and adds the events [evs]. *)
Lemma Kept_after w w' evs :
  Kept w →
  wikiImages (fs w') = wikiImages (fs w) →
  (∃ cache, imageHashCache (fs w') = Some cache
            ∧ cache !! image = Some (md5 svc bytes)) →
  trace w' = trace w ++ evs →
  Analysing image ∉ evs →
  Kept w'.
Proof.
  intros (Hdir & _ & new & Htrace & Hnew) Hdir' Hcache' Htrace' Hevs.
  split_and!; [by rewrite Hdir' | done |].
  exists (new ++ evs). rewrite Htrace' Htrace app_assoc. split; [done|].
  rewrite elem_of_app. tauto.
Qed.

Lemma PassInv_after visited st w st' w' x evs :
  PassInv visited st w →
  wikiImages (fs w') = wikiImages (fs w) →
  (∃ cache, imageHashCache (fs w') = Some cache
            ∧ cache !! image = Some (md5 svc bytes)) →
  trace w' = trace w ++ evs →
  Analysing image ∉ evs →
  hashCache st' !! image = Some (md5 svc bytes) →
  (∀ y, y ∈ processedInThisRun st' → y ∈ visited ++ [x]) →
  (x = image → image ∈ visited ∨ HashMatchSkipped image ∈ evs) →
  PassInv (visited ++ [x]) st' w'.
Proof.
  intros (Hkept & Hhash & Hproc & Hskip) Hdir' Hcache' Htrace' Hevs Hhash' Hproc' Hx.
  split_and!; [by eapply Kept_after | done | done |].
  move=> Hin.
  have Hcases: image ∈ visited ∨ HashMatchSkipped image ∈ evs.
  { apply elem_of_app in Hin as [Hin | Hin%list_elem_of_singleton]; [by left | by apply Hx]. }
  destruct Hcases as [Hv | He].
  - destruct (Hskip Hv) as (new & Htrace & Hnew). exists (new ++ evs).
    rewrite Htrace' Htrace app_assoc. split; [done|]. apply elem_of_app. by left.
  - destruct Hkept as (_ & _ & new & Htrace & _). exists (new ++ evs).
    rewrite Htrace' Htrace app_assoc. split; [done|]. apply elem_of_app. by right.
Qed.

Lemma processImage_step visited st x w :
  PassInv visited st w →
  Kept (processImage svc storeName imagePageMap st x w).2
  ∧ ∀ st', (processImage svc storeName imagePageMap st x w).1 = Ok st' →
           PassInv (visited ++ [x]) st'
             (processImage svc storeName imagePageMap st x w).2.
Proof.
  move=> Hinv. have Hinv' := Hinv.
  destruct Hinv' as (Hkept & Hhash & Hproc & Hskip).
  have Hkept' := Hkept.
  destruct Hkept' as (Hdir & (cache & Hcache & Hrecord) & _).
  rewrite /processImage. case_bool_decide as Hdup.
  - (* a duplicate within the run *)
    rewrite /mbind /IO_bind /=. split.
    + eapply (Kept_after w _ [RuntimeDuplicateSkipped x]); [done.. | by exists cache | done |].
      by move=> /list_elem_of_singleton.
    + move=> st' [<-].
      eapply (PassInv_after visited st w _ _ x [RuntimeDuplicateSkipped x]);
        [done.. | by exists cache | done | | done | | ].
      * by move=> /list_elem_of_singleton.
      * move=> y Hy. apply elem_of_app. left. by apply Hproc.
      * move=> Hx. left. apply Hproc. by rewrite -Hx.
  - rewrite /getImageHash /mbind /IO_bind /getWorld /readFileSync Hdir /=.
    destruct ((list_to_map dir : gmap jsstring (list ascii)) !! x) as [b|] eqn:Hx;
      rewrite /=.
    2:{ split; [done | by move=> st' ?]. }
    have Hproc': ∀ y, y ∈ {[x]} ∪ processedInThisRun st → y ∈ visited ++ [x].
    { move=> y /elem_of_union [/elem_of_singleton -> | Hy]; apply elem_of_app.
      - right. by left.
      - left. by apply Hproc. }
    case_bool_decide as Hhit.
    + (* the digest is the recorded one *)
      rewrite /=. split.
      * eapply (Kept_after w _ [HashMatchSkipped x]); [done.. | by exists cache | done |].
        by move=> /list_elem_of_singleton.
      * move=> st' [<-].
        eapply (PassInv_after visited st w _ _ x [HashMatchSkipped x]);
          [done.. | by exists cache | done | | done | done | ].
        -- by move=> /list_elem_of_singleton.
        -- move=> ->. right. by left.
    + (* a new or changed image: it is not the asset *)
      have Hne: x ≠ image.
      { move=> Heq. apply Hhit. rewrite Heq in Hx |- *.
        rewrite Hbytes in Hx. move: Hx => [<-]. done. }
      rewrite /tryCatch /uploadTextToRag /mbind /IO_bind /getWorld /= Hdir /= Hx /=.
      destruct (uploadToFileSearchStore svc storeName _) as [err|] eqn:Hup; rewrite /=.
      * (* the upload fails: the error is caught, the cache stays *)
        set evs := [Analysing x; Uploading (replaceImageExtension x);
                    UploadFailed (replaceImageExtension x); ImageFailed x err].
        have Hevs: Analysing image ∉ evs.
        { rewrite /evs !elem_of_cons elem_of_nil. naive_solver. }
        split.
        -- eapply (Kept_after w _ evs); [done.. | by exists cache | | done].
           by rewrite /= -!app_assoc.
        -- move=> st' [<-].
           eapply (PassInv_after visited st w _ _ x evs);
             [done.. | by exists cache | | done | done | done | done].
           by rewrite /= -!app_assoc.
      * (* the upload succeeds: the digest of [x] is recorded *)
        set evs := [Analysing x; Uploading (replaceImageExtension x);
                    UploadSuccessful (replaceImageExtension x)].
        have Hevs: Analysing image ∉ evs.
        { rewrite /evs !elem_of_cons elem_of_nil. naive_solver. }
        have Hrec: ∃ c, Some (<[x:=md5 svc b]> (hashCache st)) = Some c
                        ∧ c !! image = Some (md5 svc bytes).
        { eexists. split; [done|]. by rewrite lookup_insert_ne. }
        split.
        -- eapply (Kept_after w _ evs); [done.. | exact Hrec | | done].
           by rewrite /= -!app_assoc.
        -- move=> st' [<-].
           eapply (PassInv_after visited st w _ _ x evs);
             [done.. | exact Hrec | | done | | done | done].
           ++ by rewrite /= -!app_assoc.
           ++ by rewrite /= lookup_insert_ne.
Qed.

(** The loop of processImagesToRag. *)
Lemma forOf_processImage images visited st w :
  PassInv visited st w →
  Kept (forOf images (processImage svc storeName imagePageMap) st w).2
  ∧ ∀ st', (forOf images (processImage svc storeName imagePageMap) st w).1
             = Ok st' →
           PassInv (visited ++ images) st'
             (forOf images (processImage svc storeName imagePageMap) st w).2.
Proof.
  elim: images visited st w => [|x images IH] visited st w Hinv.
  - rewrite /= app_nil_r. split; [by destruct Hinv | by move=> st' [<-]].
  - destruct (processImage_step visited st x w Hinv) as [Hkept Hok].
    rewrite /= /mbind /IO_bind.
    destruct (processImage svc storeName imagePageMap st x w) as [[st1|e] w1].
    + rewrite (assoc_L (++) visited [x] images). by apply IH, Hok.
    + split; [done | by move=> st' ?].
Qed.


End Pass.

Section Upload.
Variable svc : Services.
Variable storeName : jsstring.
Variable imagePageMap : gmap jsstring jsstring.
Variable image : jsstring.
Variable bytes : list ascii.
Variable dir : list (jsstring * list ascii).
Hypothesis Hbytes : (list_to_map dir : gmap jsstring (list ascii)) !! image = Some bytes.
Variable before : list Event.

Local Abbreviation Uploaded := (Uploaded svc image bytes dir before).
Local Abbreviation UploadInv := (UploadInv svc image bytes dir before).
Local Abbreviation Recorded := (Recorded svc image bytes).

Lemma UploadInv_Uploaded st w : UploadInv st w → Uploaded w.
Proof.
  intros (Hdir & new & Htrace & Hnew). split; [done|].
  exists new. split; [done|]. move=> Hin. destruct (Hnew Hin) as [_ [? | [_ ?]]]; tauto.
Qed.

(** A round for another image, or one that does not analyse. *)
Lemma UploadInv_other st w st' w' evs :
  UploadInv st w →
  wikiImages (fs w') = wikiImages (fs w) →
  trace w' = trace w ++ evs →
  Analysing image ∉ evs →
  processedInThisRun st ⊆ processedInThisRun st' →
  (hashCache st !! image = Some (md5 svc bytes) →
   hashCache st' !! image = Some (md5 svc bytes)) →
  (hashCache st !! image = Some (md5 svc bytes) → Recorded w → Recorded w') →
  UploadInv st' w'.
Proof.
  intros (Hdir & new & Htrace & Hnew) Hdir' Htrace' Hevs Hproc Hhash Hrec.
  split; [by rewrite Hdir'|]. exists (new ++ evs).
  rewrite Htrace' Htrace app_assoc. split; [done|].
  move=> /elem_of_app [Hin | Hin]; last done.
  destruct (Hnew Hin) as [Hp [[e He] | [Hh Hr]]].
  - split; [set_solver|]. left. exists e. apply elem_of_app. by left.
  - split; [set_solver|]. right. split; [by apply Hhash | by apply Hrec].
Qed.

Lemma processImage_records st x w :
  UploadInv st w →
  Uploaded (processImage svc storeName imagePageMap st x w).2
  ∧ ∀ st', (processImage svc storeName imagePageMap st x w).1 = Ok st' →
           UploadInv st' (processImage svc storeName imagePageMap st x w).2.
Proof.
  move=> Hinv.
  have Hboth: ∀ st' w', UploadInv st' w' →
      Uploaded w' ∧ ∀ st'', Ok st' = Ok st'' → UploadInv st'' w'.
  { move=> st' w' H'. split; [by eapply UploadInv_Uploaded | by move=> ? [<-]]. }
  have Hdir: wikiImages (fs w) = Some dir by destruct Hinv.
  rewrite /processImage. case_bool_decide as Hdup.
  - rewrite /mbind /IO_bind /=. apply Hboth.
    eapply (UploadInv_other st w _ _ [RuntimeDuplicateSkipped x]); [done.. | | done | done | done].
    by move=> /list_elem_of_singleton.
  - rewrite /getImageHash /mbind /IO_bind /getWorld /readFileSync Hdir /=.
    destruct ((list_to_map dir : gmap jsstring (list ascii)) !! x) as [b|] eqn:Hx;
      rewrite /=.
    2:{ split; [by eapply UploadInv_Uploaded | by move=> st' ?]. }
    case_bool_decide as Hhit.
    + rewrite /=. apply Hboth.
      eapply (UploadInv_other st w _ _ [HashMatchSkipped x]); [done.. | | | done | done].
      * by move=> /list_elem_of_singleton.
      * set_solver.
    + rewrite /tryCatch /uploadTextToRag /mbind /IO_bind /getWorld /= Hdir /= Hx /=.
      destruct (decide (x = image)) as [-> | Hne].
      * (* the asset itself *)
        rewrite Hbytes in Hx. move: Hx => [Hb]. subst b.
        destruct Hinv as (_ & new & Htrace & _).
        destruct (uploadToFileSearchStore svc storeName _) as [err|] eqn:Hup;
          rewrite /=; apply Hboth; (split; [done|]).
        -- eexists (new ++ [_; _; _; _]). rewrite /= Htrace -!app_assoc /=.
           split; [done|]. move=> _. split; [set_solver|]. left. exists err.
           apply elem_of_app. right. by do 3 right; left.
        -- eexists (new ++ [_; _; _]). rewrite /= Htrace -!app_assoc /=.
           split; [done|]. move=> _. split; [set_solver|]. right.
           rewrite lookup_insert_eq. split; [done|].
           eexists. split; [done|]. by rewrite lookup_insert_eq.
      * (* another image *)
        destruct (uploadToFileSearchStore svc storeName _) as [err|] eqn:Hup;
          rewrite /=; apply Hboth.
        -- eapply (UploadInv_other st w _ _ [_; _; _; _]);
             [done | done | by rewrite /= -!app_assoc | | | done | done].
           ++ rewrite !elem_of_cons elem_of_nil. naive_solver.
           ++ set_solver.
        -- eapply (UploadInv_other st w _ _ [_; _; _]);
             [done | done | by rewrite /= -!app_assoc | | | | ].
           ++ rewrite !elem_of_cons elem_of_nil. naive_solver.
           ++ set_solver.
           ++ by rewrite /= lookup_insert_ne.
           ++ move=> Hh _. eexists. split; [done|].
              by rewrite lookup_insert_ne.
Qed.

Lemma forOf_records images st w :
  UploadInv st w →
  Uploaded (forOf images (processImage svc storeName imagePageMap) st w).2.
Proof.
  elim: images st w => [|x images IH] st w Hinv.
  - by eapply UploadInv_Uploaded.
  - destruct (processImage_records st x w Hinv) as [Hkept Hok].
    rewrite /= /mbind /IO_bind.
    destruct (processImage svc storeName imagePageMap st x w) as [[st1|e] w1];
      [by apply IH, Hok | done].
Qed.

End Upload.

(** A loop whose body leaves the world alone leaves the world alone. *)
Lemma forOf_world {A S} (body : S → A → IO S) l s w :
  (∀ s x, (body s x w).2 = w) → (forOf l body s w).2 = w.
Proof.
  move=> Hbody. elim: l s => [|x l IH] s //=.
  rewrite /mbind /IO_bind. move: (Hbody s x).
  destruct (body s x w) as [[s'|e] w'] => /= ->; [apply IH | done].
Qed.

Lemma buildImagePageMap_world svc w : (buildImagePageMap svc w).2 = w.
Proof.
  rewrite /buildImagePageMap /mbind /IO_bind /getWorld /=.
  destruct (wikiFiles (fs w)) as [entries|] eqn:Hfiles; last done.
  apply forOf_world => map file.
  rewrite /mbind /IO_bind /readFileSync /=.
  destruct (list_to_map entries !! file) as [[json|]|]; done.
Qed.

(** An image pass that finds the digest of an asset's bytes in the hash
    cache file does not analyse the asset, keeps the record, and reports
    the hash-match skip if it runs to its end. *)
Lemma processImagesToRag_cache_hit svc storeName w dir cache image bytes :
  wikiImages (fs w) = Some dir →
  (list_to_map dir : gmap jsstring (list ascii)) !! image = Some bytes →
  hasImageExtension image = true →
  imageHashCache (fs w) = Some cache →
  cache !! image = Some (md5 svc bytes) →
  let run := processImagesToRag svc storeName w in
  Kept svc image bytes dir (trace w) run.2
  ∧ (∀ r, run.1 = Ok r →
          ∃ new, trace run.2 = trace w ++ new ∧ HashMatchSkipped image ∈ new).
Proof.
  move=> Hdir Hbytes Hext Hcache Hrecord /=.
  have Hkept: Kept svc image bytes dir (trace w) w.
  { split_and!; [done | by exists cache |]. exists []. rewrite app_nil_r.
    split; [done | by move=> /elem_of_nil]. }
  rewrite /processImagesToRag /mbind /IO_bind.
  move: (buildImagePageMap_world svc w).
  destruct (buildImagePageMap svc w) as [[imagePageMap|e] w0] => /= ->;
    last by split.
  rewrite /readdirSync Hdir /= /loadHashCache /mbind /IO_bind /= Hcache /=.
  set images := filter _ _.
  have Hinv: PassInv svc image bytes dir (trace w) []
               (mkImageLoop 0 cache ∅) w.
  { split_and!; [done | done | set_solver | by move=> /elem_of_nil]. }
  destruct (forOf_processImage svc storeName imagePageMap image bytes dir
              Hbytes (trace w) images [] _ w Hinv) as [Hk Hok].
  destruct (forOf images _ _ w) as [[st|e] w1]; rewrite /=; last by split.
  split; [done|]. move=> r _.
  destruct (Hok st eq_refl) as (_ & _ & _ & Hskip). apply Hskip.
  rewrite /= /images. apply list_elem_of_filter. split; [done|].
  apply elem_of_list_to_map_2 in Hbytes.
  by apply (list_elem_of_fmap_2 fst) in Hbytes.
Qed.

(** An image pass records the digest of every image that it analyses,
    unless the upload of the image fails. *)
Lemma processImagesToRag_records svc storeName w dir image bytes :
  wikiImages (fs w) = Some dir →
  (list_to_map dir : gmap jsstring (list ascii)) !! image = Some bytes →
  Uploaded svc image bytes dir (trace w) (processImagesToRag svc storeName w).2.
Proof.
  move=> Hdir Hbytes.
  have Hstart: ∀ st, UploadInv svc image bytes dir (trace w) st w.
  { move=> st. split; [done|]. exists []. rewrite app_nil_r.
    split; [done | by move=> /elem_of_nil]. }
  rewrite /processImagesToRag /mbind /IO_bind.
  move: (buildImagePageMap_world svc w).
  destruct (buildImagePageMap svc w) as [[imagePageMap|e] w0] => /= ->.
  2:{ by eapply UploadInv_Uploaded, (Hstart (mkImageLoop 0 ∅ ∅)). }
  rewrite /readdirSync Hdir /= /loadHashCache /mbind /IO_bind /=.
  set images := filter _ _. set st0 := mkImageLoop _ _ _.
  move: (forOf_records svc storeName imagePageMap image bytes dir Hbytes
           (trace w) images st0 w (Hstart st0)).
  by destruct (forOf images _ _ w) as [[st|e] w1].
Qed.

Lemma eventsOf_app w w' new : trace w' = trace w ++ new → eventsOf w w' = new.
Proof. rewrite /eventsOf => ->. by rewrite drop_app_length. Qed.



End ImagePassFacts.

(** ** The persisted Synonym Index *)

Module SynonymIndexFacts.
Import Env ExtractSynonyms GenerateSynonyms.

(** C5: whatever generateSynonyms leaves in synonyms.json is the value it
    returns, and satisfies the invariant of the index: the terms are
    lowercased, trimmed, not empty and pairwise different; every synonym
    set is not empty, has no duplicates, and its members are lowercased,
    trimmed, not empty and different from the term of their entry. *)
Theorem generateSynonyms_IndexOk svc w out :
  synonymsJson (fs (generateSynonyms svc w).2) = Some out →
  (generateSynonyms svc w).1 = Ok (Some out) ∧ IndexOk out.
Proof.
  rewrite /generateSynonyms /tryCatch /mbind /IO_bind /readdirSync /=.
  destruct (wikiFiles (fs w)) as [entries|]; rewrite /=; last done.
  destruct (runBatches _ _) as [st|]; rewrite /=; last done.
  move=> [<-]. split; [done | apply MergeFacts.mergeResults_IndexOk].
Qed.

Lemma generateSynonyms_IndexOk_witness :
  let out := [mkEntry (str "vpn") [str "tunnel"; str "ipsec"]] in
  synonymsJson (fs (generateSynonyms Scenario.services Scenario.fresh).2)
    = Some out
  ∧ (generateSynonyms Scenario.services Scenario.fresh).1 = Ok (Some out)
  ∧ IndexOk out.
Proof.
  have Hout: synonymsJson (fs (generateSynonyms Scenario.services Scenario.fresh).2)
             = Some [mkEntry (str "vpn") [str "tunnel"; str "ipsec"]]
    by vm_compute.
  split; [exact Hout |].
  exact (generateSynonyms_IndexOk Scenario.services Scenario.fresh _ Hout).
Defined.

End SynonymIndexFacts.


(** ** A sync run starts from an empty hash cache *)

Module SyncCacheFacts.
Import Env GeminiService.

(** *** Rules for [preserves] *)

Lemma preserves_ret {A} P (a : A) : preserves P (mret a).
Proof. by move=> w. Qed.

Lemma preserves_throw {A} P e : preserves P (throw e : IO A).
Proof. by move=> w. Qed.

Lemma preserves_liftResult {A} P (r : Result A) : preserves P (liftResult r).
Proof. by move=> w. Qed.

Lemma preserves_getWorld P : preserves P getWorld.
Proof. by move=> w. Qed.

Lemma preserves_bind {A B} P (m : IO A) (f : A → IO B) :
  preserves P m → (∀ a, preserves P (f a)) → preserves P (m ≫= f).
Proof.
  move=> Hm Hf w Hw. rewrite /mbind /IO_bind. move: (Hm w Hw).
  destruct (m w) as [[a|e] w'] => /= Hw'; [by apply Hf | done].
Qed.

Lemma preserves_tryCatch {A} P (body : IO A) handler :
  preserves P body → (∀ e, preserves P (handler e)) →
  preserves P (tryCatch body handler).
Proof.
  move=> Hb Hh w Hw. rewrite /tryCatch. move: (Hb w Hw).
  destruct (body w) as [[a|e] w'] => /= Hw'; [done | by apply Hh].
Qed.

Lemma preserves_forOf {A S} P (body : S → A → IO S) l s :
  (∀ s x, preserves P (body s x)) → preserves P (forOf l body s).
Proof.
  move=> Hbody. elim: l s => [|x l IH] s /=; first by apply preserves_ret.
  apply preserves_bind; [apply Hbody | apply IH].
Qed.

(** *** What keeps [NoSkip] and [Cleared] *)

Section Before.
Variable before : list Event.

Local Abbreviation NoSkip := (NoSkip before).
Local Abbreviation Cleared := (Cleared before).

Lemma NoSkip_log ev :
  (∀ x, ev ≠ HashMatchSkipped x) → preserves NoSkip (log ev).
Proof.
  move=> Hev w [new [Htrace Hnew]]. exists (new ++ [ev]).
  rewrite /= Htrace app_assoc. split; [done|].
  move=> x /elem_of_app [Hin | /list_elem_of_singleton Heq];
    [by apply (Hnew x) | by apply (Hev x)].
Qed.

Lemma Cleared_log ev :
  (∀ x, ev ≠ HashMatchSkipped x) → preserves Cleared (log ev).
Proof. move=> Hev w [Hc Hn]. split; [done | by apply NoSkip_log]. Qed.

Lemma NoSkip_modify f :
  (∀ w, trace (f w) = trace w) → preserves NoSkip (modify f).
Proof. move=> Hf w [new [Htrace Hnew]]. exists new. by rewrite /= Hf. Qed.

Lemma Cleared_modify f :
  (∀ w, trace (f w) = trace w) →
  (∀ w, imageHashCache (fs w) = None → imageHashCache (fs (f w)) = None) →
  preserves Cleared (modify f).
Proof.
  move=> Ht Hc w [Hcache Hn]. split; [by apply Hc | by apply NoSkip_modify].
Qed.

End Before.

(** Splits a computation along its binds, branches and loops. *)
Ltac preserve :=
  repeat first
    [ match goal with |- ∀ _, _ => intro end
    | apply preserves_ret
    | apply preserves_throw
    | apply preserves_liftResult
    | apply preserves_getWorld
    | apply preserves_bind
    | apply preserves_tryCatch
    | apply preserves_forOf
    | apply Cleared_log; [by intros | ]
    | apply NoSkip_log; [by intros | ]
    | by apply Cleared_log
    | by apply NoSkip_log
    | by apply Cleared_modify
    | by apply NoSkip_modify
    | match goal with
      | |- preserves _ (match ?x with _ => _ end) => destruct x
      | |- preserves _ (if ?b then _ else _) => destruct b
      | |- preserves _ (let _ := _ in _) => cbv zeta
      end ].

Section Sync.
Variable svc : Services.
Variable synonymConfigs : list SynonymConfig.
Variable before : list Event.

Lemma SetUpFileSearchStore_Cleared :
  preserves (Cleared before) (SetUpFileSearchStore svc).
Proof. rewrite /SetUpFileSearchStore /findRagStoreByDisplayName. preserve. Qed.

Lemma generateSynonyms_Cleared :
  preserves (Cleared before) (GenerateSynonyms.generateSynonyms svc).
Proof.
  rewrite /GenerateSynonyms.generateSynonyms /readdirSync. preserve.
Qed.

Lemma uploadTextToRag_Cleared storeName content filename metadata :
  preserves (Cleared before)
    (uploadTextToRag svc storeName content filename metadata).
Proof. rewrite /uploadTextToRag. preserve. Qed.

Lemma uploadTextFile_Cleared storeName n file :
  preserves (Cleared before)
    (uploadTextFile svc synonymConfigs storeName n file).
Proof.
  rewrite /uploadTextFile /readFileSync. preserve.
Qed.

Lemma NoSkip_after w w' evs :
  NoSkip before w → trace w' = trace w ++ evs →
  (∀ x, HashMatchSkipped x ∉ evs) → NoSkip before w'.
Proof.
  move=> [new [Htrace Hnew]] Htrace' Hevs. exists (new ++ evs).
  rewrite Htrace' Htrace app_assoc. split; [done|].
  move=> x /elem_of_app [Hin | Hin]; [by apply (Hnew x) | by apply (Hevs x)].
Qed.

(** A round of the loop of an image pass that started without a hash
    cache file: an image that is not a duplicate has no digest on record,
    so it is analysed. *)
Lemma processImage_fresh storeName imagePageMap st x w :
  FreshInv before st w →
  NoSkip before (processImage svc storeName imagePageMap st x w).2
  ∧ ∀ st', (processImage svc storeName imagePageMap st x w).1 = Ok st' →
           FreshInv before st'
             (processImage svc storeName imagePageMap st x w).2.
Proof.
  move=> [Hkeys Hno].
  have Hboth: ∀ st' w', FreshInv before st' w' →
      NoSkip before w' ∧ ∀ st'', Ok st' = Ok st'' → FreshInv before st'' w'.
  { move=> st' w' H'. split; [by destruct H' | by move=> ? [<-]]. }
  rewrite /processImage. case_bool_decide as Hdup.
  - rewrite /mbind /IO_bind /=. apply Hboth. split; [done|].
    apply (NoSkip_after w _ [RuntimeDuplicateSkipped x]); [done.. |].
    by move=> y /list_elem_of_singleton.
  - rewrite /getImageHash /mbind /IO_bind /getWorld /readFileSync /=.
    destruct (wikiImages (fs w)) as [dir|] eqn:Hdir; rewrite /=; last by split.
    destruct ((list_to_map dir : gmap jsstring (list ascii)) !! x) as [b|] eqn:Hx;
      rewrite /=; last by split.
    have Hnone: hashCache st !! x = None.
    { destruct (hashCache st !! x) eqn:Hl; last done.
      destruct Hdup. apply Hkeys. by rewrite Hl. }
    rewrite bool_decide_false; first by rewrite Hnone.
    rewrite /tryCatch /uploadTextToRag /mbind /IO_bind /getWorld /= Hdir /= Hx /=.
    destruct (uploadToFileSearchStore svc storeName _) as [err|];
      rewrite /=; apply Hboth; split; rewrite /=.
    + move=> y Hy. apply elem_of_union. right. by apply Hkeys.
    + eapply (NoSkip_after w _ [_; _; _; _]); [done | by rewrite /= -!app_assoc |].
      move=> y. rewrite !elem_of_cons elem_of_nil. naive_solver.
    + move=> y. destruct (decide (y = x)) as [-> | Hne]; first set_solver.
      rewrite lookup_insert_ne // => Hy. apply elem_of_union. right.
      by apply Hkeys.
    + eapply (NoSkip_after w _ [_; _; _]); [done | by rewrite /= -!app_assoc |].
      move=> y. rewrite !elem_of_cons elem_of_nil. naive_solver.
Qed.

Lemma forOf_processImage_fresh storeName imagePageMap images st w :
  FreshInv before st w →
  NoSkip before
    (forOf images (processImage svc storeName imagePageMap) st w).2.
Proof.
  elim: images st w => [|x images IH] st w Hinv; first by destruct Hinv.
  destruct (processImage_fresh storeName imagePageMap st x w Hinv) as [Hno Hok].
  rewrite /= /mbind /IO_bind.
  destruct (processImage svc storeName imagePageMap st x w) as [[st1|e] w1];
    [by apply IH, Hok | done].
Qed.

Lemma processImagesToRag_fresh storeName w :
  Cleared before w → NoSkip before (processImagesToRag svc storeName w).2.
Proof.
  move=> [Hcache Hno]. rewrite /processImagesToRag /mbind /IO_bind.
  move: (ImagePassFacts.buildImagePageMap_world svc w).
  destruct (buildImagePageMap svc w) as [[imagePageMap|e] w0] => /= ->;
    last done.
  rewrite /readdirSync. destruct (wikiImages (fs w)) as [dir|]; rewrite /=;
    last done.
  rewrite Hcache /=. set images := filter _ _.
  have Hinv: FreshInv before (mkImageLoop 0 ∅ ∅) w.
  { split; [|done]. move=> x. rewrite lookup_empty. by move=> [? ?]. }
  move: (forOf_processImage_fresh storeName imagePageMap images _ w Hinv).
  by destruct (forOf images _ _ w) as [[st|e] w1].
Qed.

End Sync.

Lemma clearImageHashCache_Cleared before w :
  NoSkip before w → Cleared before (clearImageHashCache w).2.
Proof.
  move=> Hno. rewrite /clearImageHashCache /mbind /IO_bind /getWorld /=.
  destruct (imageHashCache (fs w)) as [cache|] eqn:Hcache; rewrite /=;
    last done.
  split; [done|]. eapply (NoSkip_after _ w _ [_]); [done.. |].
  by move=> x /list_elem_of_singleton.
Qed.

(** The part of a sync run after the validation. *)
Lemma sync_after_validation svc synonymConfigs before textFiles w :
  NoSkip before w →
  NoSkip before
    ((clearImageHashCache;;
      storeName ← SetUpFileSearchStore svc;
      _ ← GenerateSynonyms.generateSynonyms svc;
      textFilesUploaded ←
        forOf textFiles (uploadTextFile svc synonymConfigs storeName) 0;
      imagesProcessed ← processImagesToRag svc storeName;
      log SyncComplete;;
      mret (Some (mkSyncResult (str "IT_Wiki RAG store updated")
                    textFilesUploaded imagesProcessed.1 storeName))) w).2.
Proof.
  move=> Hno. rewrite /mbind /IO_bind.
  move: (clearImageHashCache_Cleared before w Hno).
  destruct (clearImageHashCache w) as [[[]|e] w1] => /= H1; last by destruct H1.
  move: (SetUpFileSearchStore_Cleared svc before w1 H1).
  destruct (SetUpFileSearchStore svc w1) as [[storeName|e] w2] => /= H2;
    last by destruct H2.
  move: (generateSynonyms_Cleared svc before w2 H2).
  destruct (GenerateSynonyms.generateSynonyms svc w2) as [[r|e] w3] => /= H3;
    last by destruct H3.
  have Hloop: preserves (Cleared before)
                (forOf textFiles (uploadTextFile svc synonymConfigs storeName) 0).
  { apply preserves_forOf => n file. apply uploadTextFile_Cleared. }
  move: (Hloop w3 H3).
  destruct (forOf textFiles _ 0 w3) as [[n|e] w4] => /= H4; last by destruct H4.
  move: (processImagesToRag_fresh svc before storeName w4 H4).
  destruct (processImagesToRag svc storeName w4) as [[images|e] w5] => /= H5;
    last done.
  eapply (NoSkip_after _ w5 _ [_]); [done.. |].
  by move=> x /list_elem_of_singleton.
Qed.

(** A sync run never reports a hash-match skip: it either stops before its
    image pass, or clears the hash cache file first. *)
Lemma syncWikiToGeminiRag_never_skips svc synonymConfigs w image :
  HashMatchSkipped image
  ∉ eventsOf w (syncWikiToGeminiRag svc synonymConfigs w).2.
Proof.
  have Hstart: ∀ w' : World, trace w' = trace w → NoSkip (trace w) w'.
  { move=> w' Htrace. exists []. rewrite Htrace app_nil_r.
    split; [done | by move=> x /elem_of_nil]. }
  have Hw: NoSkip (trace w) w by apply Hstart.
  have Hrun: NoSkip (trace w) (syncWikiToGeminiRag svc synonymConfigs w).2.
  { rewrite /syncWikiToGeminiRag {1}/mbind {1}/IO_bind /getWorld.
    destruct (syncRunning w) eqn:Hflag.
    { eapply (NoSkip_after _ w _ [_]); [done.. |].
      by move=> x /list_elem_of_singleton. }
    rewrite /finally /tryCatch {1 2}/mbind {1 2}/IO_bind /=.
    rewrite {1}/mbind {1}/IO_bind /=.
    destruct (wikiFiles (fs w)) as [entries|] eqn:Hfiles; rewrite /=; last first.
    { eapply (NoSkip_after _ w _ [_]); [done.. |].
      by move=> x /list_elem_of_singleton. }
    case_bool_decide as Hempty; rewrite /=.
    { eapply (NoSkip_after _ w _ [_]); [done.. |].
      by move=> x /list_elem_of_singleton. }
    set w0 := setAi true (setSyncRunning true w).
    have Hbody := λ textFiles,
      sync_after_validation svc synonymConfigs (trace w) textFiles w0
        (Hstart w0 eq_refl).
    match goal with
    | |- context [forOf ?textFiles _ 0] => move: (Hbody textFiles)
    end.
    destruct ((clearImageHashCache ≫= _) w0) as [[r|e] w5]; rewrite /=.
    - move=> [new [Htrace Hnew]]. exists new. by rewrite /= Htrace.
    - move=> Hno. eapply (NoSkip_after _ w5 _ [_]); [done.. |].
      by move=> x /list_elem_of_singleton. }
  destruct Hrun as [new [Htrace Hnew]].
  rewrite (ImagePassFacts.eventsOf_app _ _ _ Htrace). apply Hnew.
Qed.

End SyncCacheFacts.

(** ** Response Chunker: the shape of the chunks *)

Module SlackChunkFacts.
Import JS JSFacts SlackController SlackControllerFacts.

Lemma cut_bound maxSize remaining : length (cut maxSize remaining) ≤ maxSize.
Proof.
  rewrite /cut !slice_0.
  case: (_ && _); rewrite ?take_take !length_take; lia.
Qed.

(** What holds of every slice the loop pushes holds of all the parts it
    returns, and the loop leaves at most [maxSize] units. *)
Lemma splitLoop_Forall (P : jsstring → Prop) maxSize :
  (∀ remaining, maxSize < length remaining → P (cut maxSize remaining)) →
  ∀ fuel parts remaining parts' remaining',
    splitLoop fuel maxSize parts remaining = Some (parts', remaining') →
    Forall P parts →
    Forall P parts' ∧ length remaining' ≤ maxSize.
Proof.
  move=> Hcut. elim=> [|fuel IH] parts remaining parts' remaining' //.
  rewrite splitLoop_unfold. case_bool_decide as Hlen.
  - move=> Hrun Hparts. apply (IH _ _ _ _ Hrun).
    apply Forall_app. split; [done | constructor; [by apply Hcut | done]].
  - move=> [<- <-] Hparts. split; [done | lia].
Qed.

(** [lastIndexOf] returns [found] or a position where [sub] occurs. *)
Lemma lastIndexOfFrom_spec s sub i found :
  lastIndexOfFrom s sub i found = found ∨
  ∃ k, lastIndexOfFrom s sub i found = (i + Z.of_nat k)%Z ∧ k ≤ length s ∧
       startsWith (drop k s) sub = true.
Proof.
  elim: s i found => [|c s IH] i found.
  - rewrite /=. destruct sub; [right | by left].
    exists 0. rewrite Z.add_0_r /=. split_and!; [done | lia | done].
  - change (lastIndexOfFrom (c :: s) sub i found)
      with (lastIndexOfFrom s sub (i + 1)
              (if startsWith (c :: s) sub then i else found)).
    destruct (IH (i + 1)%Z (if startsWith (c :: s) sub then i else found))
      as [-> | (k & -> & Hk & Hsub)].
    + case Hs: (startsWith (c :: s) sub); [right | by left].
      exists 0. rewrite Z.add_0_r /=. split_and!; [done | lia | done].
    + right. exists (S k). split_and!; [lia | simpl; lia | done].
Qed.

Lemma lastIndexOf_period_at s :
  lastIndexOf s (str ".") ≠ (-1)%Z →
  ∃ k, lastIndexOf s (str ".") = Z.of_nat k ∧ s !! k = Some "."%char.
Proof.
  rewrite /lastIndexOf => Hfound.
  destruct (lastIndexOfFrom_spec s (str ".") 0 (-1)) as [? | (k & Hk & _ & Hsub)];
    first done.
  exists k. split; first by rewrite Hk Z.add_0_l.
  rewrite -(Nat.add_0_r k) -lookup_drop.
  destruct (drop k s) as [|c rest]; first done.
  move: Hsub => /=. case_bool_decide as Hc; last done. by rewrite Hc.
Qed.

(** A slice pushed by the loop is [maxSize] units long, or it ends with a
    period that lies beyond position 2000 of the slice. *)
Lemma cut_shape maxSize remaining :
  maxSize < length remaining →
  length (cut maxSize remaining) = maxSize ∨
  (2001 < length (cut maxSize remaining) ∧
   last (cut maxSize remaining) = Some "."%char).
Proof.
  move=> Hlen. rewrite /cut !slice_0.
  case Hc: (_ && _); last by left; rewrite length_take; lia.
  move: Hc => /andb_prop [/negb_true_iff /bool_decide_eq_false Hfound
                          /bool_decide_eq_true Hfar].
  destruct (lastIndexOf_period_at _ Hfound) as (k & Hk & Hdot).
  rewrite Hk in Hfar |- *.
  have Hin := lookup_lt_Some _ _ _ Hdot. rewrite length_take in Hin.
  replace (Z.to_nat (Z.of_nat k + 1)) with (S k) by lia.
  right. rewrite last_lookup !length_take.
  split; first lia.
  rewrite Nat.min_l; first lia.
  rewrite /= lookup_take_lt; [lia | done].
Qed.

(** The parts add up to the text when the rest has no whitespace for
    [trim] to remove. *)
Lemma trim_no_whitespace s :
  Forall (λ c, isWhiteSpace c = false) s → trim s = s.
Proof.
  have Hstart: ∀ t, Forall (λ c, isWhiteSpace c = false) t → trimStart t = t.
  { move=> [|c t] //= /Forall_cons [-> _] //. }
  move=> Hs. rewrite /trim /trimEnd (Hstart s) // Hstart.
  - by apply Forall_reverse.
  - by rewrite reverse_involutive.
Qed.

Lemma splitLoop_concat maxSize fuel parts remaining parts' remaining' :
  Forall (λ c, isWhiteSpace c = false) remaining →
  splitLoop fuel maxSize parts remaining = Some (parts', remaining') →
  concat parts' ++ remaining' = concat parts ++ remaining.
Proof.
  elim: fuel parts remaining => [|fuel IH] parts remaining // Hrem.
  rewrite splitLoop_unfold. case_bool_decide as Hlen; last by move=> [<- <-].
  have Hrest: Forall (λ c, isWhiteSpace c = false)
                (sliceFrom remaining (length (cut maxSize remaining))).
  { by apply Forall_drop. }
  rewrite trim_no_whitespace // => Hrun.
  rewrite (IH _ _ Hrest Hrun) concat_app /= app_nil_r -app_assoc.
  by rewrite -cut_prefix.
Qed.

(** X1: with a positive maxSize, no chunk returned by
    splitIntoSlackChunks is empty and none is longer than maxSize. *)
Theorem splitIntoSlackChunks_chunk_size fuel text maxSize parts :
  0 < maxSize →
  splitIntoSlackChunks fuel text maxSize = Some parts →
  Forall (λ chunk, 0 < length chunk ≤ maxSize) parts.
Proof.
  move=> Hpos. rewrite /splitIntoSlackChunks.
  destruct (splitLoop fuel maxSize [] text) as [[ps remaining]|] eqn:Hrun;
    last done.
  move=> [<-].
  have Hcut: ∀ r, maxSize < length r → 0 < length (cut maxSize r) ≤ maxSize.
  { move=> r Hr. split; [by apply cut_length | apply cut_bound]. }
  destruct (splitLoop_Forall (λ chunk, 0 < length chunk ≤ maxSize)
              maxSize Hcut _ _ _ _ _ Hrun) as [Hps Hrem]; first done.
  case_bool_decide; last done.
  apply Forall_app. split; [done | constructor; [lia | done]].
Qed.

Lemma splitIntoSlackChunks_chunk_size_witness :
  Forall (λ chunk, 0 < length chunk ≤ 3) [str "abc"; str "def"].
Proof.
  apply (splitIntoSlackChunks_chunk_size 8 (str "abc def") 3);
    [lia | reflexivity].
Defined.

(** X2: on a text without whitespace splitIntoSlackChunks loses nothing:
    the chunks, concatenated, are the text. *)
Theorem splitIntoSlackChunks_exact fuel text maxSize parts :
  Forall (λ c, isWhiteSpace c = false) text →
  splitIntoSlackChunks fuel text maxSize = Some parts →
  concat parts = text.
Proof.
  move=> Htext. rewrite /splitIntoSlackChunks.
  destruct (splitLoop fuel maxSize [] text) as [[ps remaining]|] eqn:Hrun;
    last done.
  move=> [<-]. have Hsum := splitLoop_concat _ _ _ _ _ _ Htext Hrun.
  rewrite /= in Hsum. rewrite -Hsum.
  case_bool_decide as Hrem.
  - by rewrite concat_app /= app_nil_r.
  - destruct remaining; [by rewrite app_nil_r | simpl in Hrem; lia].
Qed.

Lemma splitIntoSlackChunks_exact_witness :
  concat [str "abc"; str "def"; str "g"] = str "abcdefg".
Proof.
  apply (splitIntoSlackChunks_exact 8 (str "abcdefg") 3);
    [by repeat constructor | reflexivity].
Defined.



End SlackChunkFacts.

(** ** Batch Extraction Engine: document chunks and batches *)

Module DocChunkFacts.
Import JS JSFacts ExtractSynonyms BatchFacts.

Local Opaque MAX_CHARS_PER_BATCH.

(** What the loop of splitDocIntoChunks has established when it tests
    its condition. *)
Lemma splitDocLoop_spec doc fuel chunks start index :
  length (text doc) - start < fuel →
  start = length chunks * MAX_CHARS_PER_BATCH →
  index = S (length chunks) →
  concat (text <$> chunks) = take start (text doc) →
  Forall (λ u, 0 < length (text u) ≤ MAX_CHARS_PER_BATCH) chunks →
  (∀ i u, chunks !! i = Some u →
          name u = name doc ++ str "#" ++ decimal (S i)) →
  (∀ i u, chunks !! i = Some u → S i < length chunks →
          length (text u) = MAX_CHARS_PER_BATCH) →
  (start ≤ length (text doc) →
   Forall (λ u, length (text u) = MAX_CHARS_PER_BATCH) chunks) →
  ∃ out,
    splitDocLoop fuel doc chunks start index = Some out ∧
    concat (text <$> out) = text doc ∧
    Forall (λ u, 0 < length (text u) ≤ MAX_CHARS_PER_BATCH) out ∧
    (∀ i u, out !! i = Some u →
            name u = name doc ++ str "#" ++ decimal (S i)) ∧
    (∀ i u, out !! i = Some u → S i < length out →
            length (text u) = MAX_CHARS_PER_BATCH).
Proof.
  have Hpos := MAX_CHARS_PER_BATCH_pos.
  elim: fuel chunks start index => [|fuel IH] chunks start index Hfuel;
    first lia.
  move=> Hstart Hindex Hcat Hsize Hnames Hfull Hall.
  rewrite /=. case_bool_decide as Hlt.
  - set c := {| name := _; text := _ |}.
    have Hc: length (text c) = MAX_CHARS_PER_BATCH `min` (length (text doc) - start).
    { rewrite /c /= /slice length_take length_drop. lia. }
    apply IH.
    + lia.
    + rewrite length_app /=. lia.
    + rewrite length_app /=. lia.
    + rewrite fmap_app concat_app /= app_nil_r Hcat /slice -take_take_drop.
      do 3 f_equal. lia.
    + apply Forall_app. split; [done | constructor; [lia | done]].
    + move=> i u /lookup_app_Some [Hi | [Hge Hi]]; first by apply Hnames.
      destruct (i - length chunks) as [|?] eqn:Hd; last done.
      move: Hi => [<-]. rewrite /c /= Hindex.
      by replace i with (length chunks) by lia.
    + move=> i u Hi. rewrite length_app /= => Hlast.
      rewrite lookup_app_l in Hi; first lia.
      apply (proj1 (Forall_lookup _ _) (Hall ltac:(lia)) i u Hi).
    + move=> Hnext. apply Forall_app. split; first (apply Hall; lia).
      constructor; [lia | done].
  - exists chunks. split_and!; [done | | done..].
    rewrite Hcat take_ge //. lia.
Qed.

(** X4: splitDocIntoChunks cuts at fixed positions and loses nothing:
    it returns, the chunk texts concatenated are the text of the
    document, no chunk is empty or longer than MAX_CHARS_PER_BATCH,
    every chunk but the last is exactly MAX_CHARS_PER_BATCH long, and
    chunk number i (from 1) is named name#i. *)
Theorem splitDocIntoChunks_partition doc :
  ∃ chunks,
    splitDocIntoChunks doc = Some chunks ∧
    concat (text <$> chunks) = text doc ∧
    Forall (λ u, 0 < length (text u) ≤ MAX_CHARS_PER_BATCH) chunks ∧
    (∀ i u, chunks !! i = Some u →
            name u = name doc ++ str "#" ++ decimal (S i)) ∧
    (∀ i u, chunks !! i = Some u → S i < length chunks →
            length (text u) = MAX_CHARS_PER_BATCH).
Proof.
  apply splitDocLoop_spec; try done; lia.
Qed.

Section Batches.
Variable extractBatch : list Doc → list (option RawEntry).

Lemma insertUnit_within st sub :
  length (text sub) ≤ MAX_CHARS_PER_BATCH →
  size st = batchChars (batch st) ∧
  batchChars (batch st) ≤ MAX_CHARS_PER_BATCH ∧
  Forall (λ b, b ≠ [] ∧ batchChars b ≤ MAX_CHARS_PER_BATCH) (calls st) ∧
  results st = concat (extractBatch <$> calls st) →
  let st' := insertUnit extractBatch st sub in
  size st' = batchChars (batch st') ∧
  batchChars (batch st') ≤ MAX_CHARS_PER_BATCH ∧
  Forall (λ b, b ≠ [] ∧ batchChars b ≤ MAX_CHARS_PER_BATCH) (calls st') ∧
  results st' = concat (extractBatch <$> calls st').
Proof.
  move=> Hsub [Hsize [Hle [Hcalls Hres]]]. rewrite /insertUnit.
  case_bool_decide as Hover; rewrite /=.
  - split_and!.
    + rewrite /batchChars /=. lia.
    + rewrite /batchChars /=. lia.
    + apply Forall_app. split; [done | constructor; [|done]].
      split; [| done]. move=> Hnil. rewrite Hsize Hnil /batchChars /= in Hover.
      lia.
    + by rewrite fmap_app concat_app /= app_nil_r Hres.
  - rewrite batchChars_snoc. split_and!; [lia | lia | done | done].
Qed.

Lemma insertUnits_within subs st :
  Forall (λ u, length (text u) ≤ MAX_CHARS_PER_BATCH) subs →
  size st = batchChars (batch st) ∧
  batchChars (batch st) ≤ MAX_CHARS_PER_BATCH ∧
  Forall (λ b, b ≠ [] ∧ batchChars b ≤ MAX_CHARS_PER_BATCH) (calls st) ∧
  results st = concat (extractBatch <$> calls st) →
  let st' := foldl (insertUnit extractBatch) st subs in
  size st' = batchChars (batch st') ∧
  batchChars (batch st') ≤ MAX_CHARS_PER_BATCH ∧
  Forall (λ b, b ≠ [] ∧ batchChars b ≤ MAX_CHARS_PER_BATCH) (calls st') ∧
  results st' = concat (extractBatch <$> calls st').
Proof.
  elim: subs st => [|sub subs IH] st //= /Forall_cons [Hsub Hsubs] Hinv.
  by apply IH, insertUnit_within.
Qed.

Lemma insertDocs_within docs st :
  size st = batchChars (batch st) ∧
  batchChars (batch st) ≤ MAX_CHARS_PER_BATCH ∧
  Forall (λ b, b ≠ [] ∧ batchChars b ≤ MAX_CHARS_PER_BATCH) (calls st) ∧
  results st = concat (extractBatch <$> calls st) →
  ∃ st', foldl (insertDoc extractBatch) (Some st) docs = Some st' ∧
    size st' = batchChars (batch st') ∧
    batchChars (batch st') ≤ MAX_CHARS_PER_BATCH ∧
    Forall (λ b, b ≠ [] ∧ batchChars b ≤ MAX_CHARS_PER_BATCH) (calls st') ∧
    results st' = concat (extractBatch <$> calls st').
Proof.
  elim: docs st => [|doc docs IH] st Hinv /=; first by exists st.
  destruct (docsToInsert_total doc) as (subs & -> & Hsubs). rewrite /=.
  by apply IH, insertUnits_within.
Qed.

(** X5: generateSynonyms never submits an empty batch, and never one
    of more than MAX_CHARS_PER_BATCH characters; the extracted entries
    are the answers to the submitted batches, in the order of
    submission. *)
Theorem generateSynonyms_batches_nonempty wikiDocs :
  ∃ st,
    runBatches extractBatch wikiDocs = Some st ∧
    Forall (λ b, b ≠ [] ∧ batchChars b ≤ MAX_CHARS_PER_BATCH) (calls st) ∧
    results st = concat (extractBatch <$> calls st).
Proof.
  destruct (insertDocs_within wikiDocs (mkBatchState [] [] [] 0))
    as (st & Hrun & Hsize & Hle & Hcalls & Hres).
  { rewrite /batchChars /=. split_and!; [done | lia | done | done]. }
  rewrite /runBatches Hrun /=. eexists. split; first done.
  rewrite /finalBatch. case_bool_decide as Hne; last done.
  rewrite /= fmap_app concat_app /= app_nil_r Hres. split; last done.
  apply Forall_app. split; [done | constructor; [|done]].
  split; [| done]. move=> Hnil. rewrite Hnil /= in Hne. lia.
Qed.

End Batches.

End DocChunkFacts.

(** ** Batch Extraction Engine: what the merge step keeps *)

Module MergeUnionFacts.
Import JS JSFacts ExtractSynonyms MergeFacts.

Local Arguments mergeEntry : simpl never.

Lemma elem_of_setAdd_iff set x y : y ∈ setAdd set x ↔ y ∈ set ∨ y = x.
Proof.
  rewrite /setAdd. case_bool_decide as Hin.
  - split; [by left | by move=> [? | ->]].
  - rewrite elem_of_app list_elem_of_singleton //.
Qed.

(** The pairs (term, synonym) of a term map, after one [add]. *)
Lemma mapAdd_pairs k m x t s :
  (∃ syns, (t, syns) ∈ mapAdd k m x ∧ s ∈ syns) ↔
  (∃ syns, (t, syns) ∈ m ∧ s ∈ syns) ∨ (t = k ∧ s = x ∧ k ∈ m.*1).
Proof.
  rewrite /mapAdd. split.
  - move=> [syns [/list_elem_of_fmap [[t0 syns0] [Heq Hin]] Hs]].
    move: Heq => /=. case_bool_decide as Hk.
    + move=> [? ?]; subst t syns k.
      move: Hs => /elem_of_setAdd_iff [Hs | ->]; first by left; eauto.
      right. split_and!; [done..|].
      apply list_elem_of_fmap. by exists (t0, syns0).
    + move=> [? ?]; subst t syns. left. eauto.
  - move=> [[syns [Hin Hs]] | [-> [-> /list_elem_of_fmap [[t0 syns0] [/= -> Hin]]]]].
    + destruct (decide (t = k)) as [-> | Hk].
      * exists (setAdd syns x). split; last by apply elem_of_setAdd_iff; left.
        apply list_elem_of_fmap. exists (k, syns).
        by rewrite /= bool_decide_eq_true_2.
      * exists syns. split; last done.
        apply list_elem_of_fmap. exists (t, syns).
        by rewrite /= bool_decide_eq_false_2.
    + exists (setAdd syns0 x). split; last by apply elem_of_setAdd_iff; right.
      apply list_elem_of_fmap. exists (t0, syns0).
      by rewrite /= bool_decide_eq_true_2.
Qed.

Lemma mapAdds_pairs k xs m t s :
  (∃ syns, (t, syns) ∈ foldl (mapAdd k) m xs ∧ s ∈ syns) ↔
  (∃ syns, (t, syns) ∈ m ∧ s ∈ syns) ∨ (t = k ∧ s ∈ xs ∧ k ∈ m.*1).
Proof.
  elim: xs m => [|x xs IH] m /=.
  - split; [by left | move=> [// | [_ [/elem_of_nil [] _]]]].
  - rewrite IH mapAdd_pairs mapAdd_keys elem_of_cons. naive_solver.
Qed.

(** One extraction result adds to the term map the synonyms it has for
    its term, both normalised, and nothing else. *)
Lemma mergeEntry_pairs m entry t s :
  (∃ syns, (t, syns) ∈ mergeEntry m entry ∧ s ∈ syns) ↔
  (∃ syns, (t, syns) ∈ m ∧ s ∈ syns) ∨
  (∃ e raw syns s0,
     entry = Some e ∧ rawTerm e = Some raw ∧ rawSynonyms e = Some syns ∧
     s0 ∈ syns ∧ t = toLowerCase (trim raw) ∧ s = toLowerCase (trim s0) ∧
     t ≠ [] ∧ s ≠ [] ∧ s ≠ t).
Proof.
  rewrite /mergeEntry.
  destruct entry as [[[raw|] syns]|]; rewrite /=; [| naive_solver..].
  destruct (truthy raw) eqn:Hraw; rewrite /=; last first.
  { destruct raw; naive_solver. }
  destruct (truthy (toLowerCase (trim raw))) eqn:Hterm; rewrite /=; last first.
  { move: Hterm. destruct (toLowerCase (trim raw)) eqn:Heq; naive_solver. }
  move: Hterm => /truthy_ne Hterm.
  set k := toLowerCase (trim raw) in Hterm |- *.
  set m' := if mapHas m k then m else m ++ [(k, [])].
  have Hkey: k ∈ m'.*1.
  { rewrite /m' /mapHas. case_bool_decide; first done.
    rewrite fmap_app elem_of_app /=. right. by left. }
  have Hm': (∃ syns0, (t, syns0) ∈ m' ∧ s ∈ syns0)
            ↔ (∃ syns0, (t, syns0) ∈ m ∧ s ∈ syns0).
  { rewrite /m'. destruct (mapHas m k); first done.
    split.
    - move=> [syns0 [/elem_of_app [Hin | /list_elem_of_singleton [_ ->]] Hs]];
        [eauto | by apply elem_of_nil in Hs].
    - move=> [syns0 [Hin Hs]]. exists syns0. split; [|done].
      apply elem_of_app. by left. }
  destruct syns as [syns|]; last first.
  { rewrite Hm'. naive_solver. }
  rewrite mapAdds_pairs Hm'. split.
  - move=> [? | [Ht [Hin _]]]; first by left.
    apply list_elem_of_filter in Hin as [[Hne Hnk] Hin].
    apply list_elem_of_fmap in Hin as [s0 [Hs Hs0]].
    apply length_pos_ne in Hne.
    right. exists (mkRaw (Some raw) (Some syns)), raw, syns, s0.
    rewrite Ht. by split_and!.
  - intros [? | (e & raw' & syns' & s0 & [= <-] & [= <-] & [= <-] & Hs0
                  & -> & -> & _ & Hne & Hnk)]; first by left.
    right. split_and!; [done | | done].
    apply list_elem_of_filter. split; first by split; [apply length_pos_ne|].
    apply list_elem_of_fmap. by exists s0.
Qed.

Lemma mergeEntries_pairs results m t s :
  (∃ syns, (t, syns) ∈ foldl mergeEntry m results ∧ s ∈ syns) ↔
  (∃ syns, (t, syns) ∈ m ∧ s ∈ syns) ∨
  (∃ e raw syns s0,
     Some e ∈ results ∧ rawTerm e = Some raw ∧ rawSynonyms e = Some syns ∧
     s0 ∈ syns ∧ t = toLowerCase (trim raw) ∧ s = toLowerCase (trim s0) ∧
     t ≠ [] ∧ s ≠ [] ∧ s ≠ t).
Proof.
  elim: results m => [|entry results IH] m /=.
  - split; [by left | intros [? | (? & ? & ? & ? & Hin & _)]]; first done.
    by apply elem_of_nil in Hin.
  - rewrite IH mergeEntry_pairs. split.
    + intros [[? | (e & raw & syns & s0 & -> & H)]
              | (e & raw & syns & s0 & Hin & H)].
      * by left.
      * right. exists e, raw, syns, s0. split; [by left | done].
      * right. exists e, raw, syns, s0. split; [by right | done].
    + intros [? | (e & raw & syns & s0 & Hin & H)]; first by left; left.
      apply elem_of_cons in Hin as [<- | Hin].
      * left. right. by exists e, raw, syns, s0.
      * right. by exists e, raw, syns, s0.
Qed.

(** X6: the merge step loses nothing and invents nothing: the index has
    the synonym s under the term t exactly when some extraction result
    has a term that normalises (trim, lower case) to t, not empty, and
    lists a synonym that normalises to s, not empty and different
    from t. *)
Theorem mergeResults_union results t s :
  (∃ x, x ∈ mergeResults results ∧ term x = t ∧ s ∈ synonyms x) ↔
  (∃ e raw syns s0,
     Some e ∈ results ∧ rawTerm e = Some raw ∧ rawSynonyms e = Some syns ∧
     s0 ∈ syns ∧ t = toLowerCase (trim raw) ∧ s = toLowerCase (trim s0) ∧
     t ≠ [] ∧ s ≠ [] ∧ s ≠ t).
Proof.
  have <-: (∃ syns, (t, syns) ∈ foldl mergeEntry [] results ∧ s ∈ syns) ↔
           (∃ e raw syns s0,
              Some e ∈ results ∧ rawTerm e = Some raw ∧
              rawSynonyms e = Some syns ∧ s0 ∈ syns ∧
              t = toLowerCase (trim raw) ∧ s = toLowerCase (trim s0) ∧
              t ≠ [] ∧ s ≠ [] ∧ s ≠ t).
  { rewrite mergeEntries_pairs. split; [| by right].
    move=> [[syns [Hin _]] | //]. by apply elem_of_nil in Hin. }
  rewrite /mergeResults /finalOutput. split.
  - move=> [x [/list_elem_of_filter [_ /list_elem_of_fmap [[t0 syns] [-> Hin]]]
              [/= <- Hs]]].
    by exists syns.
  - move=> [syns [Hin Hs]]. exists (mkEntry t syns). split_and!; [|done..].
    apply list_elem_of_filter. split.
    + rewrite /=. destruct syns; [by apply elem_of_nil in Hs | simpl; lia].
    + apply list_elem_of_fmap. by exists (t, syns).
Qed.

End MergeUnionFacts.

Module RelevantSynonymsFacts.
Import Env JS RewriteQuery SynonymLookupFacts.

Lemma findRelevantSynonyms_foldl (hit : SynonymEntry → bool) entries matches :
  foldl (λ matches entry, if hit entry then matches ++ [entry] else matches)
    matches entries
  = matches ++ filter (λ entry, hit entry = true) entries.
Proof.
  elim: entries matches => [|entry entries IH] matches /=.
  - by rewrite app_nil_r.
  - rewrite IH filter_cons.
    destruct (hit entry) eqn:Hhit; case_decide; try done.
    by rewrite -app_assoc.
Qed.

Lemma findRelevantSynonyms_sublist synonymEntries question :
  findRelevantSynonyms synonymEntries question `sublist_of` synonymEntries.
Proof.
  rewrite /findRelevantSynonyms.
  rewrite (findRelevantSynonyms_foldl
             (λ entry,
                includes (toLowerCase question) (toLowerCase (term entry))
                || match synonyms entry with
                   | Some syns =>
                       existsb (λ s, includes (toLowerCase question)
                                       (toLowerCase s)) syns
                   | None => false
                   end)) /=.
  apply sublist_filter.
Qed.

(** X7: findRelevantSynonyms keeps the entries of the index, in the order
    of the index, whose term occurs in the question or that have a
    synonym that occurs in it, letter case ignored; an entry without a
    synonym array is matched on its term alone. *)
Theorem findRelevantSynonyms_selects synonymEntries question :
  findRelevantSynonyms synonymEntries question `sublist_of` synonymEntries
  ∧ ∀ entry,
      entry ∈ findRelevantSynonyms synonymEntries question ↔
      entry ∈ synonymEntries
      ∧ ((∃ pre post,
            toLowerCase question = pre ++ toLowerCase (term entry) ++ post)
         ∨ ∃ syns s pre post,
             synonyms entry = Some syns ∧ s ∈ syns
             ∧ toLowerCase question = pre ++ toLowerCase s ++ post).
Proof.
  rewrite /findRelevantSynonyms.
  rewrite (findRelevantSynonyms_foldl
             (λ entry,
                includes (toLowerCase question) (toLowerCase (term entry))
                || match synonyms entry with
                   | Some syns =>
                       existsb (λ s, includes (toLowerCase question)
                                       (toLowerCase s)) syns
                   | None => false
                   end)) /=.
  split; first apply sublist_filter.
  move=> entry. rewrite list_elem_of_filter orb_true_iff includes_spec.
  split.
  - move=> [[Hterm | Hsyn] Hin]; (split; first done); first by left.
    right. destruct (synonyms entry) as [syns|]; last done.
    apply existsb_exists in Hsyn as [s [Hs Hhit]].
    apply includes_spec in Hhit as [pre [post Heq]].
    exists syns, s, pre, post. split_and!; [done | | done].
    by apply list_elem_of_In.
  - intros [Hin [Hterm | (syns & s & pre & post & -> & Hs & Heq)]];
      (split; last done); first by left.
    right. apply existsb_exists. exists s. split; first by apply list_elem_of_In.
    apply includes_spec. by exists pre, post.
Qed.

(** X19: with an index whose entries all have a synonym array, as
    generateSynonyms writes them, building the synonym context does not
    throw; the rewrite step then makes exactly one model call, throws
    what that call throws and nothing else, and otherwise returns the
    text of the model, trimmed. *)
Theorem rewriteUserQuestionForFileSearch_total svc synonymEntries question w :
  Forall (λ entry, is_Some (synonyms entry)) synonymEntries →
  ∃ context,
    buildSynonymContext (findRelevantSynonyms synonymEntries question)
      = Ok context
    ∧ rewriteUserQuestionForFileSearch svc synonymEntries question w
      = (match rewriteGenerate svc (promptFor context question) with
         | Ok res => Ok (trim res)
         | Throw e => Throw e
         end,
         mkWorld (syncRunning w) (ai w) (fs w) (stores w)
           (trace w ++ [RewriteCall (promptFor context question)])).
Proof.
  move=> Harrays.
  have Hrel: Forall (λ entry, is_Some (synonyms entry))
               (findRelevantSynonyms synonymEntries question).
  { apply Forall_forall => entry Hin.
    apply (proj1 (Forall_forall _ _) Harrays).
    by apply (elem_of_sublist _ _ _ Hin (findRelevantSynonyms_sublist _ _)). }
  have Hctx: ∃ context,
      buildSynonymContext (findRelevantSynonyms synonymEntries question)
      = Ok context.
  { rewrite /buildSynonymContext. case_bool_decide; first by eexists.
    destruct (mapM _ _) as [lines|] eqn:Hlines; first by eexists.
    have: is_Some
            (mapM (λ e, (λ syns, str "- " ++ term e ++ str ": "
                                 ++ join (str ", ") syns) <$> synonyms e)
               (findRelevantSynonyms synonymEntries question)).
    { apply mapM_is_Some. eapply Forall_impl; first exact Hrel.
      move=> entry [syns Hs]. rewrite /compose /= Hs /=. by eexists. }
    rewrite Hlines. by move=> [? ?]. }
  destruct Hctx as [context Hctx]. exists context. split; first done.
  rewrite /rewriteUserQuestionForFileSearch /mbind /IO_bind /liftResult Hctx /=.
  by destruct (rewriteGenerate svc (promptFor context question)).
Qed.

Lemma rewriteUserQuestionForFileSearch_total_witness :
  let vpn := mkEntry (str "vpn") (Some [str "tunnel"]) in
  let question := str "Is the VPN down?" in
  ∃ context,
    buildSynonymContext (findRelevantSynonyms [vpn] question) = Ok context
    ∧ rewriteUserQuestionForFileSearch Scenario.services [vpn] question
        Scenario.fresh
      = (match rewriteGenerate Scenario.services (promptFor context question)
         with
         | Ok res => Ok (trim res)
         | Throw e => Throw e
         end,
         mkWorld (syncRunning Scenario.fresh) (ai Scenario.fresh)
           (fs Scenario.fresh) (stores Scenario.fresh)
           (trace Scenario.fresh
            ++ [RewriteCall (promptFor context question)])).
Proof.
  move=> vpn question.
  apply (rewriteUserQuestionForFileSearch_total Scenario.services [vpn]
           question Scenario.fresh).
  repeat constructor. by eexists.
Defined.

End RelevantSynonymsFacts.

(** ** Search *)

Module SearchRoundFacts.
Import Env RewriteQuery GeminiService.

Section Search.
Variable svc : Services.
Variable synonymEntries : list SynonymEntry.

Lemma searchRounds_S rounds round question prompt storeName :
  searchRounds svc (S rounds) round question prompt storeName =
  (log (SearchCall question);;
   parts ← liftResult (searchGenerate svc question prompt storeName round);
   let answerText := extractText parts in
   if JS.truthy answerText && bool_decide (0 < length (JS.trim answerText))
   then mret (JS.orElse answerText (str "No answer found."))
   else searchRounds svc rounds (round + 1) question prompt storeName).
Proof. reflexivity. Qed.

Local Arguments searchRounds : simpl never.

Lemma searchRounds_answer rounds round question prompt storeName w answer w' :
  searchRounds svc rounds round question prompt storeName w = (Ok answer, w') →
  0 < length (JS.trim answer).
Proof.
  elim: rounds round w => [|rounds IH] round w.
  - rewrite /searchRounds /mret /IO_ret. move=> [<- _]. vm_compute. lia.
  - rewrite searchRounds_S /mbind /IO_bind /liftResult /=.
    destruct (searchGenerate svc question prompt storeName round)
      as [parts|e]; rewrite /=; last done.
    destruct (JS.truthy (extractText parts)) eqn:Htruthy; rewrite /=;
      last by apply IH.
    case_bool_decide as Hlen; rewrite /=; last by apply IH.
    move=> [<- _]. by destruct (extractText parts).
Qed.

(** The calls of the search loop: one per round, all with the same
    question, at most [rounds] of them. *)
Lemma searchRounds_calls rounds round question prompt storeName w :
  let w' := snd (searchRounds svc rounds round question prompt storeName w) in
  syncRunning w' = syncRunning w ∧ ai w' = ai w ∧ fs w' = fs w ∧
  stores w' = stores w ∧
  ∃ k, k ≤ rounds ∧ trace w' = trace w ++ replicate k (SearchCall question).
Proof.
  elim: rounds round w => [|rounds IH] round w.
  - rewrite /=. split_and!; [done..|]. exists 0. by rewrite /= app_nil_r.
  - rewrite searchRounds_S /mbind /IO_bind /liftResult /=.
    have Hone: ∃ k, k ≤ S rounds ∧
        trace w ++ [SearchCall question]
        = trace w ++ replicate k (SearchCall question).
    { exists 1. split; [lia | done]. }
    set w1 := mkWorld _ _ _ _ (trace w ++ [SearchCall question]).
    have Hnext: ∀ round',
      let w' := snd (searchRounds svc rounds round' question prompt storeName w1) in
      syncRunning w' = syncRunning w ∧ ai w' = ai w ∧ fs w' = fs w ∧
      stores w' = stores w ∧
      ∃ k, k ≤ S rounds ∧ trace w' = trace w ++ replicate k (SearchCall question).
    { move=> round'. destruct (IH round' w1) as (? & ? & ? & ? & k & Hk & Htrace).
      split_and!; [done..|]. exists (S k). split; first lia.
      by rewrite Htrace /= -app_assoc. }
    destruct (searchGenerate svc question prompt storeName round)
      as [parts|e]; rewrite /=; last done.
    destruct (JS.truthy (extractText parts)); rewrite /=; last by apply Hnext.
    case_bool_decide; rewrite /=; [done | by apply Hnext].
Qed.



End Search.

End SearchRoundFacts.

(** ** Master sync: how a run ends *)

Module SyncRunFacts.
Import Env GeminiService SyncSpec SyncCacheFacts.

Lemma preserves_modify P f :
  (∀ w, P w → P (f w)) → preserves P (modify f).
Proof. move=> Hf w Hw. by apply Hf. Qed.

Lemma Grown_modify before Q f :
  (∀ w, trace (f w) = trace w) → preserves (Grown before Q) (modify f).
Proof. move=> Hf w [new [Htrace Hnew]]. exists new. by rewrite /= Hf. Qed.

Lemma Grown_log before Q ev : preserves (Grown before Q) (log ev).
Proof.
  move=> w [new [Htrace Hnew]]. exists (new ++ [ev]).
  rewrite /= Htrace app_assoc. split; [done|].
  move=> x Hx. apply elem_of_app. left. by apply Hnew.
Qed.

Lemma Grown_log_add before Q ev w :
  Grown before Q w → Grown before (λ x, Q x ∨ x = ev) (log ev w).2.
Proof.
  move=> [new [Htrace Hnew]]. exists (new ++ [ev]).
  rewrite /= Htrace app_assoc. split; [done|].
  move=> x [Hx | ->]; apply elem_of_app; [left; by apply Hnew | right].
  by apply list_elem_of_singleton.
Qed.

Lemma Grown_impl before (Q Q' : Event → Prop) w :
  (∀ ev, Q' ev → Q ev) → Grown before Q w → Grown before Q' w.
Proof.
  move=> Himpl [new [Htrace Hnew]]. exists new. split; [done|].
  move=> ev Hev. by apply Hnew, Himpl.
Qed.

(** Splits a computation that only logs and updates the files and the
    stores. *)
Ltac grown :=
  repeat first
    [ match goal with |- ∀ _, _ => intro end
    | apply preserves_ret
    | apply preserves_throw
    | apply preserves_liftResult
    | apply preserves_getWorld
    | apply preserves_bind
    | apply preserves_tryCatch
    | apply preserves_forOf
    | apply Grown_log
    | by apply Grown_modify
    | match goal with
      | |- preserves _ (match ?x with _ => _ end) => destruct x
      | |- preserves _ (if ?b then _ else _) => destruct b
      | |- preserves _ (let _ := _ in _) => cbv zeta
      end ].

Section Run.
Variable svc : Services.
Variable synonymConfigs : list SynonymConfig.

(** X10: syncWikiToGeminiRag never throws, and it leaves the run guard
    as it found it: a run that started has cleared the guard when it
    returns, with a result or without one, and a call that was rejected
    has not touched the guard of the run in progress. *)
Theorem syncWikiToGeminiRag_releases_guard w :
  ∃ result w',
    syncWikiToGeminiRag svc synonymConfigs w = (Ok result, w')
    ∧ syncRunning w' = syncRunning w.
Proof.
  rewrite /syncWikiToGeminiRag {1}/mbind {1}/IO_bind /getWorld.
  destruct (syncRunning w) eqn:Hflag.
  { rewrite /=. by eexists _, _. }
  rewrite /finally {1 2}/mbind {1 2}/IO_bind /=.
  match goal with
  | |- context [tryCatch ?body ?handler ?w0] =>
      rewrite /tryCatch; destruct (body w0) as [[r|e] w1]
  end; rewrite /=; by eexists _, _.
Qed.

Lemma uploadTextToRag_ok before Q storeName content filename metadata w u w' :
  Grown before Q w →
  uploadTextToRag svc storeName content filename metadata w = (Ok u, w') →
  Grown before (λ ev, Q ev ∨ ev = UploadSuccessful filename) w'.
Proof.
  move=> [new [Htrace Hnew]].
  rewrite /uploadTextToRag /mbind /IO_bind /=.
  destruct (uploadToFileSearchStore svc storeName _) as [err|];
    rewrite /=; last first.
  - move=> [_ <-]. exists (new ++ [Uploading filename; UploadSuccessful filename]).
    rewrite /= Htrace -!app_assoc. split; [done|].
    move=> ev [Hev | ->]; apply elem_of_app; [left; by apply Hnew | right].
    rewrite !elem_of_cons. by right; left.
  - done.
Qed.

Lemma uploadTextFile_ok before Q storeName n file w n' w' :
  Grown before Q w →
  uploadTextFile svc synonymConfigs storeName n file w = (Ok n', w') →
  n' = n + 1 ∧ Grown before (λ ev, Q ev ∨ ev = UploadSuccessful file) w'.
Proof.
  move=> Hw. rewrite /uploadTextFile {1 2}/mbind {1 2}/IO_bind /getWorld.
  rewrite /readFileSync.
  destruct (wikiFiles (fs w) ≫= _) as [[json|]|]; rewrite /=; [|done..].
  rewrite {1}/mbind {1}/IO_bind.
  match goal with
  | |- context [uploadTextToRag ?a ?b ?c ?d ?e w] =>
      move: (uploadTextToRag_ok before Q b c d e w);
      destruct (uploadTextToRag a b c d e w) as [[[]|err] w1]
  end; last done.
  move=> Hok [<- <-]. split; [done|]. by apply (Hok tt w1).
Qed.

Lemma forOf_uploadTextFile_ok before Q storeName files n w n' w' :
  Grown before Q w →
  forOf files (uploadTextFile svc synonymConfigs storeName) n w = (Ok n', w') →
  n' = n + length files
  ∧ Grown before
      (λ ev, Q ev ∨ ∃ file, file ∈ files ∧ ev = UploadSuccessful file) w'.
Proof.
  elim: files Q n w => [|file files IH] Q n w Hw /=.
  - move=> [<- <-]. split; first lia.
    eapply Grown_impl; last exact Hw.
    move=> ev [// | [file [Hin _]]]. by apply elem_of_nil in Hin.
  - rewrite {1}/mbind {1}/IO_bind.
    move: (uploadTextFile_ok before Q storeName n file w).
    destruct (uploadTextFile svc synonymConfigs storeName n file w)
      as [[n1|err] w1]; last done.
    move=> Hstep Hrest. destruct (Hstep n1 w1 Hw eq_refl) as [-> Hw1].
    destruct (IH _ _ _ Hw1 Hrest) as [-> Hw']. split; first lia.
    eapply Grown_impl; last exact Hw'.
    move=> ev [Hev | [f [/elem_of_cons [-> | Hin] ->]]].
    + by left; left.
    + by left; right.
    + right. by exists f.
Qed.

Lemma clearImageHashCache_Grown before Q :
  preserves (Grown before Q) clearImageHashCache.
Proof. rewrite /clearImageHashCache. grown. Qed.

Lemma generateSynonyms_Grown before Q :
  preserves (Grown before Q) (GenerateSynonyms.generateSynonyms svc).
Proof. rewrite /GenerateSynonyms.generateSynonyms /readdirSync. grown. Qed.

Lemma processImagesToRag_Grown before Q storeName :
  preserves (Grown before Q) (processImagesToRag svc storeName).
Proof.
  rewrite /processImagesToRag /buildImagePageMap /readdirSync /loadHashCache.
  grown; rewrite /readFileSync /processImage /getImageHash /readFileSync
    /uploadTextToRag /saveHashCache; grown.
Qed.

Lemma SetUpFileSearchStore_ok before Q w storeName w' :
  Grown before Q w →
  SetUpFileSearchStore svc w = (Ok storeName, w') →
  Grown before (λ ev, Q ev ∨ ev = StoreCreated storeName) w'.
Proof.
  move=> [new [Htrace Hnew]].
  rewrite /SetUpFileSearchStore /findRagStoreByDisplayName.
  rewrite /mbind /IO_bind /getWorld /liftResult /=.
  destruct (head _) as [old|]; rewrite /=; [destruct (JS.truthy (name old))|];
    rewrite /=.
  all: match goal with
       | |- context [createStore svc ?ss] =>
           destruct (createStore svc ss) as [newName|err]
       end; rewrite /=; last done.
  all: destruct (JS.truthy newName); rewrite /=; last done.
  all: move=> [<- <-]; rewrite /= Htrace -!app_assoc; eexists; split; [done|].
  all: move=> ev [Hev | ->]; apply elem_of_app; [left; by apply Hnew | right].
  all: rewrite !elem_of_cons; auto.
Qed.

(** The part of a sync run after the validation, when it completes. *)
Lemma sync_completes before textFiles w result w' :
  Grown before (λ _, False) w →
  (clearImageHashCache;;
   storeName ← SetUpFileSearchStore svc;
   _ ← GenerateSynonyms.generateSynonyms svc;
   textFilesUploaded ←
     forOf textFiles (uploadTextFile svc synonymConfigs storeName) 0;
   imagesProcessed ← processImagesToRag svc storeName;
   log SyncComplete;;
   mret (Some (mkSyncResult (str "IT_Wiki RAG store updated")
                 textFilesUploaded imagesProcessed.1 storeName))) w
  = (Ok (Some result), w') →
  textFilesUploaded result = length textFiles
  ∧ Grown before
      (λ ev, (∃ file, file ∈ textFiles ∧ ev = UploadSuccessful file)
             ∨ ev = StoreCreated (store result) ∨ ev = SyncComplete) w'.
Proof.
  move=> Hw. rewrite /mbind /IO_bind.
  move: (clearImageHashCache_Grown before _ w Hw).
  destruct (clearImageHashCache w) as [[[]|e] w1] => /= H1; last done.
  move: (SetUpFileSearchStore_ok before (λ _, False) w1).
  destruct (SetUpFileSearchStore svc w1) as [[storeName|e] w2] => /= H2;
    last done.
  have H2' := H2 storeName w2 H1 eq_refl.
  move: (generateSynonyms_Grown before _ w2 H2').
  destruct (GenerateSynonyms.generateSynonyms svc w2) as [[r|e] w3] => /= H3;
    last done.
  move: (λ n w4, forOf_uploadTextFile_ok before _ storeName textFiles 0 w3
                   n w4 H3).
  destruct (forOf textFiles _ 0 w3) as [[n|e] w4] => /= H4; last done.
  destruct (H4 n w4 eq_refl) as [-> H4'].
  move: (processImagesToRag_Grown before _ storeName w4 H4').
  destruct (processImagesToRag svc storeName w4) as [[images|e] w5] => /= H5;
    last done.
  move=> [<- <-]. split; first done.
  eapply Grown_impl; last exact (Grown_log_add _ _ SyncComplete _ H5).
  rewrite /=. naive_solver.
Qed.


End Run.


End SyncRunFacts.

(** ** Image processor: failures *)

Module ImagePassTotalFacts.
Import Env GeminiService ImagePassFacts.

Section Pass.
Variable svc : Services.
Variable storeName : jsstring.
Variable imagePageMap : gmap jsstring jsstring.
Variable dir : list (jsstring * list ascii).

(** One round of the loop returns, whatever the upload does. *)
Lemma processImage_returns st x w :
  wikiImages (fs w) = Some dir → x ∈ dir.*1 →
  ∃ st' w',
    processImage svc storeName imagePageMap st x w = (Ok st', w')
    ∧ wikiImages (fs w') = Some dir
    ∧ uploadedImages st' ≤ uploadedImages st + 1.
Proof.
  move=> Hdir Hx. rewrite /processImage. case_bool_decide as Hdup.
  { rewrite /mbind /IO_bind /=. eexists _, _. split_and!; [done | done | lia]. }
  rewrite /getImageHash /mbind /IO_bind /getWorld /readFileSync /= Hdir /=.
  destruct ((list_to_map dir : gmap jsstring (list ascii)) !! x) as [b|] eqn:Hb;
    last by apply not_elem_of_list_to_map_2 in Hb.
  rewrite /=. case_bool_decide as Hhit.
  { rewrite /=. eexists _, _. split_and!; [done | done | rewrite /=; lia]. }
  rewrite /tryCatch /uploadTextToRag /mbind /IO_bind /getWorld /= Hdir /= Hb /=.
  destruct (uploadToFileSearchStore svc storeName _) as [err|]; rewrite /=;
    eexists _, _; (split_and!; [done | done | rewrite /=; lia]).
Qed.

Lemma forOf_processImage_returns images st w :
  wikiImages (fs w) = Some dir → Forall (λ x, x ∈ dir.*1) images →
  ∃ st' w',
    forOf images (processImage svc storeName imagePageMap) st w = (Ok st', w')
    ∧ uploadedImages st' ≤ uploadedImages st + length images.
Proof.
  elim: images st w => [|x images IH] st w Hdir /=.
  - move=> _. eexists _, _. split; [done | lia].
  - move=> /Forall_cons [Hx Hrest].
    destruct (processImage_returns st x w Hdir Hx)
      as (st1 & w1 & Hstep & Hdir1 & Hn).
    rewrite {1}/mbind {1}/IO_bind Hstep.
    destruct (IH st1 w1 Hdir1 Hrest) as (st' & w' & -> & Hn').
    eexists _, _. split; [done | lia].
Qed.

End Pass.



End ImagePassTotalFacts.

(** ** Stores and the synonym index file *)

Module StoreFacts.
Import Env GeminiService.

Lemma filter_none {A} (P : A → Prop) `{∀ x, Decision (P x)} (l : list A) :
  (∀ x, x ∈ l → ¬ P x) → filter P l = [].
Proof.
  elim: l => [|x l IH] Hl //. rewrite filter_cons decide_False.
  - apply Hl. by left.
  - apply IH => y Hy. apply Hl. by right.
Qed.


Section Stores.
Variable svc : Services.

Lemma SetUpFileSearchStore_Holds w storeName w' :
  (∀ s1 s2, s1 ∈ stores w → s2 ∈ stores w →
            storeDisplayName s1 = DATASET_NAME svc →
            storeDisplayName s2 = DATASET_NAME svc → name s1 = name s2) →
  (∀ s, s ∈ stores w → storeDisplayName s = DATASET_NAME svc → name s ≠ []) →
  SetUpFileSearchStore svc w = (Ok storeName, w') →
  storeName ≠ [] ∧ StoreSpec.Holds svc storeName [] w'.
Proof.
  move=> Hone Hnamed.
  rewrite /StoreSpec.Holds /SetUpFileSearchStore /findRagStoreByDisplayName.
  rewrite /mbind /IO_bind /getWorld /liftResult /=.
  set D := DATASET_NAME svc.
  have Hend: ∀ ss newName,
      filter (λ store, storeDisplayName store = D) ss = [] →
      head (filter (λ store, storeDisplayName store = D)
              (ss ++ [mkStore newName D []]))
      = Some (mkStore newName D []).
  { move=> ss newName Hss. rewrite filter_app Hss /=.
    by rewrite filter_cons decide_True. }
  destruct (head (filter _ (stores w))) as [old|] eqn:Hold; rewrite /=.
  - have Hin: old ∈ filter (λ store, storeDisplayName store = D) (stores w).
    { destruct (filter _ (stores w)); [done | move: Hold => [->]; by left]. }
    apply list_elem_of_filter in Hin as [Hd Hin].
    have Ht: JS.truthy (name old) = true.
    { move: (Hnamed old Hin Hd). by destruct (name old). }
    rewrite Ht /=.
    match goal with
    | |- context [createStore svc ?ss] =>
        destruct (createStore svc ss) as [newName|err]
    end; rewrite /=; last done.
    destruct (JS.truthy newName) eqn:Hnew; rewrite /=; last done.
    move=> [<- <-]. rewrite /= Hend; first last.
    + split; [by destruct newName | done].
    + apply filter_none => s /list_elem_of_filter [Hne Hs] Hds.
      apply Hne. by apply Hone.
  - have Hnone: filter (λ store, storeDisplayName store = D) (stores w) = [].
    { by destruct (filter _ (stores w)). }
    destruct (createStore svc (stores w)) as [newName|err]; rewrite /=;
      last done.
    destruct (JS.truthy newName) eqn:Hnew; rewrite /=; last done.
    move=> [<- <-]. rewrite /= Hend //.
    split; [by destruct newName | done].
Qed.

(** X14: after SetUpFileSearchStore has returned, the store of the
    dataset is the one it created, and that store is empty.  This is for
    a service in which at most one store carries the display name of
    the dataset, and that store has a name. *)
Theorem SetUpFileSearchStore_replaces w storeName w' :
  (∀ s1 s2, s1 ∈ stores w → s2 ∈ stores w →
            storeDisplayName s1 = DATASET_NAME svc →
            storeDisplayName s2 = DATASET_NAME svc → name s1 = name s2) →
  (∀ s, s ∈ stores w → storeDisplayName s = DATASET_NAME svc → name s ≠ []) →
  SetUpFileSearchStore svc w = (Ok storeName, w') →
  storeName ≠ []
  ∧ findRagStoreByDisplayName (DATASET_NAME svc) w'
    = (Ok (Some (mkStore storeName (DATASET_NAME svc) [])), w').
Proof.
  move=> Hone Hnamed Hrun.
  destruct (SetUpFileSearchStore_Holds w storeName w' Hone Hnamed Hrun)
    as [Hname Hholds].
  split; first done.
  by rewrite /findRagStoreByDisplayName /mbind /IO_bind /getWorld /= Hholds.
Qed.

End Stores.

Lemma SetUpFileSearchStore_replaces_witness :
  let w' := snd (SetUpFileSearchStore Scenario.services Scenario.emptyExport) in
  str "fileSearchStores/it-wiki" ≠ []
  ∧ findRagStoreByDisplayName (DATASET_NAME Scenario.services) w'
    = (Ok (Some (mkStore (str "fileSearchStores/it-wiki")
                   (DATASET_NAME Scenario.services) [])), w').
Proof.
  apply (SetUpFileSearchStore_replaces Scenario.services Scenario.emptyExport).
  - move=> s1 s2 /list_elem_of_singleton -> /list_elem_of_singleton -> //.
  - move=> s /list_elem_of_singleton -> //.
  - reflexivity.
Defined.

End StoreFacts.

(** ** Upload metadata *)

Module MetadataFacts.
Import Env GeminiService ChunkSynonymsFacts.

(** No chunk is empty. *)
Lemma chunkStep_nonempty maxLen st syn :
  0 < maxLen →
  Forall (λ c, c ≠ []) st.1 →
  Forall (λ c, c ≠ []) (chunkStep maxLen st syn).1.
Proof.
  destruct st as [chunks current] => Hpos /= Hchunks. rewrite /chunkStep.
  destruct (JS.trim syn) as [|a trimmed] eqn:Htrim; first done.
  rewrite /=. case_bool_decide; last done.
  have Hcur: Forall (λ c, c ≠ [])
               (if JS.truthy current then chunks ++ [current] else chunks).
  { destruct current; first done.
    apply Forall_app. split; [done | by constructor]. }
  case_bool_decide; last done.
  rewrite /=. apply Forall_app. split; [done | constructor; [|done]].
  rewrite JSFacts.slice_0. by destruct maxLen; first lia.
Qed.

Lemma chunkSynonyms_nonempty synonyms maxLen :
  0 < maxLen → Forall (λ c, c ≠ []) (chunkSynonyms synonyms maxLen).
Proof.
  move=> Hpos. rewrite /chunkSynonyms.
  have: Forall (λ c, c ≠ []) (foldl (chunkStep maxLen) ([], []) synonyms).1.
  { have: Forall (λ c : jsstring, c ≠ []) ([], [] : jsstring).1 by constructor.
    move: ([], []) => st.
    elim: synonyms st => [|syn synonyms IH] st Hst //=.
    by apply IH, chunkStep_nonempty. }
  destruct (foldl _ _ _) as [chunks current] => /= Hchunks.
  destruct current; first done.
  apply Forall_app. split; [done | by constructor].
Qed.

(** The metadata entries that the sync adds for the synonym chunks. *)
Lemma synonym_metadata_cap (chunks : list jsstring) m :
  Forall (λ c, c ≠ [] ∧ length c ≤ 255) chunks →
  m ∈ imap (λ index chunk,
              mkMetadata
                (if bool_decide (index = 0) then str "synonyms"
                 else str "synonyms_" ++ decimal (index + 1))
                (Some chunk)) chunks →
  ∃ chunk, stringValue m = Some chunk ∧ 0 < length chunk ≤ 255.
Proof.
  move=> Hall /elem_of_lookup_imap [i [chunk [-> Hi]]].
  exists chunk. split; first done.
  move: (proj1 (Forall_lookup _ _) Hall i chunk Hi) => [Hne Hle].
  split; [by destruct chunk; [|simpl; lia] | done].
Qed.

Section Upload.
Variable svc : Services.
Variable synonymConfigs : list SynonymConfig.

(** X15: the document that the sync uploads for a page carries at most
    3 + MAX_SYNONYM_GROUPS metadata entries, and each of its synonym
    entries holds a chunk that is not empty and has at most 255
    characters. *)
Theorem uploadTextFile_metadata_cap storeName n file w n' w' s :
  uploadTextFile svc synonymConfigs storeName n file w = (Ok n', w') →
  s ∈ stores w' → name s = storeName →
  ∃ doc,
    last (documents s) = Some doc ∧ displayName doc = file ∧
    length (customMetadata doc) ≤ 3 + MAX_SYNONYM_GROUPS ∧
    ∀ m, m ∈ customMetadata doc →
         JS.startsWith (key m) (str "synonyms") = true →
         ∃ chunk, stringValue m = Some chunk ∧ 0 < length chunk ≤ 255.
Proof.
  rewrite /uploadTextFile {1 2}/mbind {1 2}/IO_bind /getWorld /readFileSync.
  destruct (wikiFiles (fs w) ≫= _) as [[json|]|]; [| by rewrite /=..].
  rewrite {1}/mret {1}/IO_ret. cbv beta iota zeta.
  set synonyms := getSynonymsForContent _ _.
  set base := [mkMetadata (str "type") _; _; _].
  set metadata := (if bool_decide _ then _ else _).
  have Hmeta: length metadata ≤ 3 + MAX_SYNONYM_GROUPS ∧
    ∀ m, m ∈ metadata → JS.startsWith (key m) (str "synonyms") = true →
         ∃ chunk, stringValue m = Some chunk ∧ 0 < length chunk ≤ 255.
  { have Hbase: ∀ m, m ∈ base →
                     JS.startsWith (key m) (str "synonyms") = true → False.
    { move=> m. rewrite /base !elem_of_cons elem_of_nil.
      by move=> [-> | [-> | [-> | []]]]. }
    rewrite /metadata. case_bool_decide.
    - split.
      + rewrite length_app length_imap length_take.
        change (length base) with 3. lia.
      + move=> m /elem_of_app [Hm | Hm] Hkey; first by destruct (Hbase m).
        eapply synonym_metadata_cap; last exact Hm.
        apply Forall_take.
        have Hne := chunkSynonyms_nonempty synonyms 255 ltac:(lia).
        have [_ Hle] := chunkSynonyms_spec synonyms 255.
        apply Forall_and. by split.
    - split; first (change (length base) with 3; lia).
      move=> m Hm Hkey. by destruct (Hbase m). }
  move: metadata Hmeta => metadata Hmeta.
  rewrite /uploadTextToRag /mbind /IO_bind /=.
  destruct (uploadToFileSearchStore svc storeName _) as [err|]; rewrite /=;
    first done.
  move=> [_ <-] /= /list_elem_of_fmap [s0 [-> Hs0]].
  case_bool_decide as Hname; last done.
  move=> _. eexists. split; [by rewrite /= last_snoc | done].
Qed.

End Upload.
Lemma uploadTextFile_metadata_cap_witness :
  let configs := [mkConfig (str "VPN") (Some [str "Tunnel"])] in
  let w := mkWorld false true Scenario.files
             [mkStore (str "store") (str "IT_Wiki") []] [] in
  let w' := snd (uploadTextFile Scenario.services configs (str "store") 0
                   (str "vpn.json") w) in
  let s := default (mkStore [] [] []) (head (stores w')) in
  ∃ doc,
    last (documents s) = Some doc ∧ displayName doc = str "vpn.json" ∧
    length (customMetadata doc) ≤ 3 + MAX_SYNONYM_GROUPS ∧
    ∀ m, m ∈ customMetadata doc →
         JS.startsWith (key m) (str "synonyms") = true →
         ∃ chunk, stringValue m = Some chunk ∧ 0 < length chunk ≤ 255.
Proof.
  move=> configs w w' s.
  have Hs: stores w' = [s] by vm_compute.
  apply (uploadTextFile_metadata_cap Scenario.services configs (str "store") 0
           (str "vpn.json") w 1 w' s).
  - by vm_compute.
  - rewrite Hs. by left.
  - by vm_compute.
Defined.

End MetadataFacts.

Module SlackZeroFacts.
Import JS JSFacts SlackController SlackControllerFacts.

Lemma splitLoop_zero fuel parts remaining :
  trim remaining ≠ [] → splitLoop fuel 0 parts remaining = None.
Proof.
  elim: fuel parts remaining => [|fuel IH] parts remaining Hne //.
  rewrite splitLoop_unfold.
  have Hpos: 0 < length remaining.
  { destruct remaining; [done | simpl; lia]. }
  rewrite bool_decide_true //.
  have Hcut: cut 0 remaining = [] by rewrite /cut !slice_0 !take_0.
  rewrite Hcut /=. apply IH.
  by rewrite MergeFacts.trim_idem.
Qed.



End SlackZeroFacts.

(** ** The rate limiter *)

Module RateLimiterFacts.
Import RateLimiter.

Lemma rateLimiter_other table body now u :
  userIdOf body ≠ u → (rateLimiter table body now).2 !! u = table !! u.
Proof.
  move=> Hne. rewrite /rateLimiter.
  destruct (table !! userIdOf body) as [entry|].
  - repeat case_bool_decide; rewrite /= ?lookup_insert_ne //.
  - destruct (inherited _); rewrite /= ?lookup_insert_ne //.
Qed.

Lemma passedOf_cons u body now outcome requests outcomes :
  passedOf u ((body, now) :: requests) (outcome :: outcomes)
  = (if bool_decide (userIdOf body = u) && passed outcome
     then [(body, now, outcome)] else [])
    ++ passedOf u requests outcomes.
Proof.
  rewrite /passedOf /= filter_cons /=.
  case_bool_decide as Hu; destruct (passed outcome) eqn:Hp; rewrite /=;
    case_decide as Hd; try done; naive_solver.
Qed.

Lemma requestsOf_cons u body now requests :
  requestsOf u ((body, now) :: requests)
  = (if bool_decide (userIdOf body = u) then [(body, now)] else [])
    ++ requestsOf u requests.
Proof.
  rewrite /requestsOf filter_cons /=.
  case_bool_decide; case_decide; done.
Qed.

(** A user whose window is open with [count] requests counted, and
    requests of all users that arrive while that window lasts: of the
    user's requests the first LIMIT - count are passed on, and no
    other. *)
Lemma serve_open_window table requests u entry :
  table !! u = Some entry →
  (∀ body now, (body, now) ∈ requests → userIdOf body = u →
               (now - lastReset entry ≤ WINDOW_MS)%Z) →
  length (passedOf u requests (serve table requests))
  = length (requestsOf u requests) `min` (LIMIT - count entry).
Proof.
  elim: requests table entry => [|[body now] requests IH] table entry Hentry Hwin.
  { by rewrite /passedOf /requestsOf /=. }
  rewrite /=.
  destruct (rateLimiter table body now) as [outcome table'] eqn:Hstep.
  rewrite passedOf_cons requestsOf_cons !length_app.
  have Hrest: ∀ body' now', (body', now') ∈ requests → userIdOf body' = u →
                            (now' - lastReset entry ≤ WINDOW_MS)%Z.
  { move=> body' now' Hin. apply Hwin. by right. }
  case_bool_decide as Hu; last first.
  - (* a request of another user *)
    have Hsame: table' !! u = Some entry.
    { move: (rateLimiter_other table body now u Hu). by rewrite Hstep /= Hentry. }
    by rewrite /= (IH table' entry Hsame Hrest).
  - (* a request of the user, in the window *)
    have Hnow := Hwin body now ltac:(by left) Hu.
    move: Hstep. rewrite /rateLimiter Hu Hentry.
    rewrite bool_decide_false; first lia.
    case_bool_decide as Hfull.
    + move=> [<- <-]. rewrite (IH table entry Hentry Hrest).
      have ->: LIMIT - count entry = 0 by lia.
      by rewrite /= !Nat.min_0_r.
    + move=> [<- <-].
      rewrite (IH _ (mkEntry (count entry + 1) (lastReset entry))).
      * by rewrite lookup_insert_eq.
      * done.
      * have ->: LIMIT - count entry
                 = S (LIMIT - count (mkEntry (count entry + 1) (lastReset entry)))
          by rewrite /=; lia.
        done.
Qed.

(** X17: the limiter passes on at most LIMIT requests of a user per
    window, whatever the other users do.  Take a request that opens a
    window for its user (the user has no entry, or the entry is more
    than WINDOW_MS old) and the requests of all users that follow it
    while that window lasts (none of the user's comes more than
    WINDOW_MS after the opening one): the opening request and the
    user's next LIMIT - 1 requests are passed on, and no other request
    of the user. *)
Theorem rateLimiter_window_bound table body now requests u :
  userIdOf body = u →
  match table !! u with
  | None => inherited u = false
  | Some entry => (WINDOW_MS < now - lastReset entry)%Z
  end →
  (∀ body' now', (body', now') ∈ requests → userIdOf body' = u →
                 (now' - now ≤ WINDOW_MS)%Z) →
  length (passedOf u ((body, now) :: requests)
            (serve table ((body, now) :: requests)))
  = S (length (requestsOf u requests)) `min` LIMIT.
Proof.
  move=> Hu Hopen Hwin.
  have Hstep: rateLimiter table body now
              = (Next, <[u := mkEntry 1 now]> table).
  { rewrite /rateLimiter Hu. destruct (table !! u) as [entry|].
    - by rewrite bool_decide_true.
    - by rewrite Hopen. }
  rewrite /= Hstep passedOf_cons length_app Hu bool_decide_true //.
  rewrite (serve_open_window _ requests u (mkEntry 1 now)).
  - by rewrite lookup_insert_eq.
  - done.
  - by rewrite /LIMIT /=.
Qed.

Lemma rateLimiter_window_bound_witness :
  let alice := mkBody (Some (str "U1")) None in
  let bob := mkBody (Some (str "U2")) None in
  let requests := replicate 6 (alice, 1000%Z) ++ [(bob, 2000%Z)]
                  ++ replicate 6 (alice, 60000%Z) in
  length (passedOf (str "U1") ((alice, 0%Z) :: requests)
            (serve ∅ ((alice, 0%Z) :: requests)))
  = S (length (requestsOf (str "U1") requests)) `min` LIMIT.
Proof.
  move=> alice bob requests.
  apply (rateLimiter_window_bound ∅ alice 0 requests (str "U1")).
  - by vm_compute.
  - by vm_compute.
  - move=> body' now'. rewrite /requests !elem_of_app !elem_of_replicate.
    rewrite list_elem_of_singleton. move=> [[[= _ ->] _] | [[= _ ->] | [[= _ ->] _]]] _;
      by vm_compute.
Defined.

(** X18: the table is a plain object, so the limiter does not limit a
    user whose id is the name of a property that every object inherits
    (constructor, toString, ...): it finds the inherited value in place
    of an entry, never stores an entry for that user, and passes on
    every request of the user. *)
Theorem rateLimiter_inherited_key table requests u :
  inherited u = true → table !! u = None →
  length (passedOf u requests (serve table requests))
  = length (requestsOf u requests).
Proof.
  move=> Hproto.
  elim: requests table => [|[body now] requests IH] table Hnone.
  { by rewrite /passedOf /requestsOf /=. }
  rewrite /=.
  destruct (rateLimiter table body now) as [outcome table'] eqn:Hstep.
  rewrite passedOf_cons requestsOf_cons !length_app.
  case_bool_decide as Hu.
  - move: Hstep. rewrite /rateLimiter Hu Hnone Hproto. move=> [<- <-].
    by rewrite /= IH.
  - have Hsame: table' !! u = None.
    { move: (rateLimiter_other table body now u Hu). by rewrite Hstep /= Hnone. }
    by rewrite /= IH.
Qed.

Lemma rateLimiter_inherited_key_witness :
  let mallory := mkBody (Some (str "constructor")) None in
  let requests := replicate 25 (mallory, 0%Z) in
  length (passedOf (str "constructor") requests (serve ∅ requests))
  = length (requestsOf (str "constructor") requests).
Proof.
  move=> mallory requests.
  apply (rateLimiter_inherited_key ∅ requests (str "constructor"));
    by vm_compute.
Defined.

End RateLimiterFacts.

(** ** The answer to a Slack command *)

Module SlackAnswerFacts.
Import Env JS JSFacts SlackController SlackControllerFacts SlackAnswer.

Section Posts.
Variable axiosPost : jsstring → Message → option Thrown.
Variable responseUrl : jsstring.
Hypothesis Hposts : ∀ message, axiosPost responseUrl message = None.

Lemma postParts_all total i rest :
  postParts axiosPost responseUrl total i rest
  = (Ok tt, imap (λ k chunk, InChannel (part (i + k + 1) total chunk)) rest).
Proof.
  elim: rest i => [|chunk rest IH] i //=.
  rewrite Hposts IH Nat.add_0_r. do 2 f_equal.
  apply imap_ext => k c _ /=. do 2 f_equal. lia.
Qed.

(** X20: when the posts succeed, sendSlackAnswer posts a long answer as
    the parts of splitIntoSlackChunks, in order, part k of n under the
    label Part k of n: no part is empty or longer than
    SLACK_MAX_MESSAGE_SIZE, and the parts, each followed by a run of
    whitespace, add up to the answer. *)
Theorem sendSlackAnswer_parts answer :
  SLACK_MAX_MESSAGE_SIZE < length answer →
  ∃ chunks gaps,
    sendSlackAnswer axiosPost responseUrl answer
    = (Ok tt,
       imap (λ k chunk, InChannel (part (k + 1) (length chunks) chunk)) chunks)
    ∧ Forall (λ chunk, 0 < length chunk ≤ SLACK_MAX_MESSAGE_SIZE) chunks
    ∧ length gaps = length chunks
    ∧ Forall whitespaceOnly gaps
    ∧ weave chunks gaps = answer.
Proof.
  move=> Hlong. rewrite /sendSlackAnswer bool_decide_false; first lia.
  have Hpos: 0 < SLACK_MAX_MESSAGE_SIZE by rewrite /SLACK_MAX_MESSAGE_SIZE; lia.
  have Hinit: SplitInv answer [] answer.
  { exists [], []. split_and!; [done | constructor | constructor | done |].
    by rewrite /= app_nil_r. }
  destruct (splitLoop_total answer _ Hpos (S (length answer)) [] answer)
    as (parts & remaining & Hrun & Hinv); [lia | done |].
  destruct (SplitInv_finish _ _ _ Hinv) as (gaps & Hlen & Hws & Hweave).
  have Hcut: ∀ r, SLACK_MAX_MESSAGE_SIZE < length r →
                  0 < length (cut SLACK_MAX_MESSAGE_SIZE r)
                  ≤ SLACK_MAX_MESSAGE_SIZE.
  { move=> r Hr. split; [by apply cut_length | apply SlackChunkFacts.cut_bound]. }
  destruct (SlackChunkFacts.splitLoop_Forall
              (λ chunk, 0 < length chunk ≤ SLACK_MAX_MESSAGE_SIZE)
              _ Hcut _ _ _ _ _ Hrun) as [Hparts Hrem]; first done.
  rewrite /splitIntoSlackChunks Hrun postParts_all.
  eexists _, gaps. split_and!; [done | | exact Hlen | exact Hws | exact Hweave].
  case_bool_decide; last done.
  apply Forall_app. split; [done | constructor; [lia | done]].
Qed.

End Posts.

Lemma sendSlackAnswer_parts_witness :
  let answer := replicate 2801 "a"%char in
  ∃ chunks gaps,
    sendSlackAnswer (λ _ _, None) (str "https://hooks.slack.com/1") answer
    = (Ok tt,
       imap (λ k chunk, InChannel (part (k + 1) (length chunks) chunk)) chunks)
    ∧ Forall (λ chunk, 0 < length chunk ≤ SLACK_MAX_MESSAGE_SIZE) chunks
    ∧ length gaps = length chunks
    ∧ Forall whitespaceOnly gaps
    ∧ weave chunks gaps = answer.
Proof.
  apply (sendSlackAnswer_parts (λ _ _, None) (str "https://hooks.slack.com/1"));
    first done.
  rewrite /SLACK_MAX_MESSAGE_SIZE length_replicate. lia.
Defined.

Section Handler.
Variable svc : Services.
Variable synonymEntries : list RewriteQuery.SynonymEntry.
Variable normalizeAzureDevOpsFormatting : jsstring → jsstring.
Variable axiosPost : jsstring → Message → option Thrown.


End Handler.



End SlackAnswerFacts.

(** ** Master sync: what the store holds after a run *)

Module SyncStoreFacts.
Import Env GeminiService StoreSpec SyncCacheFacts.

Lemma filter_fmap_store (f : Store → Store) D (l : list Store) :
  (∀ s, storeDisplayName (f s) = storeDisplayName s) →
  filter (λ s, storeDisplayName s = D) (f <$> l)
  = f <$> filter (λ s, storeDisplayName s = D) l.
Proof.
  move=> Hf. elim: l => [|s l IH] //.
  rewrite fmap_cons !filter_cons Hf IH. by case_decide.
Qed.

Section Run.
Variable svc : Services.
Variable synonymConfigs : list SynonymConfig.

Lemma Holds_stores storeName docs w w' :
  stores w' = stores w → Holds svc storeName docs w → Holds svc storeName docs w'.
Proof. rewrite /Holds. by move=> ->. Qed.

Lemma Holds_modify storeName docs f :
  (∀ w, stores (f w) = stores w) →
  preserves (Holds svc storeName docs) (modify f).
Proof.
  move=> Hf w Hw. apply (Holds_stores _ _ w); [apply Hf | done].
Qed.

Lemma Holds_log storeName docs ev :
  preserves (Holds svc storeName docs) (log ev).
Proof. by apply Holds_modify. Qed.

(** Splits a computation that leaves the stores alone. *)
Ltac holds :=
  repeat first
    [ match goal with |- ∀ _, _ => intro end
    | apply preserves_ret
    | apply preserves_throw
    | apply preserves_liftResult
    | apply preserves_getWorld
    | apply preserves_bind
    | apply preserves_tryCatch
    | apply preserves_forOf
    | apply Holds_log
    | by apply Holds_modify
    | match goal with
      | |- preserves _ (match ?x with _ => _ end) => destruct x
      | |- preserves _ (if ?b then _ else _) => destruct b
      | |- preserves _ (let _ := _ in _) => cbv zeta
      end ].

Lemma clearImageHashCache_Holds storeName docs :
  preserves (Holds svc storeName docs) clearImageHashCache.
Proof. rewrite /clearImageHashCache. holds. Qed.

Lemma generateSynonyms_Holds storeName docs :
  preserves (Holds svc storeName docs) (GenerateSynonyms.generateSynonyms svc).
Proof. rewrite /GenerateSynonyms.generateSynonyms /readdirSync. holds. Qed.

(** An upload adds its document to the store, or fails and adds
    nothing. *)
Lemma uploadTextToRag_Holds storeName docs content filename metadata w :
  Holds svc storeName docs w →
  let run := uploadTextToRag svc storeName content filename metadata w in
  match fst run with
  | Ok _ =>
      Holds svc storeName (docs ++ [mkDocument filename content metadata])
        (snd run)
  | Throw _ => Holds svc storeName docs (snd run)
  end.
Proof.
  rewrite /Holds /uploadTextToRag /mbind /IO_bind /= => Hw.
  destruct (uploadToFileSearchStore svc storeName _) as [err|]; rewrite /=;
    first done.
  rewrite filter_fmap_store; first by move=> s; case_bool_decide.
  destruct (filter _ (stores w)) as [|s l]; first done.
  move: Hw => /= [->] /=. by rewrite bool_decide_true.
Qed.

Lemma uploadTextFile_Holds storeName docs n file w n' w' :
  Holds svc storeName docs w →
  uploadTextFile svc synonymConfigs storeName n file w = (Ok n', w') →
  ∃ doc, displayName doc = file ∧ Holds svc storeName (docs ++ [doc]) w'.
Proof.
  move=> Hw. rewrite /uploadTextFile {1 2}/mbind {1 2}/IO_bind /getWorld.
  rewrite /readFileSync.
  destruct (wikiFiles (fs w) ≫= _) as [[json|]|]; rewrite /=; [|done..].
  rewrite {1}/mbind {1}/IO_bind.
  match goal with
  | |- context [uploadTextToRag svc ?b ?c ?d ?e w] =>
      move: (uploadTextToRag_Holds b docs c d e w Hw);
      destruct (uploadTextToRag svc b c d e w) as [[[]|err] w1]
  end; last done.
  rewrite /= /mret /IO_ret => Hok [_ <-].
  eexists. split; last exact Hok. done.
Qed.

Lemma forOf_uploadTextFile_Holds storeName files docs n w n' w' :
  Holds svc storeName docs w →
  forOf files (uploadTextFile svc synonymConfigs storeName) n w = (Ok n', w') →
  ∃ pages, displayName <$> pages = files
           ∧ Holds svc storeName (docs ++ pages) w'.
Proof.
  elim: files docs n w => [|file files IH] docs n w Hw /=.
  - move=> [_ <-]. exists []. by rewrite app_nil_r.
  - rewrite {1}/mbind {1}/IO_bind.
    move: (uploadTextFile_Holds storeName docs n file w).
    destruct (uploadTextFile svc synonymConfigs storeName n file w)
      as [[n1|err] w1]; last done.
    move=> Hstep Hrest.
    destruct (Hstep n1 w1 Hw eq_refl) as (doc & Hdoc & Hw1).
    destruct (IH _ _ _ Hw1 Hrest) as (pages & Hpages & Hw').
    exists (doc :: pages). split; first by rewrite fmap_cons Hdoc Hpages.
    by rewrite (assoc_L (++) docs [doc] pages).
Qed.

Lemma processImage_Holds storeName imagePageMap docs st x w st' w' :
  Holds svc storeName docs w →
  processImage svc storeName imagePageMap st x w = (Ok st', w') →
  ∃ images, Holds svc storeName (docs ++ images) w'
            ∧ uploadedImages st' = uploadedImages st + length images.
Proof.
  move=> Hw. rewrite /processImage. case_bool_decide as Hdup.
  { rewrite /mbind /IO_bind /= /mret /IO_ret. move=> [<- <-]. exists [].
    rewrite app_nil_r /=. split; [done | lia]. }
  rewrite /getImageHash /mbind /IO_bind /getWorld /readFileSync /=.
  destruct (wikiImages (fs w)) as [dir|] eqn:Hdir; rewrite /=; last done.
  destruct ((list_to_map dir : gmap jsstring (list ascii)) !! x)
    as [bytes|] eqn:Hbytes; rewrite /=; last done.
  case_bool_decide as Hhit.
  { rewrite /= /mret /IO_ret. move=> [<- <-]. exists [].
    rewrite app_nil_r /=. split; [done | lia]. }
  rewrite /tryCatch /mbind /IO_bind /getWorld /= Hdir /= Hbytes /=.
  set w1 := mkWorld _ _ _ _ (trace w ++ [Analysing x]).
  have Hw1: Holds svc storeName docs w1 by done.
  match goal with
  | |- context [uploadTextToRag svc ?b ?c ?d ?e w1] =>
      move: (uploadTextToRag_Holds b docs c d e w1 Hw1);
      destruct (uploadTextToRag svc b c d e w1) as [[[]|err] w2]
  end; rewrite /= /mret /IO_ret => Hup [<- <-].
  - eexists [_]. split; [exact Hup | done].
  - exists []. rewrite app_nil_r /=. split; [done | lia].
Qed.

Lemma forOf_processImage_Holds storeName imagePageMap images docs st w st' w' :
  Holds svc storeName docs w →
  forOf images (processImage svc storeName imagePageMap) st w = (Ok st', w') →
  ∃ new, Holds svc storeName (docs ++ new) w'
         ∧ uploadedImages st' = uploadedImages st + length new.
Proof.
  elim: images docs st w => [|x images IH] docs st w Hw /=.
  - rewrite /mret /IO_ret. move=> [<- <-]. exists [].
    rewrite app_nil_r /=. split; [done | lia].
  - rewrite {1}/mbind {1}/IO_bind.
    move: (processImage_Holds storeName imagePageMap docs st x w).
    destruct (processImage svc storeName imagePageMap st x w)
      as [[st1|err] w1]; last done.
    move=> Hstep Hrest.
    destruct (Hstep st1 w1 Hw eq_refl) as (new1 & Hw1 & Hn1).
    destruct (IH _ _ _ Hw1 Hrest) as (new & Hw' & Hn).
    exists (new1 ++ new). rewrite (assoc_L (++)) length_app.
    split; [done | lia].
Qed.

Lemma processImagesToRag_Holds storeName docs w r w' :
  Holds svc storeName docs w →
  processImagesToRag svc storeName w = (Ok r, w') →
  ∃ images, Holds svc storeName (docs ++ images) w'
            ∧ fst r = length images.
Proof.
  move=> Hw. rewrite /processImagesToRag {1}/mbind {1}/IO_bind.
  move: (ImagePassFacts.buildImagePageMap_world svc w).
  destruct (buildImagePageMap svc w) as [[imagePageMap|e] w0] => /= ->;
    last done.
  rewrite /readdirSync /loadHashCache /mbind /IO_bind /getWorld /=.
  destruct (wikiImages (fs w)) as [dir|]; rewrite /=; last done.
  set images := filter _ _.
  match goal with
  | |- context [forOf images _ ?st0 w] =>
      move: (λ st w1,
               forOf_processImage_Holds storeName imagePageMap images docs
                 st0 w st w1 Hw)
  end.
  destruct (forOf images _ _ w) as [[st|e] w1]; last done.
  rewrite /mret /IO_ret /=. move=> Hloop [<- <-].
  destruct (Hloop st w1 eq_refl) as (new & Hw1 & Hn).
  exists new. by split.
Qed.

(** The part of a sync run after the validation, when it completes. *)
Lemma sync_completes_store textFiles w result w' :
  (∀ s1 s2, s1 ∈ stores w → s2 ∈ stores w →
            storeDisplayName s1 = DATASET_NAME svc →
            storeDisplayName s2 = DATASET_NAME svc → name s1 = name s2) →
  (∀ s, s ∈ stores w → storeDisplayName s = DATASET_NAME svc → name s ≠ []) →
  (clearImageHashCache;;
   storeName ← SetUpFileSearchStore svc;
   _ ← GenerateSynonyms.generateSynonyms svc;
   textFilesUploaded ←
     forOf textFiles (uploadTextFile svc synonymConfigs storeName) 0;
   imagesProcessed ← processImagesToRag svc storeName;
   log SyncComplete;;
   mret (Some (mkSyncResult (str "IT_Wiki RAG store updated")
                 textFilesUploaded imagesProcessed.1 storeName))) w
  = (Ok (Some result), w') →
  ∃ pages images,
    Holds svc (store result) (pages ++ images) w'
    ∧ displayName <$> pages = textFiles
    ∧ length images = imageFilesUploaded result.
Proof.
  move=> Hone Hnamed. rewrite /mbind /IO_bind.
  have Hstores: stores (snd (clearImageHashCache w)) = stores w.
  { rewrite /clearImageHashCache /mbind /IO_bind /getWorld /=.
    by destruct (imageHashCache (fs w)). }
  move: Hstores.
  destruct (clearImageHashCache w) as [[[]|e] w1] => /= Hstores1; last done.
  rewrite -Hstores1 in Hone Hnamed.
  move: (StoreFacts.SetUpFileSearchStore_Holds svc w1).
  destruct (SetUpFileSearchStore svc w1) as [[storeName|e] w2] => /= H2;
    last done.
  destruct (H2 storeName w2 Hone Hnamed eq_refl) as [_ Hw2].
  move: (generateSynonyms_Holds storeName [] w2 Hw2).
  destruct (GenerateSynonyms.generateSynonyms svc w2) as [[r|e] w3] => /= Hw3;
    last done.
  move: (λ n w4, forOf_uploadTextFile_Holds storeName textFiles [] 0 w3
                   n w4 Hw3).
  destruct (forOf textFiles _ 0 w3) as [[n|e] w4] => /= H4; last done.
  destruct (H4 n w4 eq_refl) as (pages & Hpages & Hw4).
  move: (λ r w5, processImagesToRag_Holds storeName _ w4 r w5 Hw4).
  destruct (processImagesToRag svc storeName w4) as [[images|e] w5] => /= H5;
    last done.
  destruct (H5 images w5 eq_refl) as (new & Hw5 & Hn).
  rewrite /mret /IO_ret. move=> [<- <-] /=.
  exists pages, new. split_and!; [done | done | by rewrite Hn].
Qed.

(** X23: after a sync run that returns a result, the store that a
    search finds under the display name of the dataset is the store
    that the result names, and it holds one document per page of the
    export folder, named after the .json files in the order of the
    folder, followed by one document per image that the run counts as
    uploaded.  This is for a service in which, before the run, at most
    one store carries the display name of the dataset, and that store
    has a name. *)
Theorem syncWikiToGeminiRag_store_contents w result w' :
  (∀ s1 s2, s1 ∈ stores w → s2 ∈ stores w →
            storeDisplayName s1 = DATASET_NAME svc →
            storeDisplayName s2 = DATASET_NAME svc → name s1 = name s2) →
  (∀ s, s ∈ stores w → storeDisplayName s = DATASET_NAME svc → name s ≠ []) →
  syncWikiToGeminiRag svc synonymConfigs w = (Ok (Some result), w') →
  ∃ textFiles pages images,
    textFilesOf w = Some textFiles
    ∧ findRagStoreByDisplayName (DATASET_NAME svc) w'
      = (Ok (Some (mkStore (store result) (DATASET_NAME svc)
                     (pages ++ images))), w')
    ∧ displayName <$> pages = textFiles
    ∧ length images = imageFilesUploaded result.
Proof.
  move=> Hone Hnamed.
  rewrite /syncWikiToGeminiRag {1}/mbind {1}/IO_bind /getWorld.
  destruct (syncRunning w) eqn:Hflag; first done.
  rewrite /finally {1 2}/mbind {1 2}/IO_bind /=.
  rewrite /tryCatch {1}/mbind {1}/IO_bind /= /textFilesOf.
  destruct (wikiFiles (fs w)) as [entries|] eqn:Hfiles; rewrite /=; last done.
  case_bool_decide as Hempty; rewrite /=; first done.
  set w0 := setAi true (setSyncRunning true w).
  have Hbody := λ textFiles,
    sync_completes_store textFiles w0 result.
  match goal with
  | |- context [forOf ?textFiles _ 0] => move: (Hbody textFiles)
  end.
  destruct ((clearImageHashCache ≫= _) w0) as [[[r|]|e] w5]; rewrite /=;
    [|done..].
  move=> Hok [? ?]; subst r w'.
  destruct (Hok w5 Hone Hnamed eq_refl) as (pages & images & Hw5 & Hpages & Hn).
  eexists _, pages, images. split_and!; [done | | done | done].
  rewrite /findRagStoreByDisplayName /mbind /IO_bind /getWorld /=.
  rewrite /Holds in Hw5. by rewrite Hw5.
Qed.

End Run.

Lemma syncWikiToGeminiRag_store_contents_witness :
  let result :=
    mkSyncResult (str "IT_Wiki RAG store updated") 1 1
      (str "fileSearchStores/it-wiki") in
  ∃ textFiles pages images,
    textFilesOf Scenario.fresh = Some textFiles
    ∧ findRagStoreByDisplayName (DATASET_NAME Scenario.services)
        Scenario.afterFirstSync
      = (Ok (Some (mkStore (store result) (DATASET_NAME Scenario.services)
                     (pages ++ images))), Scenario.afterFirstSync)
    ∧ displayName <$> pages = textFiles
    ∧ length images = imageFilesUploaded result.
Proof.
  apply (syncWikiToGeminiRag_store_contents Scenario.services []
           Scenario.fresh _ Scenario.afterFirstSync).
  - move=> s1 s2 Hs1. by apply elem_of_nil in Hs1.
  - move=> s Hs. by apply elem_of_nil in Hs.
  - by vm_compute.
Defined.

End SyncStoreFacts.

(** ** Master sync: a failure after the validation *)

Module SyncFailureFacts.
Import Env GeminiService.

Section Run.
Variable svc : Services.
Variable synonymConfigs : list SynonymConfig.

(** X22: a sync run is not atomic.  When the validation passes and
    the creation of the new store fails, the run has already deleted the
    store of the dataset: it returns no result, the error is logged, the
    guard is cleared, and the stores are the old ones without the
    dataset's. *)
Theorem syncWikiToGeminiRag_create_failure w textFiles old e :
  syncRunning w = false →
  textFilesOf w = Some textFiles → textFiles ≠ [] →
  head (filter (λ s, storeDisplayName s = DATASET_NAME svc) (stores w))
    = Some old →
  JS.truthy (name old) = true →
  createStore svc (filter (λ s, name s ≠ name old) (stores w)) = Throw e →
  ∃ w',
    syncWikiToGeminiRag svc synonymConfigs w = (Ok None, w')
    ∧ stores w' = filter (λ s, name s ≠ name old) (stores w)
    ∧ last (trace w') = Some (SyncError e)
    ∧ syncRunning w' = false.
Proof.
  move=> Hflag Hfiles Hne Hold Hname Hcreate.
  rewrite /syncWikiToGeminiRag {1}/mbind {1}/IO_bind /getWorld Hflag.
  rewrite /finally /tryCatch {1 2}/mbind {1 2}/IO_bind /=.
  rewrite {1}/mbind {1}/IO_bind /=.
  move: Hfiles. rewrite /textFilesOf.
  destruct (wikiFiles (fs w)) as [entries|]; last done.
  move=> [Hfiles]. rewrite Hfiles bool_decide_false; first by destruct textFiles.
  set w0 := setAi true (setSyncRunning true w).
  have [w1 [Hclear Hstores1]]:
    ∃ w1, clearImageHashCache w0 = (Ok tt, w1) ∧ stores w1 = stores w.
  { rewrite /clearImageHashCache /mbind /IO_bind /getWorld /=.
    destruct (imageHashCache (fs w)); by eexists. }
  have [w2 [Hsetup Hstores2]]:
    ∃ w2, SetUpFileSearchStore svc w1 = (Throw e, w2)
          ∧ stores w2 = filter (λ s, name s ≠ name old) (stores w).
  { rewrite /SetUpFileSearchStore /findRagStoreByDisplayName.
    rewrite /mbind /IO_bind /getWorld /liftResult /=.
    rewrite Hstores1 Hold Hname /= Hstores1 Hcreate /=. by eexists. }
  rewrite {1}/mbind {1}/IO_bind Hclear {1}/mbind {1}/IO_bind Hsetup /=.
  eexists. split_and!; [done | done | by rewrite /= last_snoc | done].
Qed.

End Run.

Lemma syncWikiToGeminiRag_create_failure_witness :
  let svc :=
    mkServices (DATASET_NAME Scenario.services) (md5 Scenario.services)
      (randomUUID Scenario.services) (imageRefs Scenario.services)
      (cleanWikiText Scenario.services)
      (λ _, Throw (Error (str "429 Too Many Requests")))
      (uploadToFileSearchStore Scenario.services)
      (analyzeImage Scenario.services) (extractOnce Scenario.services)
      (rewriteGenerate Scenario.services)
      (defaultSystemInstruction Scenario.services)
      (searchGenerate Scenario.services) in
  let old := mkStore (str "fileSearchStores/old") (str "IT_Wiki") [] in
  let w := mkWorld false true Scenario.files [old] [] in
  ∃ w',
    syncWikiToGeminiRag svc [] w = (Ok None, w')
    ∧ stores w' = filter (λ s, name s ≠ name old) (stores w)
    ∧ last (trace w') = Some (SyncError (Error (str "429 Too Many Requests")))
    ∧ syncRunning w' = false.
Proof.
  move=> svc old w.
  apply (syncWikiToGeminiRag_create_failure svc [] w [str "vpn.json"] old);
    by vm_compute.
Defined.
End SyncFailureFacts.

(** ** Master sync: what a run leaves alone, and the stores it keeps *)

Module SyncFrameFacts.
Import Env GeminiService StoreSpec SyncCacheFacts SyncRunFacts SyncStoreFacts.

Lemma preserves_finally {A} P (body : IO A) fin :
  preserves P body → (∀ w, P w → P (fin w)) → preserves P (finally body fin).
Proof.
  move=> Hbody Hfin w Hw. rewrite /finally. move: (Hbody w Hw).
  destruct (body w) as [r w1] => /= Hw1. by apply Hfin.
Qed.

(** One step into a computation; what remains in the end are its
    updates of the world. *)
Ltac frame_step :=
  first
    [ match goal with |- ∀ _, _ => intro end
    | apply preserves_ret
    | apply preserves_throw
    | apply preserves_liftResult
    | apply preserves_getWorld
    | apply preserves_bind
    | apply preserves_tryCatch
    | apply preserves_finally
    | apply preserves_forOf
    | match goal with
      | |- preserves _ (modify _) => apply preserves_modify
      | |- preserves _ (match ?x with _ => _ end) => destruct x
      | |- preserves _ (if ?b then _ else _) => destruct b
      | |- preserves _ (let _ := _ in _) => cbv zeta
      end ].

Ltac frame := repeat frame_step.

Section Run.
Variable svc : Services.
Variable synonymConfigs : list SynonymConfig.

(** X24: a sync run never writes to the export: the page files and
    the image files are after the run what they were before it. *)
Theorem syncWikiToGeminiRag_export_untouched w :
  let w' := snd (syncWikiToGeminiRag svc synonymConfigs w) in
  wikiFiles (fs w') = wikiFiles (fs w) ∧ wikiImages (fs w') = wikiImages (fs w).
Proof.
  have Hkeeps: preserves
      (λ w', wikiFiles (fs w') = wikiFiles (fs w)
             ∧ wikiImages (fs w') = wikiImages (fs w))
      (syncWikiToGeminiRag svc synonymConfigs).
  { rewrite /syncWikiToGeminiRag /initializeGemini /clearImageHashCache
      /SetUpFileSearchStore /findRagStoreByDisplayName
      /GenerateSynonyms.generateSynonyms /readdirSync
      /uploadTextFile /processImagesToRag /buildImagePageMap /loadHashCache
      /readdirSync /log.
    frame; rewrite /readFileSync /processImage /getImageHash /readFileSync
      /uploadTextToRag /saveHashCache /log; frame; done. }
  by apply Hkeeps.
Qed.

Lemma SingleStore_stores w w' :
  stores w' = stores w → SingleStore svc w → SingleStore svc w'.
Proof. rewrite /SingleStore. by move=> ->. Qed.

Lemma uploadTextToRag_SingleStore storeName content filename metadata :
  preserves (SingleStore svc)
    (uploadTextToRag svc storeName content filename metadata).
Proof.
  move=> w [Hlen Hnames]. rewrite /uploadTextToRag /mbind /IO_bind /=.
  destruct (uploadToFileSearchStore svc storeName _) as [err|]; rewrite /=;
    first by split.
  rewrite /SingleStore /= filter_fmap_store;
    first by move=> s; case_bool_decide.
  split; first by rewrite length_fmap.
  apply Forall_fmap. eapply Forall_impl; first exact Hnames.
  move=> s /=. by case_bool_decide.
Qed.

Hypothesis Hcreate : ∀ ss newName, createStore svc ss = Ok newName → newName ≠ [].

Lemma SetUpFileSearchStore_SingleStore :
  preserves (SingleStore svc) (SetUpFileSearchStore svc).
Proof.
  move=> w [Hlen Hnames].
  rewrite /SetUpFileSearchStore /findRagStoreByDisplayName.
  rewrite /mbind /IO_bind /getWorld /liftResult /=.
  set D := DATASET_NAME svc in Hlen Hnames |- *.
  have Hnew: ∀ w1 ss newName,
      filter (λ s, storeDisplayName s = D) ss = [] → newName ≠ [] →
      stores w1 = ss ++ [mkStore newName D []] → SingleStore svc w1.
  { move=> w1 ss newName Hss Hne Hw1.
    rewrite /SingleStore /= -/D Hw1 filter_app Hss /=.
    rewrite filter_cons decide_True //=. split; [lia | by repeat constructor]. }
  have Hgone: ∀ w1 ss, filter (λ s, storeDisplayName s = D) ss = [] →
                       stores w1 = ss → SingleStore svc w1.
  { move=> w1 ss Hss Hw1. rewrite /SingleStore /= -/D Hw1 Hss /=.
    split; [lia | done]. }
  destruct (filter (λ s, storeDisplayName s = D) (stores w))
    as [|old [|other rest]] eqn:Hfound; rewrite /=.
  - destruct (createStore svc (stores w)) as [newName|err] eqn:Hc; rewrite /=;
      last by rewrite /SingleStore /= -/D Hfound.
    have Hne := Hcreate _ _ Hc.
    destruct (JS.truthy newName); rewrite /=;
      by apply (Hnew _ (stores w) newName).
  - have Hname: JS.truthy (name old) = true.
    { move: Hnames => /Forall_cons [Hold _]. by destruct (name old). }
    rewrite Hname /=.
    have Hdel: filter (λ s, storeDisplayName s = D)
                 (filter (λ s, name s ≠ name old) (stores w)) = [].
    { apply StoreFacts.filter_none => s /list_elem_of_filter [Hne Hs] Hd.
      have: s ∈ filter (λ s, storeDisplayName s = D) (stores w)
        by apply list_elem_of_filter.
      rewrite Hfound => /list_elem_of_singleton Heq. by subst. }
    match goal with
    | |- context [createStore svc ?ss] =>
        destruct (createStore svc ss) as [newName|err] eqn:Hc
    end; rewrite /=.
    + have Hne := Hcreate _ _ Hc.
      destruct (JS.truthy newName); rewrite /=;
        by apply (Hnew _ _ newName Hdel).
    + by apply (Hgone _ _ Hdel).
  - simpl in Hlen. lia.
Qed.

(** X25: a sync run keeps the dataset to a single store.  If at most
    one store carries the display name of the dataset before the run,
    and has a name, the same holds after the run, however the run ends:
    rejected, stopped by the validation, failed half-way or completed.
    This is for a service that gives every store it creates a name. *)
Theorem syncWikiToGeminiRag_single_store w :
  SingleStore svc w →
  SingleStore svc (snd (syncWikiToGeminiRag svc synonymConfigs w)).
Proof.
  have Hmodify: ∀ f, (∀ w, stores (f w) = stores w) →
                     preserves (SingleStore svc) (modify f).
  { move=> f Hf w0 Hw0. by apply (SingleStore_stores w0); first apply Hf. }
  have Hkeeps: preserves (SingleStore svc)
                 (syncWikiToGeminiRag svc synonymConfigs).
  { rewrite /syncWikiToGeminiRag /initializeGemini /clearImageHashCache
      /GenerateSynonyms.generateSynonyms /readdirSync
      /uploadTextFile /processImagesToRag /buildImagePageMap /loadHashCache
      /readdirSync /log.
    repeat first
      [ apply SetUpFileSearchStore_SingleStore
      | apply uploadTextToRag_SingleStore
      | by apply Hmodify
      | frame_step
      | by apply SingleStore_stores
      | progress rewrite /readFileSync /processImage /getImageHash
          /readFileSync /saveHashCache /log ]. }
  apply Hkeeps.
Qed.

End Run.

Lemma syncWikiToGeminiRag_single_store_witness :
  SingleStore Scenario.services Scenario.afterSecondSync.
Proof.
  apply (syncWikiToGeminiRag_single_store Scenario.services []).
  - move=> ss newName [<-]. done.
  - rewrite /SingleStore.
    have ->: filter (λ s, storeDisplayName s = DATASET_NAME Scenario.services)
               (stores Scenario.afterFirstSync)
             = [mkStore (str "fileSearchStores/it-wiki") (str "IT_Wiki")
                  (concat (documents <$> stores Scenario.afterFirstSync))]
      by vm_compute.
    split; [simpl; lia | by repeat constructor].
Defined.

End SyncFrameFacts.

(** ** Image processor: the digests on file *)

Module HashCacheKeptFacts.
Import Env GeminiService CacheSpec.

Section Pass.
Variable svc : Services.
Variable storeName : jsstring.
Variable imagePageMap : gmap jsstring jsstring.
Variable image h : jsstring.
Variable before : list Event.

Lemma Remembers_after cache w w' evs :
  Remembers image h before cache w →
  imageHashCache (fs w') = imageHashCache (fs w) →
  trace w' = trace w ++ evs →
  Remembers image h before cache w'.
Proof.
  intros (Hfile & new & h' & Htrace & Hcache & Hh) Hfile' Htrace'.
  split; first by rewrite Hfile'.
  exists (new ++ evs), h'. rewrite Htrace' Htrace app_assoc.
  split_and!; [done | done |]. destruct Hh as [-> | Hin]; first by left.
  right. apply elem_of_app. by left.
Qed.

(** One round of the loop keeps a digest on file for [image]. *)
Lemma processImage_remembers st x w :
  Remembers image h before (hashCache st) w →
  let run := processImage svc storeName imagePageMap st x w in
  (∃ cache, Remembers image h before cache (snd run))
  ∧ ∀ st', fst run = Ok st' → Remembers image h before (hashCache st') (snd run).
Proof.
  move=> Hinv.
  have Hboth: ∀ st' w', Remembers image h before (hashCache st') w' →
      (∃ cache, Remembers image h before cache w')
      ∧ ∀ st'', Ok st' = Ok st'' → Remembers image h before (hashCache st'') w'.
  { move=> st' w' H'. split; [by eexists | by move=> ? [<-]]. }
  have Hthrow: ∀ (e : Thrown) w', Remembers image h before (hashCache st) w' →
      (∃ cache, Remembers image h before cache w')
      ∧ ∀ st'', @Throw ImageLoop e = Ok st'' →
                Remembers image h before (hashCache st'') w'.
  { move=> e w' H'. split; [by eexists | done]. }
  rewrite /processImage. case_bool_decide as Hdup.
  - rewrite /mbind /IO_bind /=. apply Hboth.
    by apply (Remembers_after _ w _ [RuntimeDuplicateSkipped x]).
  - rewrite /getImageHash /mbind /IO_bind /getWorld /readFileSync /=.
    destruct (wikiImages (fs w)) as [dir|] eqn:Hdir; rewrite /=;
      last by apply Hthrow.
    destruct ((list_to_map dir : gmap jsstring (list ascii)) !! x) as [b|] eqn:Hx;
      rewrite /=; last by apply Hthrow.
    case_bool_decide as Hhit.
    + rewrite /=. apply (Hboth (mkImageLoop _ _ _)).
      by apply (Remembers_after _ w _ [HashMatchSkipped x]).
    + rewrite /tryCatch /uploadTextToRag /mbind /IO_bind /getWorld /= Hdir /= Hx /=.
      destruct (uploadToFileSearchStore svc storeName _) as [err|];
        rewrite /=.
      * apply (Hboth (mkImageLoop _ _ _)).
        eapply (Remembers_after _ w _ [_; _; _; _]); [done | done |].
        by rewrite /= -!app_assoc.
      * apply (Hboth (mkImageLoop _ _ _)). rewrite /=.
        destruct Hinv as (Hfile & new & h' & Htrace & Hcache & Hh).
        split; first done.
        destruct (decide (x = image)) as [-> | Hne].
        -- exists (new ++ [Analysing image; Uploading (replaceImageExtension image);
                           UploadSuccessful (replaceImageExtension image)]), (md5 svc b).
           rewrite /= Htrace -!app_assoc lookup_insert_eq.
           split_and!; [done | done |]. right. apply elem_of_app. right. by left.
        -- exists (new ++ [Analysing x; Uploading (replaceImageExtension x);
                           UploadSuccessful (replaceImageExtension x)]), h'.
           rewrite /= Htrace -!app_assoc lookup_insert_ne //.
           split_and!; [done | done |]. destruct Hh as [-> | Hin]; first by left.
           right. apply elem_of_app. by left.
Qed.

Lemma forOf_processImage_remembers images st w :
  Remembers image h before (hashCache st) w →
  ∃ cache,
    Remembers image h before cache
      (snd (forOf images (processImage svc storeName imagePageMap) st w)).
Proof.
  elim: images st w => [|x images IH] st w Hinv; first by eexists.
  destruct (processImage_remembers st x w Hinv) as [Hworld Hok].
  rewrite /= /mbind /IO_bind.
  destruct (processImage svc storeName imagePageMap st x w) as [[st1|e] w1];
    [by apply IH, Hok | done].
Qed.

End Pass.

(** X26: an image pass never drops a digest from the hash cache file:
    an image that has a digest on file before the pass has one after
    it, and it is the same digest unless the pass has analysed the
    image. *)
Theorem processImagesToRag_keeps_digests svc storeName w image h :
  recordOf w image = Some h →
  let w' := snd (processImagesToRag svc storeName w) in
  ∃ h', recordOf w' image = Some h'
        ∧ (h' = h ∨ Analysing image ∈ eventsOf w w').
Proof.
  rewrite /recordOf. destruct (imageHashCache (fs w)) as [cache|] eqn:Hfile;
    last done.
  rewrite /= => Hcache.
  have Hstart: Remembers image h (trace w) cache w.
  { split; first done. exists [], h. rewrite app_nil_r. by split_and!; [..|left]. }
  have Hend: ∀ w', (∃ cache', Remembers image h (trace w) cache' w') →
      ∃ h', imageHashCache (fs w') ≫= (.!! image) = Some h'
            ∧ (h' = h ∨ Analysing image ∈ eventsOf w w').
  { intros w' [cache' (Hfile' & new & h' & Htrace & Hcache' & Hh)].
    exists h'. rewrite Hfile' /= Hcache' (ImagePassFacts.eventsOf_app _ _ _ Htrace).
    by split. }
  apply Hend. rewrite /processImagesToRag /mbind /IO_bind.
  move: (ImagePassFacts.buildImagePageMap_world svc w).
  destruct (buildImagePageMap svc w) as [[imagePageMap|e] w0] => /= ->;
    last by eexists.
  rewrite /readdirSync. destruct (wikiImages (fs w)) as [dir|]; rewrite /=;
    last by eexists.
  rewrite Hfile /=. set images := filter _ _.
  match goal with
  | |- context [forOf images _ ?st0 w] =>
      move: (forOf_processImage_remembers svc storeName imagePageMap image h
               (trace w) images st0 w Hstart)
  end.
  by destruct (forOf images _ _ w) as [[st|e] w1].
Qed.

Lemma processImagesToRag_keeps_digests_witness :
  let w := mkWorld false true
             (mkFileSystem None (Some [(str "login.png", str "89504e47")])
                (Some {[ str "old.png" := str "md5:00" ]}) None) [] [] in
  let w' := snd (processImagesToRag Scenario.services (str "store") w) in
  ∃ h', recordOf w' (str "old.png") = Some h'
        ∧ (h' = str "md5:00" ∨ Analysing (str "old.png") ∈ eventsOf w w').
Proof.
  move=> w.
  apply (processImagesToRag_keeps_digests Scenario.services (str "store") w
           (str "old.png") (str "md5:00")).
  by vm_compute.
Defined.

End HashCacheKeptFacts.

(** ** The pages of the wiki *)

Module WikiServiceFacts.
Import Env WikiService.

Section Wiki.
Variable getPage : jsstring → Result (option jsstring).

Lemma fetchEach_app nodes1 nodes2 pages :
  fetchEach getPage (nodes1 ++ nodes2) pages
  = match fetchEach getPage nodes1 pages with
    | Ok pages => fetchEach getPage nodes2 pages
    | Throw e => Throw e
    end.
Proof.
  elim: nodes1 pages => [|[p g r subs] nodes1 IH] pages //=.
  by destruct (getContentByPath getPage (default [] p)).
Qed.

Lemma traverse_preorder node pages :
  traverse getPage node pages
  = fetchEach getPage (filter (λ n, hasPage n = true) (preorder node)) pages.
Proof.
  elim/Node_nested_ind: node pages => p g r subs IH pages.
  rewrite /= filter_cons.
  have Heach: ∀ pages,
      match subs with
      | Some children =>
          (fix each (children : list Node) (pages : list Page) :=
             match children with
             | [] => Ok pages
             | child :: rest =>
                 match traverse getPage child pages with
                 | Ok pages => each rest pages
                 | Throw e => Throw e
                 end
             end) children pages
      | None => Ok pages
      end
      = fetchEach getPage
          (filter (λ n, hasPage n = true)
             match subs with
             | Some children =>
                 (fix each (children : list Node) : list Node :=
                    match children with
                    | [] => []
                    | child :: rest => preorder child ++ each rest
                    end) children
             | None => []
             end) pages.
  { destruct subs as [children|]; last done.
    elim: children IH => [|child rest IHrest] IH pages' //.
    apply Forall_cons in IH as [Hchild Hrest].
    rewrite filter_app fetchEach_app -Hchild.
    destruct (traverse getPage child pages'); [by apply IHrest | done]. }
  destruct (hasPage (mkNode p g r subs)) eqn:Hpage.
  - destruct (decide (true = true)); last done. rewrite /=.
    destruct (getContentByPath getPage (default [] p)) as [content|err];
      last done.
    rewrite -Heach. by destruct subs.
  - destruct (decide (false = true)); first done.
    rewrite -Heach. by destruct subs.
Qed.

Lemma fetchEach_paths nodes pages out :
  Forall (λ n, hasPage n = true) nodes →
  Forall (λ pg, pagePath pg ≠ [] ∧ pagePath pg ≠ str "/") pages →
  fetchEach getPage nodes pages = Ok out →
  Forall (λ pg, pagePath pg ≠ [] ∧ pagePath pg ≠ str "/") out
  ∧ pagePath <$> out
    = (pagePath <$> pages) ++ ((λ n, default [] (path n)) <$> nodes).
Proof.
  elim: nodes pages => [|[p g r subs] nodes IH] pages /=.
  - move=> _ Hpages [<-]. by rewrite app_nil_r.
  - move=> /Forall_cons [Hpage Hnodes] Hpages.
    destruct (getContentByPath getPage (default [] p)) as [content|e];
      last done.
    move=> Hrun.
    have Hnext: Forall (λ pg, pagePath pg ≠ [] ∧ pagePath pg ≠ str "/")
                  (pages ++ [mkPage (default [] p) g content r]).
    { apply Forall_app. split; first done. constructor; last done.
      move: Hpage. rewrite /hasPage /=. destruct p as [[|c p]|]; try done.
      rewrite /=. case_bool_decide; [done | by split]. }
    destruct (IH _ Hnodes Hnext Hrun) as [Hout Hpaths].
    split; first done.
    by rewrite Hpaths fmap_app /= -app_assoc.
Qed.

(** X27: getAllWikiPagesWithContent visits the page tree in document
    order: the pages are fetched one after the other, a page before its
    sub-pages and these in their order, the nodes without a path and
    the root "/" left out, and the first fetch that fails ends the
    traversal with its error.  So the pages of a traversal that returns
    have the paths of those nodes, in that order, and none has the path
    "/" or an empty path. *)
Theorem traverseAll_preorder roots :
  traverseAll getPage roots []
  = fetchEach getPage
      (filter (λ n, hasPage n = true) (roots ≫= preorder)) []
  ∧ ∀ out,
      traverseAll getPage roots [] = Ok out →
      Forall (λ pg, pagePath pg ≠ [] ∧ pagePath pg ≠ str "/") out
      ∧ pagePath <$> out
        = (λ n, default [] (path n))
            <$> filter (λ n, hasPage n = true) (roots ≫= preorder).
Proof.
  have Hall: ∀ pages,
      traverseAll getPage roots pages
      = fetchEach getPage
          (filter (λ n, hasPage n = true) (roots ≫= preorder)) pages.
  { elim: roots => [|root roots IH] pages //=.
    rewrite filter_app fetchEach_app -traverse_preorder.
    by destruct (traverse getPage root pages). }
  split; first apply Hall.
  move=> out. rewrite Hall => Hrun.
  have Hnodes: Forall (λ n, hasPage n = true)
                 (filter (λ n, hasPage n = true) (roots ≫= preorder)).
  { apply Forall_forall => n /list_elem_of_filter [] //. }
  by destruct (fetchEach_paths _ [] out Hnodes (Forall_nil_2 _) Hrun).
Qed.

End Wiki.
End WikiServiceFacts.
